(** * web-apis: the WebIDL acquisition and reconciliation pipeline

    A shallow embedding of the scraping importer ([getUniqueURLs],
    [urlSort], [loadURL], [parse], [importHTTP], [importIDL]) and of
    [BlinkLinkedRunner] ([gather], [run]), with the properties of the
    design document stated and settled against it.

    Conventions of the embedding.
    - A JavaScript string is a [string]; its characters stand for code
      units below 256, so the only line terminators are LF and CR, and
      [<] on strings is the lexicographic order on character codes.
    - An exception or a rejected promise is a [Throw e]; a returned value
      or a fulfilled promise is an [Ok v].
    - A plain object used as a dictionary is an association list in
      insertion order; its keys are enumerated as
      [Object.getOwnPropertyNames] does (array indices first, ascending,
      then the other keys in insertion order).  For [urlMap] of
      [getUniqueURLs] the names that it inherits from [Object.prototype]
      are modelled; the keys of the accumulators of the runner are URLs
      with their scheme, which are no such names.
    - A promise that is never settled is a run without an outcome,
      [None].
    - Logging has no effect on any result and is left out. *)

From Stdlib Require Import String Ascii ZArith NArith List Lia Permutation Sorted.
From stdpp Require Import base option list gmap strings.

Local Open Scope Z_scope.

(** * The program *)

(** ** Results of calls that may throw *)

Inductive Error : Type :=
| AssertionError                      (* no match: console.assert, or match[2] of null *)
| NoDataError (url : string)          (* Expected parse success from url *)
| ReferenceError (name : string)      (* name is not defined *)
| TypeError                           (* a method that the value does not have *)
| UnreachableError                    (* Unreachable: Second pass parse reporting *)
| MalformedMemoOutput                 (* Malformed memo output *)
| AlreadyRunning                      (* BlinkLinkedRunner already running *)
| ExternalError (msg : string).       (* raised by a collaborator: network, browser *)

Inductive Result (A : Type) : Type :=
| Ok (v : A)
| Throw (e : Error).
Arguments Ok {A} v.
Arguments Throw {A} e.

(** ** Arrays: [sort], [filter(...)[0]], [_.uniq] *)

Section Arrays.
Context {A : Type}.

(** [Array.prototype.sort(cmp)], as a stable insertion sort: an element
    goes in front of the first element it does not compare greater
    than.  The engine's algorithm is not fixed by the language; what is
    proved about the result below (ordered, a rearrangement of the
    input) holds of any of them for a consistent comparator. *)
Fixpoint sort_insert (cmp : A → A → Z) (x : A) (l : list A) : list A :=
  match l with
  | [] => [x]
  | y :: l' => if cmp x y <=? 0 then x :: y :: l' else y :: sort_insert cmp x l'
  end.

Definition js_sort (cmp : A → A → Z) (l : list A) : list A :=
  foldr (sort_insert cmp) [] l.

(** [arr.filter(p)[0]]: the first element that passes, or undefined. *)
Definition filter0 (p : A → bool) (l : list A) : option A :=
  List.find p l.

(** [_.uniq(arr)]: first occurrences, in order. *)
Fixpoint uniq_acc (eqb : A → A → bool) (seen l : list A) : list A :=
  match l with
  | [] => seen
  | x :: l' =>
      if existsb (eqb x) seen then uniq_acc eqb seen l'
      else uniq_acc eqb (seen ++ [x]) l'
  end.

Definition uniq (eqb : A → A → bool) (l : list A) : list A :=
  uniq_acc eqb [] l.
End Arrays.

(** The comparison that [sort()] uses without a comparator, and that
    [urlSort] spells out: [-1] when [a < b], [1] when [a > b], else [0]. *)
Definition string_cmp (a b : string) : Z :=
  if String.ltb a b then -1
  else if String.ltb b a then 1
  else 0.

(** ** Objects used as dictionaries *)

Section Objects.
Context {V : Type}.

(** [o[k]], undefined when [k] is not an own property. *)
Fixpoint obj_get (k : string) (o : list (string * V)) : option V :=
  match o with
  | [] => None
  | (k', v) :: o' => if String.eqb k k' then Some v else obj_get k o'
  end.

(** [o[k] = v]: an existing property keeps its place, a new one goes
    last. *)
Fixpoint obj_set (k : string) (v : V) (o : list (string * V)) : list (string * V) :=
  match o with
  | [] => [(k, v)]
  | (k', v') :: o' =>
      if String.eqb k k' then (k', v) :: o' else (k', v') :: obj_set k v o'
  end.

(** [delete o[k]]. *)
Fixpoint obj_delete (k : string) (o : list (string * V)) : list (string * V) :=
  match o with
  | [] => []
  | (k', v') :: o' =>
      if String.eqb k k' then o' else (k', v') :: obj_delete k o'
  end.
End Objects.

(** A key is an array index when it is the canonical decimal form of an
    integer below [2^32 - 1]. *)
Definition is_digit (c : ascii) : bool :=
  ((48 <=? N_of_ascii c) && (N_of_ascii c <=? 57))%N.

Fixpoint digits_value (acc : N) (s : string) : option N :=
  match s with
  | EmptyString => Some acc
  | String c s' =>
      if is_digit c then digits_value (10 * acc + (N_of_ascii c - 48))%N s'
      else None
  end.

Definition array_index (k : string) : option N :=
  match k with
  | EmptyString => None
  | String c rest =>
      if Ascii.eqb c "0"%char && negb (String.eqb rest EmptyString) then None
      else match digits_value 0%N k with
           | Some n => if (n <? 4294967295)%N then Some n else None
           | None => None
           end
  end.

Definition is_array_index (k : string) : bool :=
  match array_index k with Some _ => true | None => false end.

Definition index_cmp (a b : string) : Z :=
  match array_index a, array_index b with
  | Some m, Some n => Z.of_N m - Z.of_N n
  | _, _ => 0
  end.

(** [Object.getOwnPropertyNames(o)] on the keys of [o] in insertion
    order. *)
Definition own_property_order (keys : list string) : list string :=
  js_sort index_cmp (List.filter is_array_index keys)
  ++ List.filter (fun k => negb (is_array_index k)) keys.

Definition getOwnPropertyNames {V} (o : list (string * V)) : list string :=
  own_property_order (o.*1).

(** ** URL canonicalisation: [getUniqueURLs] *)

Inductive Scheme : Type := http | https.

Definition scheme_str (s : Scheme) : string :=
  match s with http => "http" | https => "https" end.

Definition scheme_eqb (a b : Scheme) : bool :=
  match a, b with
  | http, http | https, https => true
  | _, _ => false
  end.

Definition scheme_cmp (a b : Scheme) : Z :=
  string_cmp (scheme_str a) (scheme_str b).

Definition is_line_terminator (c : ascii) : bool :=
  ((N_of_ascii c =? 10) || (N_of_ascii c =? 13))%N.

(** The last group of the pattern, any characters up to the end of the
    input: the rest must hold no line terminator. *)
Fixpoint dot_star (s : string) : bool :=
  match s with
  | EmptyString => true
  | String c s' => negb (is_line_terminator c) && dot_star s'
  end.

(** [url.match] on the scheme pattern: [http] or [https], then [://],
    then the rest; the result is the pair of [match[1]] and [match[2]]. *)
Definition url_match (url : string) : option (Scheme * string) :=
  match url with
  | String "h" (String "t" (String "t" (String "p" r))) =>
      match r with
      | String "s" (String ":" (String "/" (String "/" rest))) =>
          if dot_star rest then Some (https, rest) else None
      | String ":" (String "/" (String "/" rest)) =>
          if dot_star rest then Some (http, rest) else None
      | _ => None
      end
  | _ => None
  end.

(** [urlMap] is a plain object: where it has no own property of a name,
    [urlMap[key]] is what [Object.prototype] has under that name.  These
    are the names that [Object.prototype] has; the value is a function
    or, under [__proto__], the prototype itself. *)
Definition prototype_names : list string :=
  ["constructor"; "__defineGetter__"; "__defineSetter__"; "hasOwnProperty";
   "__lookupGetter__"; "__lookupSetter__"; "isPrototypeOf";
   "propertyIsEnumerable"; "toString"; "valueOf"; "__proto__";
   "toLocaleString"].

Definition inherited (key : string) : bool :=
  existsb (String.eqb key) prototype_names.

(** The body of [urls.forEach]: store all schemes seen for the URL.
    Where [urlMap[key]] is an inherited value, it is truthy and stays,
    and calling its [filter], which it has not, throws the TypeError. *)
Definition record_scheme (urlMap : list (string * list Scheme)) (url : string)
  : Result (list (string * list Scheme)) :=
  match url_match url with
  | None => Throw AssertionError
  | Some (scheme, key) =>
      match obj_get key urlMap, inherited key with
      | None, true => Throw TypeError
      | own, _ =>
          let seen := default [] own in
          let urlMap := obj_set key seen urlMap in
          match filter0 (fun s => scheme_eqb s scheme) seen with
          | Some _ => Ok urlMap
          | None =>
              Ok (obj_set key (js_sort scheme_cmp (seen ++ [scheme])) urlMap)
          end
      end
  end.

Fixpoint forEach_throwing {S X} (f : S → X → Result S) (l : list X) (s : S)
  : Result S :=
  match l with
  | [] => Ok s
  | x :: l' =>
      match f s x with
      | Ok s' => forEach_throwing f l' s'
      | Throw e => Throw e
      end
  end.

(** The body of the first [map]: fold the URL without a slash into the
    one with a slash.  Each name is still an own property on its turn,
    since a turn deletes no other name. *)
Definition merge_slash (urlMap : list (string * list Scheme)) (url : string)
  : list (string * list Scheme) :=
  match obj_get (url +:+ "/") urlMap with
  | Some withSlash =>
      let merged :=
        js_sort scheme_cmp
          (uniq scheme_eqb (withSlash ++ default [] (obj_get url urlMap))) in
      obj_delete url (obj_set (url +:+ "/") merged urlMap)
  | None => urlMap
  end.

(** The body of the second [map]: [pop] takes the scheme that sorts last. *)
Definition canonical_url (urlMap : list (string * list Scheme)) (rest : string)
  : string :=
  match last (default [] (obj_get rest urlMap)) with
  | Some scheme => scheme_str scheme +:+ "://" +:+ rest
  | None => "undefined://" +:+ rest
  end.

Definition getUniqueURLs (urls : list string) : Result (list string) :=
  match forEach_throwing record_scheme urls [] with
  | Throw e => Throw e
  | Ok urlMap =>
      let urlMap := fold_left merge_slash (getOwnPropertyNames urlMap) urlMap in
      Ok (canonical_url urlMap <$> getOwnPropertyNames urlMap)
  end.

(** *** Notions used to state the properties of [getUniqueURLs] *)

(** A raw URL is well formed when the scheme pattern matches it. *)
Definition well_formed (url : string) : Prop := is_Some (url_match url).

(** A raw URL is plain when the scheme pattern matches it and its rest
    is none of the names that [urlMap] inherits. *)
Definition plain (url : string) : Prop :=
  ∃ scheme key, url_match url = Some (scheme, key) ∧ inherited key = false.

(** The raw URL with or without the trailing slash. *)
Definition with_slash (slash : bool) (rest : string) : string :=
  if slash then rest +:+ "/" else rest.

(** [https] as soon as one of the two schemes is [https]. *)
Definition preferred (s1 s2 : Scheme) : Scheme :=
  match s1, s2 with
  | http, http => http
  | _, _ => https
  end.

(** What holds of every entry of [urlMap], and of [urlMap]: the key came
    out of the pattern and is no inherited name, some scheme is stored,
    no key is there twice. *)
Definition entry_ok (e : string * list Scheme) : Prop :=
  dot_star e.1 = true ∧ e.2 ≠ [] ∧ inherited e.1 = false.

Definition map_ok (urlMap : list (string * list Scheme)) : Prop :=
  NoDup urlMap.*1 ∧ Forall entry_ok urlMap.

(** The canonical URL built from a scheme choice [s] and a key. *)
Definition render (s : string → Scheme) (k : string) : string :=
  scheme_str (s k) +:+ "://" +:+ k.

(** ** Promises over the disk

    A promise is run against the state of the disk: it settles to an
    [Ok] or a [Throw] and leaves a new state.  [Promise_all] settles its
    promises in the order of the array; the theorems below hold of every
    scraper and every starting disk, so of every outcome the jobs of a
    batch can have. *)

Definition Promise (S A : Type) : Type := S → Result A * S.

Definition resolve {S A} (v : A) : Promise S A := fun s => (Ok v, s).

Definition reject {S A} (e : Error) : Promise S A := fun s => (Throw e, s).

(** [p.then(f)] *)
Definition then_ {S A B} (p : Promise S A) (f : A → Promise S B) : Promise S B :=
  fun s =>
    match p s with
    | (Ok v, s') => f v s'
    | (Throw e, s') => (Throw e, s')
    end.

(** [p.catch(h)] *)
Definition catch_ {S A} (p : Promise S A) (h : Error → Promise S A) : Promise S A :=
  fun s =>
    match p s with
    | (Ok v, s') => (Ok v, s')
    | (Throw e, s') => h e s'
    end.

(** [Promise.all(ps)]: every promise runs; the result is the array of
    the values, or the first rejection. *)
Fixpoint Promise_all {S A} (ps : list (Promise S A)) : Promise S (list A) :=
  fun s =>
    match ps with
    | [] => (Ok [], s)
    | p :: ps' =>
        let '(r, s1) := p s in
        let '(rs, s2) := Promise_all ps' s1 in
        (match r, rs with
         | Ok v, Ok vs => Ok (v :: vs)
         | Throw e, _ => Throw e
         | Ok _, Throw e => Throw e
         end, s2)
    end.

(** ** Promises that may stay pending

    [loadURL] hands [resolve] and [reject] to the listeners of the
    response.  What a listener throws is thrown outside the promise: the
    promise is never settled, and neither is a promise that waits for
    it.  [None] is the run in which that happens. *)

Definition Deferred (S A : Type) : Type := S → option (Result A * S).

(** [p.then(f)] with a function [f] that returns or throws at once. *)
Definition then_d {S A B} (p : Deferred S A) (f : A → Promise S B)
  : Deferred S B :=
  fun s =>
    match p s with
    | Some (Ok v, s') => Some (f v s')
    | Some (Throw e, s') => Some (Throw e, s')
    | None => None
    end.

(** [p.catch(h)] with a handler that returns a value: the promise
    resolves, or stays pending. *)
Definition catch_d {S A} (p : Deferred S A) (h : Error → A)
  : S → option (A * S) :=
  fun s =>
    match p s with
    | Some (Ok v, s') => Some (v, s')
    | Some (Throw e, s') => Some (h e, s')
    | None => None
    end.

(** [Promise.all(ps)] over promises that resolve or stay pending: the
    array of the values, or pending with the first one that is. *)
Fixpoint all_d {S A} (ps : list (S → option (A * S))) : S → option (list A * S) :=
  fun s =>
    match ps with
    | [] => Some ([], s)
    | p :: ps' =>
        match p s with
        | None => None
        | Some (v, s1) =>
            match all_d ps' s1 with
            | None => None
            | Some (vs, s2) => Some (v :: vs, s2)
            end
        end
    end.

(** ** Parse records, the caches and the stored Dataset *)

Record ParseRecord (Fragment : Type) : Type :=
  { url : string; parses : list Fragment }.
Arguments Build_ParseRecord {Fragment} url parses.
Arguments url {Fragment} _.
Arguments parses {Fragment} _.

(** A file that holds the serialisation of a value, which [JSON.parse]
    reads back, or bytes that [JSON.parse] rejects.  A file with JSON of
    another shape is outside the model. *)
Inductive File (A : Type) : Type :=
| Json (value : A)
| Bytes (raw : string).
Arguments Json {A} value.
Arguments Bytes {A} raw.

(** The two cache directories, keyed by file name, and the Dataset files,
    keyed by path.  A missing key is a missing file. *)
Record Disk (Fragment : Type) : Type :=
  { urlcache : gmap string string;
    idlcache : gmap string (File (ParseRecord Fragment));
    datasets : gmap string (File (list (ParseRecord Fragment))) }.
Arguments Build_Disk {Fragment} urlcache idlcache datasets.
Arguments urlcache {Fragment} _.
Arguments idlcache {Fragment} _.
Arguments datasets {Fragment} _.

(** [JSON.parse(fs.readFileSync(name))], [None] when either throws. *)
Definition read_json {A} (dir : gmap string (File A)) (name : string) : option A :=
  match dir !! name with
  | Some (Json value) => Some value
  | _ => None
  end.

Definition is_alnum (c : ascii) : bool :=
  let n := N_of_ascii c in
  (((48 <=? n) && (n <=? 57)) || ((65 <=? n) && (n <=? 90))
   || ((97 <=? n) && (n <=? 122)))%N.

Fixpoint getCacheFileName (url : string) : string :=
  match url with
  | EmptyString => EmptyString
  | String c url' =>
      String (if is_alnum c then c else "_"%char) (getCacheFileName url')
  end.

(** What a fetch resolves to: one body, or an array of candidates. *)
Inductive Content : Type :=
| Single (data : string)
| Several (data : list string).

Definition as_array (data : Content) : list string :=
  match data with
  | Single d => [d]
  | Several ds => ds
  end.

(** ** The importer: [parse], [loadURL], [importHTTP], [importIDL] *)

Section Importer.
Context {Fragment : Type}.

(** The WebIDL parser, an external pure function: [Some parses] when
    [res[0]] is truthy, with [res[1]] the fragments. *)
Variable parseString : string → option (list Fragment).

Abbreviation Datum := (ParseRecord Fragment).
Abbreviation P := (Promise (Disk Fragment)).

Definition urlSort (a b : Datum) : Z := string_cmp (url a) (url b).

Definition clearCache (u : string) (disk : Disk Fragment) : Disk Fragment :=
  let fileName := getCacheFileName u in
  {| urlcache := delete fileName (urlcache disk);
     idlcache := delete fileName (idlcache disk);
     datasets := datasets disk |}.

(** [fs.writeFileSync(path, stringify(data))] on a Dataset path. *)
Definition write_dataset (path : string) (data : list Datum) : P unit :=
  fun disk =>
    (Ok tt, {| urlcache := urlcache disk;
               idlcache := idlcache disk;
               datasets := <[path := Json data]> (datasets disk) |}).

(** [loadURL]: the cached body if there is one, else the body that the
    request delivers, which is cached.  [request] is the network: the
    error of the request or of the response, or the body that the chunks
    of the response make up.  The empty body is the response that ends
    without a chunk: [data] is still undefined, [fs.writeFileSync]
    refuses it with a TypeError, thrown in the listener of [end], and
    the promise is never settled.  (A runtime before Node 14 writes the
    text [undefined] instead and resolves without data; that run is not
    modelled.)  [urlcache] stands here for [./.urlcache], the directory
    that [loadURL] names relative to the working directory; it is
    [urlCacheDir], which [clearCache] names, when the process runs in
    the directory of the script, and no property below relates the
    two. *)
Definition loadURL (request : string → Result string) (u : string)
  : Deferred (Disk Fragment) (string * Content) :=
  fun disk =>
    let path := getCacheFileName u in
    match urlcache disk !! path with
    | Some data => Some (Ok (u, Single data), disk)
    | None =>
        match request u with
        | Throw err => Some (Throw err, disk)
        | Ok EmptyString => None
        | Ok data =>
            Some (Ok (u, Single data),
                  {| urlcache := <[path := data]> (urlcache disk);
                     idlcache := idlcache disk;
                     datasets := datasets disk |})
        end
    end.

(** The body of the loop of [parse] over the candidates. *)
Definition parse_candidate (parses : list Fragment) (idl : string)
  : list Fragment :=
  match parseString idl with
  | Some fragments => parses ++ fragments
  | None => parses
  end.

(** [parse].  A readable cached record is returned as it is.  The calls
    of [webidl2.parse] sit in [try] blocks that swallow what they throw
    and leave no trace in the result. *)
Definition parse (page : string * Content) : P Datum :=
  fun disk =>
    let '(u, data) := page in
    let data := as_array data in
    let idlCachePath := getCacheFileName u in
    match read_json (idlcache disk) idlCachePath with
    | Some cached => (Ok cached, disk)
    | None =>
        let parses := fold_left parse_candidate data [] in
        if (length parses =? 0)%nat then (Throw (NoDataError u), disk)
        else
          let record := {| url := u; parses := parses |} in
          let disk :=
            if (0 <? length parses)%nat
            then {| urlcache := urlcache disk;
                    idlcache := <[idlCachePath := Json record]> (idlcache disk);
                    datasets := datasets disk |}
            else disk in
          (Ok record, disk)
    end.

(** One job of a batch: fetch, parse, and on failure the record without
    parses. *)
Definition job (fetch : string → P (string * Content)) (u : string) : P Datum :=
  catch_ (then_ (fetch u) parse)
         (fun err => resolve {| url := u; parses := [] |}).

(** [scrapeURLs] of [importHTTP]; [scrape] is [seleniumManager.scrape]. *)
Definition scrapeURLs (scrape : string → P (string * Content))
  (urls : list string) : P (list Datum) :=
  Promise_all (job scrape <$> urls).

Definition same_url (u : string) (d : Datum) : bool := String.eqb (url d) u.

(** The body of the loop over the previous data that collects the URLs
    to retry. *)
Definition check_previous (allData : list Datum) (retryURLs : list string)
  (prevDatum : Datum) : list string :=
  match filter0 (same_url (url prevDatum)) allData with
  | None =>
      if (0 <? length (parses prevDatum))%nat
      then retryURLs ++ [url prevDatum] else retryURLs
  | Some datum =>
      if (length (parses datum) <? length (parses prevDatum))%nat
      then retryURLs ++ [url prevDatum] else retryURLs
  end.

(** The URLs to retry: the loop over the previous data, when some were
    read. *)
Definition retry_urls (prevData : option (list Datum)) (allData : list Datum)
  : list string :=
  match prevData with
  | Some prevData => fold_left (check_previous allData) prevData []
  | None => []
  end.

(** The loop of the second pass over the retry URLs.  Both data are read
    from [allData], as in the source; the data of the second scrape is
    not consulted.  The message of the first branch names [prevDatum],
    which is bound only inside the earlier loop and inside the last
    branch, so evaluating it raises a ReferenceError. *)
Fixpoint resolve_retries (prevData : list Datum) (retryURLs : list string)
  (allData : list Datum) : Result (list Datum) :=
  match retryURLs with
  | [] => Ok allData
  | u :: retryURLs' =>
      let continue := resolve_retries prevData retryURLs' in
      let firstDatum := filter0 (same_url u) allData in
      let secondDatum := filter0 (same_url u) allData in
      match secondDatum with
      | None => Throw (ReferenceError "prevDatum")
      | Some secondDatum =>
          match firstDatum with
          | None => continue (js_sort urlSort (allData ++ [secondDatum]))
          | Some firstDatum =>
              let firstParses := parses firstDatum in
              let secondParses := parses secondDatum in
              if (length secondParses <? length firstParses)%nat
              then continue allData
              else if (length secondParses =? length firstParses)%nat
              then continue allData
              else if (length firstParses <? length secondParses)%nat
              then
                match filter0 (same_url u) prevData with
                | None => continue allData
                | Some prevDatum =>
                    let prevParses := parses prevDatum in
                    if (length secondParses <? length prevParses)%nat
                    then continue allData
                    else if (length secondParses =? length prevParses)%nat
                    then continue allData
                    else if (length prevParses <? length secondParses)%nat
                    then continue (js_sort urlSort (allData ++ [secondDatum]))
                    else Throw UnreachableError
                end
              else Throw UnreachableError
          end
      end
  end.

(** [JSON.parse(fs.readFileSync(path))] in its [try]: [None] is the
    [null] that [prevData] keeps when the read or the parse throws. *)
Definition read_previous (path : string) : P (option (list Datum)) :=
  fun disk => (Ok (read_json (datasets disk) path), disk).

(** [importHTTP].  [scrape1] and [scrape2] are the [scrape] of the first
    and of the second Selenium manager.  The loop of the second pass
    reads [prevData] only in a turn, and there is a turn only when
    [prevData] was read. *)
Definition importHTTP (scrape1 scrape2 : string → P (string * Content))
  (urls : list string) (path : string) : P (list Datum) :=
  match getUniqueURLs urls with
  | Throw err => reject err
  | Ok urls =>
      then_ (scrapeURLs scrape1 urls) (fun data =>
        let seleniumData := data in
        let allData := js_sort urlSort seleniumData in
        then_ (read_previous path) (fun prevData =>
          let retryURLs := retry_urls prevData allData in
          then_ (fun disk => (Ok tt, fold_left (fun d u => clearCache u d) retryURLs disk))
            (fun _ =>
          then_ (scrapeURLs scrape2 retryURLs) (fun data =>
            match resolve_retries (default [] prevData) retryURLs allData with
            | Throw err => reject err
            | Ok allData =>
                then_ (write_dataset path allData) (fun _ => resolve allData)
            end))))
  end.

(** One job of [importIDL]: load, parse, and on failure the record
    without parses. *)
Definition load_job (request : string → Result string) (u : string)
  : Disk Fragment → option (Datum * Disk Fragment) :=
  catch_d (then_d (loadURL request u) parse)
          (fun err => {| url := u; parses := [] |}).

(** [importIDL]; [request] is the network behind [loadURL].  The jobs
    are settled one after the other in the order of the array.  The
    source starts them together, and each looks into the cache as it
    starts: the two agree where each URL of the batch has cache files of
    its own. *)
Definition importIDL (request : string → Result string)
  (urls : list string) (path : string) : Deferred (Disk Fragment) (list Datum) :=
  let urls := js_sort string_cmp (uniq String.eqb urls) in
  fun disk =>
    match all_d (load_job request <$> urls) disk with
    | None => None
    | Some (data, disk) =>
        Some (then_ (write_dataset path data) (fun _ => resolve data) disk)
    end.

(** How a batch over [urls] settles when [step u] is the fetch-and-parse
    step of the URL [u]: a step that fails contributes the record of the
    URL without parses, a step that succeeds contributes its record. *)
Inductive settles (step : string → P Datum)
  : list string → Disk Fragment → list Datum → Disk Fragment → Prop :=
| settles_nil disk : settles step [] disk [] disk
| settles_caught u urls disk err disk1 data disk2 :
    step u disk = (Throw err, disk1) →
    settles step urls disk1 data disk2 →
    settles step (u :: urls) disk ({| url := u; parses := [] |} :: data) disk2
| settles_kept u urls disk record disk1 data disk2 :
    step u disk = (Ok record, disk1) →
    settles step urls disk1 data disk2 →
    settles step (u :: urls) disk (record :: data) disk2.

End Importer.

(** ** The Dataset that is written *)

(** Ascending by URL. *)
Definition url_le {Fragment} (a b : ParseRecord Fragment) : Prop :=
  String.leb (url a) (url b) = true.

(** A fetch that resolves to the URL it was asked for and leaves the
    parse-record cache alone. *)
Definition faithful {Fragment}
  (fetch : string → Promise (Disk Fragment) (string * Content)) : Prop :=
  ∀ u disk,
    idlcache (fetch u disk).2 = idlcache disk ∧
    ∀ u' data, (fetch u disk).1 = Ok (u', data) → u' = u.

(** No two of the URLs share a cache file name. *)
Definition names_distinct (urls : list string) : Prop :=
  ∀ u v, u ∈ urls → v ∈ urls → getCacheFileName u = getCacheFileName v → u = v.

(** Every parse record cached under the file name of one of the URLs
    carries that URL. *)
Definition cache_coherent {Fragment} (disk : Disk Fragment) (urls : list string)
  : Prop :=
  ∀ u cached, u ∈ urls →
    read_json (idlcache disk) (getCacheFileName u) = Some cached →
    url cached = u.

(** ** [BlinkLinkedRunner] *)

Unset Elimination Schemes.

(** A value inside the output of the pipeline: an array, or a parse, an
    object without a [length]. *)
Inductive Value (Fragment : Type) : Type :=
| Arr (items : list (Value Fragment))
| Obj (parse : Fragment).
Arguments Arr {Fragment} items.
Arguments Obj {Fragment} parse.

Set Elimination Schemes.

(** What [pipeline.runAll] hands to [gather]: nothing, an empty array, or
    the URLs in [output] with the parses in [delegates]. *)
Inductive PipelineOutput (Fragment : Type) : Type :=
| NoOutput
| EmptyArray
| Output (output : list string) (delegates : Value Fragment).
Arguments NoOutput {Fragment}.
Arguments EmptyArray {Fragment}.
Arguments Output {Fragment} output delegates.

(** The runner.  [pipeline] is the head of the chain that the last
    [memos.bind] composed and [bound] tells whether that chain is still
    attached; [eachFilePromises] lists the files handed to the
    pipeline. *)
Record Runner (Fragment Chain : Type) : Type :=
  { running : bool;
    eachFilePromises : list string;
    urlsToFiles : gmap string (list string);
    urlsToParses : gmap string (list (Value Fragment));
    pipeline : option Chain;
    bound : bool }.
Arguments Build_Runner {Fragment Chain} _ _ _ _ _ _.
Arguments running {Fragment Chain} _.
Arguments eachFilePromises {Fragment Chain} _.
Arguments urlsToFiles {Fragment Chain} _.
Arguments urlsToParses {Fragment Chain} _.
Arguments pipeline {Fragment Chain} _.
Arguments bound {Fragment Chain} _.

(** What the stream of files and the pipeline do to a runner. *)
Inductive Event (Fragment Chain : Type) : Type :=
| CallRun (chain : Chain)
| GlobData (file : string)
| FileDone (file : string) (output : PipelineOutput Fragment)
| GlobError
| GlobEnd.
Arguments CallRun {Fragment Chain} chain.
Arguments GlobData {Fragment Chain} file.
Arguments FileDone {Fragment Chain} file output.
Arguments GlobError {Fragment Chain}.
Arguments GlobEnd {Fragment Chain}.

Section Runner.
Context {Fragment Chain : Type}.

(** The loop that unwraps [delegates] until its length is the number of
    URLs. *)
Fixpoint align (n : nat) (parses : Value Fragment)
  : Result (list (Value Fragment)) :=
  match parses with
  | Obj _ => Throw MalformedMemoOutput
  | Arr items =>
      if (length items =? n)%nat then Ok items
      else match items with
           | [first] => align n first
           | _ => Throw MalformedMemoOutput
           end
  end.

(** [acc.concat(v)] appends the items of an array and any other value as
    it is. *)
Definition concat_value (acc : list (Value Fragment)) (v : Value Fragment)
  : list (Value Fragment) :=
  match v with
  | Arr items => acc ++ items
  | Obj _ => acc ++ [v]
  end.

(** [parsesFromURL.reduce(...)]; only an array has [reduce]. *)
Definition flatten_tags (parsesFromURL : Value Fragment)
  : Result (list (Value Fragment)) :=
  match parsesFromURL with
  | Arr tags => Ok (fold_left concat_value tags [])
  | Obj _ => Throw TypeError
  end.

Fixpoint map_throwing {X Y} (f : X → Result Y) (l : list X) : Result (list Y) :=
  match l with
  | [] => Ok []
  | x :: l' =>
      match f x with
      | Throw e => Throw e
      | Ok y =>
          match map_throwing f l' with
          | Throw e => Throw e
          | Ok ys => Ok (y :: ys)
          end
      end
  end.

(** The body of the last loop of [gather], for one URL and its parses. *)
Definition gather_url (file : string)
  (acc : gmap string (list string) * gmap string (list (Value Fragment)))
  (entry : string * list (Value Fragment))
  : gmap string (list string) * gmap string (list (Value Fragment)) :=
  let '(u, parses) := entry in
  (<[u := default [] (acc.1 !! u) ++ [file]]> acc.1, <[u := parses]> acc.2).

(** The function of the [gather] memo, on the accumulators of the
    runner.  The memo that wraps it is taken to call it on every run. *)
Definition gather (r : Runner Fragment Chain) (file : string)
  (output : PipelineOutput Fragment) : Result (Runner Fragment Chain) :=
  match output with
  | NoOutput | EmptyArray => Ok r
  | Output urls delegates =>
      match align (length urls) delegates with
      | Throw e => Throw e
      | Ok parses =>
          match map_throwing flatten_tags parses with
          | Throw e => Throw e
          | Ok parses =>
              let acc :=
                fold_left (gather_url file) (zip urls parses)
                  (urlsToFiles r, urlsToParses r) in
              Ok {| running := running r;
                    eachFilePromises := eachFilePromises r;
                    urlsToFiles := acc.1;
                    urlsToParses := acc.2;
                    pipeline := pipeline r;
                    bound := bound r |}
          end
      end
  end.

(** The runner that [init] leaves: not running, no file handed over, no
    chain composed.  The two accumulators are assigned by [run()]; they
    are empty here, and [gather] is not called before the first
    [run()]. *)
Definition init : Runner Fragment Chain :=
  {| running := false;
     eachFilePromises := [];
     urlsToFiles := ∅;
     urlsToParses := ∅;
     pipeline := None;
     bound := false |}.

(** [run()], up to the promise it returns; [chain] is what [memos.bind]
    composes at this call. *)
Definition run (chain : Chain) (r : Runner Fragment Chain)
  : Result unit * Runner Fragment Chain :=
  if running r then (Throw AlreadyRunning, r)
  else
    (Ok tt,
     {| running := true;
        eachFilePromises := eachFilePromises r;
        urlsToFiles := ∅;
        urlsToParses := ∅;
        pipeline := Some chain;
        bound := true |}).

(** [finish], which the handler of a stream error calls. *)
Definition finish (r : Runner Fragment Chain) : Runner Fragment Chain :=
  {| running := false;
     eachFilePromises := eachFilePromises r;
     urlsToFiles := urlsToFiles r;
     urlsToParses := urlsToParses r;
     pipeline := pipeline r;
     bound := false |}.

(** [processFile]: the file is handed to the pipeline. *)
Definition processFile (file : string) (r : Runner Fragment Chain)
  : Runner Fragment Chain :=
  {| running := running r;
     eachFilePromises := eachFilePromises r ++ [file];
     urlsToFiles := urlsToFiles r;
     urlsToParses := urlsToParses r;
     pipeline := pipeline r;
     bound := bound r |}.

(** One event.  [run] on a running runner throws and [gather] on a
    malformed output throws: the runner stays as it was.  The end of the
    stream stores the data and resolves; [finish] is not called there. *)
Definition handle (r : Runner Fragment Chain) (e : Event Fragment Chain)
  : Runner Fragment Chain :=
  match e with
  | CallRun chain => (run chain r).2
  | GlobData file => processFile file r
  | FileDone file output =>
      match gather r file output with
      | Ok r' => r'
      | Throw _ => r
      end
  | GlobError => finish r
  | GlobEnd => r
  end.

Definition handle_all (r : Runner Fragment Chain)
  (events : list (Event Fragment Chain)) : Runner Fragment Chain :=
  fold_left handle events r.

(** [delegates] cannot be aligned with [n] URLs: unwrapping arrays of
    length one, other than [n], reaches a value whose length is neither
    [n] nor one (a parse has no length). *)
Inductive misaligned (n : nat) : Value Fragment → Prop :=
| misaligned_here items :
    length items ≠ n → length items ≠ 1%nat → misaligned n (Arr items)
| misaligned_parse p : misaligned n (Obj p)
| misaligned_inside item :
    n ≠ 1%nat → misaligned n item → misaligned n (Arr [item]).
End Runner.

(** ** Concrete runs *)

(** A parser for the runs below: a text of one to four capital letters
    holds one fragment per letter, any other text is not IDL. *)
Definition letters_parser (idl : string) : option (list nat) :=
  if String.eqb idl "A" then Some [1%nat]
  else if String.eqb idl "AB" then Some [1%nat; 2%nat]
  else if String.eqb idl "ABC" then Some [1%nat; 2%nat; 3%nat]
  else if String.eqb idl "ABCD" then Some [1%nat; 2%nat; 3%nat; 4%nat]
  else None.

(** A scraper that delivers the same page body for every URL. *)
Definition scrape_body (body : string) (u : string)
  : Promise (Disk nat) (string * Content) :=
  resolve (u, Single body).

(** A disk with empty caches and [prior] stored at [idl.json]. *)
Definition disk_with_prior (prior : list (ParseRecord nat)) : Disk nat :=
  {| urlcache := ∅; idlcache := ∅;
     datasets := {["idl.json" := Json prior]} |}.

(** An empty disk. *)
Definition empty_disk : Disk nat :=
  {| urlcache := ∅; idlcache := ∅; datasets := ∅ |}.

(** ** Notions used to state further properties *)

(** Every character of the string passes the test. *)
Fixpoint all_chars (p : ascii → bool) (s : string) : bool :=
  match s with
  | EmptyString => true
  | String c s' => p c && all_chars p s'
  end.

(** A character of a cache file name: alphanumeric, or the underscore. *)
Definition name_char (c : ascii) : bool := is_alnum c || Ascii.eqb c "_"%char.

(** The URL that a scheme and a rest spell. *)
Definition scheme_url (s : Scheme) (rest : string) : string :=
  scheme_str s +:+ "://" +:+ rest.

(** A list of schemes that ends with [https] when it holds [https]. *)
Definition https_last (v : list Scheme) : Prop :=
  https ∈ v → last v = Some https.

(** Every stored list of schemes ends with [https] when it holds it. *)
Definition sorted_values (urlMap : list (string * list Scheme)) : Prop :=
  Forall (fun e => https_last e.2) urlMap.

(** The key, where it is stored, holds [https]. *)
Definition holds_https (k : string) (urlMap : list (string * list Scheme))
  : Prop :=
  ∀ v, obj_get k urlMap = Some v → https ∈ v.

(** The two cache files of a name are the same on two disks. *)
Definition same_files {Fragment} (name : string) (d1 d2 : Disk Fragment) : Prop :=
  urlcache d1 !! name = urlcache d2 !! name ∧
  idlcache d1 !! name = idlcache d2 !! name.

(** The cache files of a URL are such that a job of [importIDL] for it
    returns [record] and writes nothing: the body and a record are
    cached; or the body is cached and is not IDL; or nothing is cached
    and the request fails. *)
Definition job_at_rest {Fragment}
  (parseString : string → option (list Fragment))
  (request : string → Result string)
  (u : string) (record : ParseRecord Fragment) (disk : Disk Fragment) : Prop :=
  let name := getCacheFileName u in
  (∃ body, urlcache disk !! name = Some body ∧
           read_json (idlcache disk) name = Some record) ∨
  (∃ body, urlcache disk !! name = Some body ∧
           read_json (idlcache disk) name = None ∧
           parse_candidate parseString [] body = [] ∧
           record = {| url := u; parses := [] |}) ∨
  (urlcache disk !! name = None ∧
   (∃ err, request u = Throw err) ∧
   record = {| url := u; parses := [] |}).

(** The files that the stream handed over, in order. *)
Definition files_of {Fragment Chain} (events : list (Event Fragment Chain))
  : list string :=
  omap (fun e => match e with GlobData file => Some file | _ => None end) events.

(** ** The logger: the file name of a binding *)

(** [s.replace(/[^A-Za-z0-9]+/g, ' ')]: every maximal run of characters
    that are not alphanumeric becomes one space; [in_run] tells that the
    character before was of such a run. *)
Fixpoint replace_runs (in_run : bool) (s : string) : string :=
  match s with
  | EmptyString => EmptyString
  | String c s' =>
      if is_alnum c then String c (replace_runs false s')
      else if in_run then replace_runs true s'
      else String " "%char (replace_runs true s')
  end.

(** White space and line terminators, as [trim] removes them. *)
Definition is_white (c : ascii) : bool :=
  let n := N_of_ascii c in
  (((9 <=? n) && (n <=? 13)) || (n =? 32) || (n =? 160))%N.

Fixpoint trim_start (s : string) : string :=
  match s with
  | EmptyString => EmptyString
  | String c s' => if is_white c then trim_start s' else s
  end.

Fixpoint trim_end (s : string) : string :=
  match s with
  | EmptyString => EmptyString
  | String c s' =>
      match trim_end s' with
      | EmptyString => if is_white c then EmptyString else String c EmptyString
      | kept => String c kept
      end
  end.

(** [s.trim()] *)
Definition trim (s : string) : string := trim_end (trim_start s).

(** [s.replace(/ /g, '_')] *)
Fixpoint underscore_spaces (s : string) : string :=
  match s with
  | EmptyString => EmptyString
  | String c s' =>
      String (if Ascii.eqb c " "%char then "_"%char else c) (underscore_spaces s')
  end.

(** The file name that [onBinding] derives from [json], the text that
    [JSON.stringify(binding)] gives. *)
Definition onBinding_fileName (json : string) : string :=
  underscore_spaces (trim (replace_runs false json)).

(** The characters are alphanumeric or the separator, and no separator
    comes first, last or after another one; [after_sep] tells that a
    separator may not come next. *)
Fixpoint separated (sep : ascii) (after_sep : bool) (s : string) : bool :=
  match s with
  | EmptyString => negb after_sep
  | String c s' =>
      if is_alnum c then separated sep false s'
      else Ascii.eqb c sep && negb after_sep && separated sep true s'
  end.

(** The same without the condition on the last character. *)
Fixpoint spaced (after_space : bool) (s : string) : bool :=
  match s with
  | EmptyString => true
  | String c s' =>
      if is_alnum c then spaced false s'
      else Ascii.eqb c " "%char && negb after_space && spaced true s'
  end.

(** * Properties *)

(** ** The program on small inputs *)

Example getUniqueURLs_same_twice :
  getUniqueURLs ["http://a.com/x"; "http://a.com/x"] = Ok ["http://a.com/x"].
Proof. reflexivity. Qed.

Example getUniqueURLs_no_scheme :
  getUniqueURLs ["http://a.com/"; "ftp://a.com/"] = Throw AssertionError.
Proof. reflexivity. Qed.

Example getUniqueURLs_slash_chain :
  getUniqueURLs ["http://b/"; "http://b"; "http://b//"; "https://10"; "http://9"]
  = Ok ["http://9"; "https://10"; "http://b"; "http://b//"].
Proof. reflexivity. Qed.

Example getCacheFileName_url :
  getCacheFileName "https://a.com/x-1" = "https___a_com_x_1".
Proof. reflexivity. Qed.

Example parse_all_candidates :
  (parse letters_parser ("https://a.com/", Several ["AB"; "no"; "A"])
     empty_disk).1
  = Ok {| url := "https://a.com/"; parses := [1%nat; 2%nat; 1%nat] |}.
Proof. vm_compute. reflexivity. Qed.

Example align_unwraps :
  align 2 (Arr [Arr [Arr [Obj 1%nat]; Arr []]]) = Ok [Arr [Obj 1%nat]; Arr []].
Proof. reflexivity. Qed.

Example gather_two_urls :
  let r :=
    gather (init (Chain:=nat)) "a.idl"
      (Output ["https://a.org/"; "https://b.org/"]
         (Arr [Arr [Arr [Arr [Obj 1%nat]; Arr [Obj 2%nat]]; Arr []]])) in
  (urlsToFiles <$> (match r with Ok r' => Some r' | Throw _ => None end))
  = Some {["https://a.org/" := ["a.idl"]; "https://b.org/" := ["a.idl"]]} ∧
  (urlsToParses <$> (match r with Ok r' => Some r' | Throw _ => None end))
  = Some {["https://a.org/" := [Obj 1%nat; Obj 2%nat]; "https://b.org/" := []]}.
Proof. split; vm_compute; reflexivity. Qed.

(** ** Facts about arrays and dictionaries *)

Section ArrayFacts.
Context {A : Type}.
Implicit Types (l : list A) (cmp : A → A → Z).

Lemma sort_insert_perm cmp x l : sort_insert cmp x l ≡ₚ x :: l.
Proof.
  induction l as [|y l IH]; simpl; [done|].
  destruct (cmp x y <=? 0); [done|].
  rewrite IH. apply Permutation_swap.
Qed.

Lemma js_sort_perm cmp l : js_sort cmp l ≡ₚ l.
Proof.
  induction l as [|x l IH]; simpl; [done|].
  fold (js_sort cmp l). by rewrite sort_insert_perm, IH.
Qed.

Lemma js_sort_singleton cmp x : js_sort cmp [x] = [x].
Proof. reflexivity. Qed.

Lemma filter_split_perm (p : A → bool) l :
  List.filter p l ++ List.filter (fun x => negb (p x)) l ≡ₚ l.
Proof.
  induction l as [|x l IH]; simpl; [done|].
  destruct (p x); simpl.
  - by rewrite IH.
  - by rewrite <- Permutation_middle, IH.
Qed.

Lemma uniq_acc_prefix (eqb : A → A → bool) seen l :
  ∃ more, uniq_acc eqb seen l = seen ++ more.
Proof.
  revert seen. induction l as [|x l IH]; intros seen; simpl.
  - exists []. by rewrite app_nil_r.
  - destruct (existsb (eqb x) seen); [apply IH|].
    destruct (IH (seen ++ [x])) as [more ->].
    exists (x :: more). by rewrite <- app_assoc.
Qed.

Lemma uniq_nonempty (eqb : A → A → bool) l : l ≠ [] → uniq eqb l ≠ [].
Proof.
  destruct l as [|x l]; [done|]. intros _. unfold uniq. simpl.
  destruct (uniq_acc_prefix eqb [x] l) as [more ->]. done.
Qed.

Lemma js_sort_nonempty cmp l : l ≠ [] → js_sort cmp l ≠ [].
Proof.
  intros Hl Hs. apply Hl. apply Permutation_nil_r.
  rewrite <- Hs. by rewrite js_sort_perm.
Qed.
End ArrayFacts.

Lemma own_property_order_perm keys : own_property_order keys ≡ₚ keys.
Proof.
  unfold own_property_order. rewrite js_sort_perm. apply filter_split_perm.
Qed.

Lemma getOwnPropertyNames_perm {V} (o : list (string * V)) :
  getOwnPropertyNames o ≡ₚ o.*1.
Proof. apply own_property_order_perm. Qed.

Section ObjectFacts.
Context {V : Type}.
Implicit Types (o : list (string * V)) (k : string) (v : V).

Lemma obj_get_None k o : obj_get k o = None ↔ k ∉ o.*1.
Proof.
  induction o as [|[k' v'] o IH]; simpl.
  - split; [intros _; apply not_elem_of_nil | done].
  - destruct (String.eqb_spec k k') as [->|Hne].
    + split; [done|]. intros H. exfalso. apply H. left.
    + rewrite IH, not_elem_of_cons. tauto.
Qed.

Lemma obj_get_Some k v o : obj_get k o = Some v → (k, v) ∈ o.
Proof.
  induction o as [|[k' v'] o IH]; simpl; [done|].
  destruct (String.eqb_spec k k') as [->|Hne].
  - intros [= ->]. left.
  - intros H. right. by apply IH.
Qed.

Lemma obj_get_elem_of k o : k ∈ o.*1 → is_Some (obj_get k o).
Proof.
  intros Hk. destruct (obj_get k o) eqn:E; [by eexists|].
  by apply obj_get_None in E.
Qed.

Lemma obj_set_fresh k v o : k ∉ o.*1 → obj_set k v o = o ++ [(k, v)].
Proof.
  induction o as [|[k' v'] o IH]; simpl; [done|].
  rewrite not_elem_of_cons. intros [Hne Hk].
  destruct (String.eqb_spec k k') as [->|_]; [done|].
  by rewrite IH.
Qed.

Lemma obj_set_keys k v o : k ∈ o.*1 → (obj_set k v o).*1 = o.*1.
Proof.
  induction o as [|[k' v'] o IH]; simpl.
  - intros H. by apply elem_of_nil in H.
  - destruct (String.eqb_spec k k') as [->|Hne]; [done|].
    rewrite elem_of_cons. intros [?|Hk]; [done|].
    simpl. f_equal. by apply IH.
Qed.

Lemma obj_set_elem_of k v o e :
  e ∈ obj_set k v o → e = (k, v) ∨ e ∈ o.
Proof.
  induction o as [|[k' v'] o IH]; simpl.
  - rewrite list_elem_of_singleton. auto.
  - destruct (String.eqb_spec k k') as [->|Hne];
      rewrite !elem_of_cons; intuition.
Qed.

Lemma obj_get_set k v o : obj_get k (obj_set k v o) = Some v.
Proof.
  induction o as [|[k' v'] o IH]; simpl.
  - by rewrite String.eqb_refl.
  - destruct (String.eqb_spec k k') as [->|Hne]; simpl.
    + by rewrite String.eqb_refl.
    + by destruct (String.eqb_spec k k').
Qed.

Lemma obj_delete_elem_of k o e : e ∈ obj_delete k o → e ∈ o.
Proof.
  induction o as [|[k' v'] o IH]; simpl; [done|].
  destruct (String.eqb_spec k k') as [->|Hne].
  - by right.
  - rewrite !elem_of_cons. intuition.
Qed.

Lemma obj_delete_keys k o k' : k' ∈ (obj_delete k o).*1 → k' ∈ o.*1.
Proof.
  rewrite !list_elem_of_fmap. intros (e & -> & He).
  exists e. split; [done|]. by eapply obj_delete_elem_of.
Qed.

Lemma obj_delete_NoDup k o : NoDup o.*1 → NoDup (obj_delete k o).*1.
Proof.
  induction o as [|[k' v'] o IH]; simpl; [done|].
  rewrite NoDup_cons. intros [Hk' Hnd].
  destruct (String.eqb_spec k k') as [->|Hne]; [done|].
  simpl. apply NoDup_cons. split; [|by apply IH].
  intros H. by apply obj_delete_keys in H.
Qed.

Lemma obj_delete_gone k o : NoDup o.*1 → k ∉ (obj_delete k o).*1.
Proof.
  induction o as [|[k' v'] o IH]; simpl.
  - intros _. apply not_elem_of_nil.
  - rewrite NoDup_cons. intros [Hk' Hnd].
    destruct (String.eqb_spec k k') as [->|Hne]; [done|].
    simpl. rewrite not_elem_of_cons. split; [done|]. by apply IH.
Qed.

Lemma obj_set_NoDup k v o : NoDup o.*1 → NoDup (obj_set k v o).*1.
Proof.
  intros Hnd. destruct (decide (k ∈ o.*1)) as [Hk|Hk].
  - by rewrite obj_set_keys.
  - rewrite obj_set_fresh by done. rewrite fmap_app. simpl.
    apply NoDup_app. split_and!; [done| |apply NoDup_singleton].
    intros x Hx. rewrite list_elem_of_singleton. by intros ->.
Qed.

Lemma obj_set_keys_elem_of k v o k' :
  k' ∈ (obj_set k v o).*1 → k' = k ∨ k' ∈ o.*1.
Proof.
  rewrite !list_elem_of_fmap. intros (e & -> & He).
  apply obj_set_elem_of in He as [->|He]; [by left|].
  right. by exists e.
Qed.
End ObjectFacts.

(** ** Facts about [getUniqueURLs] *)

Lemma append_cons c s t : String c s +:+ t = String c (s +:+ t).
Proof. reflexivity. Qed.

Lemma append_slash_ne r : r +:+ "/" ≠ r.
Proof.
  induction r as [|c r IH]; simpl; [done|].
  intros [= H]. by apply IH.
Qed.

Lemma dot_star_slash r : dot_star (r +:+ "/") = dot_star r.
Proof.
  induction r as [|c r IH]; simpl; [done|]. by rewrite IH.
Qed.

Lemma digits_value_slash acc r : digits_value acc (r +:+ "/") = None.
Proof.
  revert acc. induction r as [|c r IH]; intros acc; simpl; [done|].
  destruct (is_digit c); [apply IH | done].
Qed.

Lemma is_array_index_slash r : is_array_index (r +:+ "/") = false.
Proof.
  unfold is_array_index, array_index.
  destruct (r +:+ "/") eqn:E; [done|].
  rewrite <- E, digits_value_slash. by destruct (_ && _).
Qed.

Lemma url_match_canonical s r :
  dot_star r = true → url_match (scheme_str s +:+ "://" +:+ r) = Some (s, r).
Proof.
  intros Hr. destruct s; cbv [scheme_str String.append url_match]; by rewrite Hr.
Qed.

Lemma url_match_Some u s r :
  url_match u = Some (s, r) →
  dot_star r = true ∧ u = scheme_str s +:+ "://" +:+ r.
Proof.
  unfold url_match. intros H.
  repeat match type of H with
         | (if dot_star ?x then _ else _) = _ =>
             destruct (dot_star x) eqn:?; try discriminate H
         | match ?x with _ => _ end = _ => destruct x; try discriminate H
         end;
    injection H as <- <-; auto.
Qed.

Lemma obj_set_ok k v urlMap :
  map_ok urlMap → entry_ok (k, v) → map_ok (obj_set k v urlMap).
Proof.
  intros [Hnd Hall] Hkv. split; [by apply obj_set_NoDup|].
  rewrite Forall_forall in *. intros e He.
  apply obj_set_elem_of in He as [->|He]; auto.
Qed.

Lemma obj_delete_ok k urlMap : map_ok urlMap → map_ok (obj_delete k urlMap).
Proof.
  intros [Hnd Hall]. split; [by apply obj_delete_NoDup|].
  rewrite Forall_forall in *. intros e He.
  apply Hall. by eapply obj_delete_elem_of.
Qed.

Lemma obj_get_Some_key {V} k (v : V) o : obj_get k o = Some v → k ∈ o.*1.
Proof.
  intros H. apply obj_get_Some in H.
  by apply (list_elem_of_fmap_2 fst) in H.
Qed.

Lemma obj_set_set {V} k (v w : V) o : obj_set k v (obj_set k w o) = obj_set k v o.
Proof.
  induction o as [|[k' v'] o IH]; simpl.
  - by rewrite String.eqb_refl.
  - destruct (String.eqb_spec k k') as [->|Hne]; simpl.
    + by rewrite String.eqb_refl.
    + destruct (String.eqb_spec k k'); [done|]. by rewrite IH.
Qed.

Lemma all_chars_app p a b :
  all_chars p (a +:+ b) = all_chars p a && all_chars p b.
Proof.
  induction a as [|c a IH]; [done|].
  rewrite append_cons. simpl. by rewrite IH, andb_assoc.
Qed.

(** An inherited name is one of the twelve: it holds letters and
    underscores only. *)
Lemma inherited_chars k :
  inherited k = true → all_chars name_char k = true ∧ dot_star k = true.
Proof.
  unfold inherited. intros H. apply existsb_exists in H as (name & Hin & Heq).
  apply String.eqb_eq in Heq as <-. simpl in Hin.
  repeat (destruct Hin as [<-|Hin]; [by split|]). done.
Qed.

Lemma inherited_slash r : inherited (r +:+ "/") = false.
Proof.
  destruct (inherited (r +:+ "/")) eqn:H; [|done].
  apply inherited_chars in H as [H _].
  rewrite all_chars_app in H. simpl in H. by rewrite andb_false_r in H.
Qed.

Lemma plain_well_formed url : plain url → well_formed url.
Proof. intros (scheme & key & Hm & _). unfold well_formed. by rewrite Hm. Qed.

(** What one turn of the first loop does. *)
Lemma record_scheme_cases urlMap url :
  record_scheme urlMap url =
    match url_match url with
    | None => Throw AssertionError
    | Some (scheme, key) =>
        match obj_get key urlMap with
        | Some seen =>
            Ok (match filter0 (fun s => scheme_eqb s scheme) seen with
                | Some _ => obj_set key seen urlMap
                | None =>
                    obj_set key (js_sort scheme_cmp (seen ++ [scheme])) urlMap
                end)
        | None =>
            if inherited key then Throw TypeError
            else Ok (obj_set key [scheme] urlMap)
        end
    end.
Proof.
  unfold record_scheme. destruct (url_match url) as [[scheme key]|]; [|done].
  destruct (obj_get key urlMap) as [seen|]; simpl.
  - destruct (filter0 _ seen); [done|]. by rewrite obj_set_set.
  - destruct (inherited key); [done|]. simpl. by rewrite obj_set_set.
Qed.

(** What one turn of the first loop stores for a key that is no
    inherited name. *)
Lemma record_scheme_eq urlMap url scheme key :
  url_match url = Some (scheme, key) → inherited key = false →
  record_scheme urlMap url =
    Ok (match obj_get key urlMap with
        | Some seen =>
            match filter0 (fun s => scheme_eqb s scheme) seen with
            | Some _ => obj_set key seen urlMap
            | None => obj_set key (js_sort scheme_cmp (seen ++ [scheme])) urlMap
            end
        | None => obj_set key [scheme] urlMap
        end).
Proof.
  intros Hm Hi. rewrite record_scheme_cases, Hm, Hi.
  by destruct (obj_get key urlMap).
Qed.

(** What a turn that returns has stored. *)
Lemma record_scheme_Ok_eq urlMap url scheme key urlMap' :
  url_match url = Some (scheme, key) →
  record_scheme urlMap url = Ok urlMap' →
  urlMap' =
    match obj_get key urlMap with
    | Some seen =>
        match filter0 (fun s => scheme_eqb s scheme) seen with
        | Some _ => obj_set key seen urlMap
        | None => obj_set key (js_sort scheme_cmp (seen ++ [scheme])) urlMap
        end
    | None => obj_set key [scheme] urlMap
    end.
Proof.
  intros Hm. rewrite record_scheme_cases, Hm.
  destruct (obj_get key urlMap) as [seen|]; [by intros [= <-]|].
  destruct (inherited key); [done|]. by intros [= <-].
Qed.

(** A turn that returns was the turn of a plain URL. *)
Lemma record_scheme_plain urlMap url urlMap' :
  map_ok urlMap → record_scheme urlMap url = Ok urlMap' →
  ∃ scheme key, url_match url = Some (scheme, key) ∧ inherited key = false.
Proof.
  intros [_ Hall]. rewrite record_scheme_cases.
  destruct (url_match url) as [[scheme key]|]; [|done].
  intros H. exists scheme, key. split; [done|].
  destruct (obj_get key urlMap) as [seen|] eqn:Hget.
  - rewrite Forall_forall in Hall.
    by destruct (Hall _ (obj_get_Some _ _ _ Hget)) as (_ & _ & Hi).
  - by destruct (inherited key).
Qed.

Lemma record_scheme_ok urlMap url urlMap' :
  map_ok urlMap → record_scheme urlMap url = Ok urlMap' → map_ok urlMap'.
Proof.
  intros Hok H.
  destruct (record_scheme_plain _ _ _ Hok H) as (scheme & key & Hm & Hi).
  rewrite (record_scheme_eq _ _ _ _ Hm Hi) in H. injection H as <-.
  apply url_match_Some in Hm as [Hkey _].
  destruct (obj_get key urlMap) as [seen|] eqn:Hget.
  - assert (Hseen : entry_ok (key, seen)).
    { destruct Hok as [_ Hall]. rewrite Forall_forall in Hall.
      by apply Hall, obj_get_Some. }
    destruct (filter0 _ seen); apply obj_set_ok; try done.
    split_and!; [done| |done]. apply js_sort_nonempty. by destruct seen.
  - by apply obj_set_ok.
Qed.

Lemma forEach_record_scheme_ok urls urlMap urlMap' :
  map_ok urlMap →
  forEach_throwing record_scheme urls urlMap = Ok urlMap' → map_ok urlMap'.
Proof.
  revert urlMap. induction urls as [|url urls IH]; intros urlMap Hok; simpl.
  - by intros [= <-].
  - destruct (record_scheme urlMap url) as [m1|e] eqn:H1; [|done].
    apply IH. by eapply record_scheme_ok.
Qed.

Lemma forEach_record_scheme_total urls urlMap :
  Forall plain urls →
  ∃ urlMap', forEach_throwing record_scheme urls urlMap = Ok urlMap'.
Proof.
  intros Hwf. revert urlMap.
  induction Hwf as [|url urls (scheme & key & Hm & Hi) _ IH]; intros urlMap;
    simpl.
  - by eexists.
  - rewrite (record_scheme_eq _ _ _ _ Hm Hi). apply IH.
Qed.

Lemma merge_slash_ok urlMap url : map_ok urlMap → map_ok (merge_slash urlMap url).
Proof.
  intros Hok. unfold merge_slash.
  destruct (obj_get (url +:+ "/") urlMap) as [withSlash|] eqn:Hget; [|done].
  apply obj_delete_ok, obj_set_ok; [done|].
  assert (Hs : entry_ok (url +:+ "/", withSlash)).
  { destruct Hok as [_ Hall]. rewrite Forall_forall in Hall.
    by apply Hall, obj_get_Some. }
  destruct Hs as (Hd & Hne & Hi). split_and!; [done| |done]. simpl in *.
  apply js_sort_nonempty, uniq_nonempty. by destruct withSlash.
Qed.

Lemma merge_slash_keys urlMap url k :
  k ∈ (merge_slash urlMap url).*1 → k ∈ urlMap.*1.
Proof.
  unfold merge_slash.
  destruct (obj_get (url +:+ "/") urlMap) as [withSlash|] eqn:Hget; [|done].
  intros Hk. apply obj_delete_keys in Hk.
  rewrite obj_set_keys in Hk; [done|]. by eapply obj_get_Some_key.
Qed.

Lemma merge_slash_drops urlMap url :
  NoDup urlMap.*1 → url +:+ "/" ∈ urlMap.*1 →
  url ∉ (merge_slash urlMap url).*1.
Proof.
  intros Hnd Hs. unfold merge_slash.
  destruct (obj_get_elem_of _ _ Hs) as [withSlash ->].
  by apply obj_delete_gone, obj_set_NoDup.
Qed.

Lemma merge_slash_id urlMap url :
  url +:+ "/" ∉ urlMap.*1 → merge_slash urlMap url = urlMap.
Proof.
  intros Hs. unfold merge_slash. apply obj_get_None in Hs. by rewrite Hs.
Qed.

Lemma fold_merge_slash_ok names urlMap :
  map_ok urlMap → map_ok (fold_left merge_slash names urlMap).
Proof.
  revert urlMap. induction names as [|n names IH]; intros urlMap Hok; simpl;
    [done|]. by apply IH, merge_slash_ok.
Qed.

Lemma fold_merge_slash_keys names urlMap k :
  k ∈ (fold_left merge_slash names urlMap).*1 → k ∈ urlMap.*1.
Proof.
  revert urlMap. induction names as [|n names IH]; intros urlMap; simpl;
    [done|]. intros Hk. by eapply merge_slash_keys, IH.
Qed.

(** After the merging loop no name that had its turn is left together
    with its slash-terminated form. *)
Lemma fold_merge_slash_no_pair names urlMap k :
  map_ok urlMap → k ∈ names →
  k ∈ (fold_left merge_slash names urlMap).*1 →
  k +:+ "/" ∉ (fold_left merge_slash names urlMap).*1.
Proof.
  revert urlMap. induction names as [|n names IH]; intros urlMap Hok; simpl.
  - intros H. by apply elem_of_nil in H.
  - rewrite elem_of_cons. intros Hin Hk Hks.
    destruct (decide (n +:+ "/" ∈ urlMap.*1)) as [Hn|Hn].
    + destruct Hin as [->|Hin].
      * apply fold_merge_slash_keys in Hk.
        by apply (merge_slash_drops urlMap n) in Hk; [|apply Hok|].
      * by eapply (IH (merge_slash urlMap n)); [apply merge_slash_ok| | |].
    + rewrite merge_slash_id in * by done.
      destruct Hin as [->|Hin].
      * by apply fold_merge_slash_keys in Hks.
      * by eapply (IH urlMap).
Qed.

Lemma fold_merge_slash_stable names urlMap :
  (∀ k, k ∈ names → k +:+ "/" ∉ urlMap.*1) →
  fold_left merge_slash names urlMap = urlMap.
Proof.
  induction names as [|n names IH]; intros H; simpl; [done|].
  rewrite merge_slash_id by (apply H; left).
  apply IH. intros k Hk. apply H. by right.
Qed.

Lemma render_inj s k k' :
  dot_star k = true → dot_star k' = true → render s k = render s k' → k = k'.
Proof.
  intros Hk Hk' Heq.
  pose proof (url_match_canonical (s k) k Hk) as H1.
  pose proof (url_match_canonical (s k') k' Hk') as H2.
  unfold render in Heq. rewrite Heq, H2 in H1. by injection H1.
Qed.

Lemma obj_get_fmap {V} (f : string → V) ks k :
  k ∈ ks → obj_get k ((fun k => (k, f k)) <$> ks) = Some (f k).
Proof.
  induction ks as [|k' ks IH]; simpl.
  - intros H. by apply elem_of_nil in H.
  - rewrite elem_of_cons. intros Hk.
    destruct (String.eqb_spec k k') as [->|Hne]; [done|].
    apply IH. by destruct Hk.
Qed.

(** Recording canonical URLs of distinct keys appends one single-scheme
    entry per URL. *)
Lemma forEach_record_scheme_fresh s ks urlMap :
  NoDup (urlMap.*1 ++ ks) →
  Forall (fun k => dot_star k = true ∧ inherited k = false) ks →
  forEach_throwing record_scheme (render s <$> ks) urlMap
  = Ok (urlMap ++ ((fun k => (k, [s k])) <$> ks)).
Proof.
  revert urlMap. induction ks as [|k ks IH]; intros urlMap Hnd Hks; simpl.
  - by rewrite app_nil_r.
  - apply Forall_cons in Hks as [[Hk Hi] Hks].
    rewrite (record_scheme_eq _ _ (s k) k);
      [|by apply url_match_canonical|done].
    assert (Hfresh : k ∉ urlMap.*1).
    { apply NoDup_app in Hnd as (_ & Hdisj & _).
      intros Hin. apply (Hdisj _ Hin). left. }
    pose proof Hfresh as Hget. apply obj_get_None in Hget. rewrite Hget.
    rewrite obj_set_fresh by done.
    rewrite IH; [by rewrite <- app_assoc| |done].
    rewrite fmap_app, <- app_assoc. done.
Qed.

Lemma canonical_url_render urlMap k :
  map_ok urlMap → k ∈ urlMap.*1 →
  canonical_url urlMap k
  = render (fun k => default http (last (default [] (obj_get k urlMap)))) k.
Proof.
  intros [_ Hall] Hk. unfold canonical_url, render.
  destruct (obj_get_elem_of _ _ Hk) as [v Hv]. rewrite Hv. simpl.
  rewrite Forall_forall in Hall.
  destruct (Hall _ (obj_get_Some _ _ _ Hv)) as (_ & Hne & _). simpl in Hne.
  destruct (last v) eqn:Hl; [done|].
  apply last_None in Hl. done.
Qed.

(** The dictionary [getUniqueURLs] ends with, and what it returns. *)
Lemma getUniqueURLs_inv urls :
  Forall plain urls →
  ∃ urlMap,
    map_ok urlMap ∧
    (∀ k, k ∈ urlMap.*1 → k +:+ "/" ∉ urlMap.*1) ∧
    getUniqueURLs urls = Ok (canonical_url urlMap <$> getOwnPropertyNames urlMap).
Proof.
  intros Hwf. unfold getUniqueURLs.
  destruct (forEach_record_scheme_total urls [] Hwf) as [m1 H1]. rewrite H1.
  assert (Hok1 : map_ok m1).
  { eapply forEach_record_scheme_ok; [|done]. split; [constructor|done]. }
  eexists. split_and!; [by apply fold_merge_slash_ok| |done].
  intros k Hk. apply fold_merge_slash_no_pair; [done| |done].
  rewrite getOwnPropertyNames_perm. by eapply fold_merge_slash_keys.
Qed.

Lemma canonical_urls_render urlMap :
  map_ok urlMap →
  canonical_url urlMap <$> getOwnPropertyNames urlMap
  = render (fun k => default http (last (default [] (obj_get k urlMap))))
      <$> getOwnPropertyNames urlMap.
Proof.
  intros Hok. apply Forall_fmap_ext_1, Forall_forall. intros k Hk.
  apply canonical_url_render; [done|]. by rewrite <- getOwnPropertyNames_perm.
Qed.

Lemma own_names_dot_star urlMap :
  map_ok urlMap →
  Forall (fun k => dot_star k = true) (getOwnPropertyNames urlMap).
Proof.
  intros [_ Hall]. rewrite getOwnPropertyNames_perm.
  rewrite Forall_forall in Hall. apply Forall_forall. intros k Hk.
  apply list_elem_of_fmap in Hk as (e & -> & He). by apply Hall.
Qed.

Lemma own_names_plain urlMap :
  map_ok urlMap →
  Forall (fun k => dot_star k = true ∧ inherited k = false)
    (getOwnPropertyNames urlMap).
Proof.
  intros [_ Hall]. rewrite getOwnPropertyNames_perm.
  rewrite Forall_forall in Hall. apply Forall_forall. intros k Hk.
  apply list_elem_of_fmap in Hk as (e & -> & He).
  by destruct (Hall _ He) as (? & _ & ?).
Qed.

Lemma canonical_urls_NoDup urlMap :
  map_ok urlMap → NoDup (canonical_url urlMap <$> getOwnPropertyNames urlMap).
Proof.
  intros Hok. rewrite canonical_urls_render by done.
  pose proof (own_names_dot_star urlMap Hok) as Hdot.
  rewrite Forall_forall in Hdot.
  apply NoDup_fmap_2_strong.
  - intros k k' Hk Hk'. apply render_inj; auto.
  - rewrite getOwnPropertyNames_perm. apply Hok.
Qed.

Lemma map_ok_nil : map_ok [].
Proof. split; [constructor|done]. Qed.

Lemma forEach_record_scheme_wf urls urlMap urlMap' :
  map_ok urlMap →
  forEach_throwing record_scheme urls urlMap = Ok urlMap' →
  Forall plain urls.
Proof.
  revert urlMap. induction urls as [|url urls IH]; intros urlMap Hok; simpl;
    [done|].
  destruct (record_scheme urlMap url) as [m1|e] eqn:H1; [|done].
  intros H. constructor.
  - by eapply record_scheme_plain.
  - eapply IH; [|done]. by eapply record_scheme_ok.
Qed.

Lemma getUniqueURLs_plain urls out :
  getUniqueURLs urls = Ok out → Forall plain urls.
Proof.
  unfold getUniqueURLs. intros H.
  destruct (forEach_throwing record_scheme urls []) eqn:H1; [|done].
  eapply forEach_record_scheme_wf; [apply map_ok_nil|done].
Qed.

Lemma getUniqueURLs_NoDup urls out : getUniqueURLs urls = Ok out → NoDup out.
Proof.
  intros H. assert (Hwf : Forall plain urls) by by eapply getUniqueURLs_plain.
  destruct (getUniqueURLs_inv urls Hwf) as (m & Hok & _ & Heq).
  rewrite Heq in H. injection H as <-. by apply canonical_urls_NoDup.
Qed.

(** X21. On plain raw URLs, which match the scheme pattern with a rest
    that is no inherited name, [getUniqueURLs] returns a list without
    duplicates, and applied to that list it returns the same URLs again
    (as a set: a rearrangement of the list). *)
Theorem getUniqueURLs_idempotent urls :
  Forall plain urls →
  ∃ out out',
    getUniqueURLs urls = Ok out ∧ NoDup out ∧
    getUniqueURLs out = Ok out' ∧ out' ≡ₚ out.
Proof.
  intros Hwf. destruct (getUniqueURLs_inv urls Hwf) as (m & Hok & Hpair & ->).
  set (s := fun k => default http (last (default [] (obj_get k m)))).
  set (names := getOwnPropertyNames m).
  assert (Hnames : names ≡ₚ m.*1) by apply getOwnPropertyNames_perm.
  assert (Hdot : Forall (fun k => dot_star k = true) names)
    by by apply own_names_dot_star.
  assert (Hnd : NoDup names) by (rewrite Hnames; apply Hok).
  pose proof (canonical_urls_NoDup m Hok) as Hndout.
  rewrite canonical_urls_render in * by done. fold s names in Hndout |- *.
  set (m' := (fun k => (k, [s k])) <$> names).
  assert (Hkeys' : m'.*1 = names).
  { unfold m'. rewrite <- list_fmap_compose. apply list_fmap_id. }
  assert (Hnames' : getOwnPropertyNames m' ≡ₚ names).
  { by rewrite getOwnPropertyNames_perm, Hkeys'. }
  exists (render s <$> names), (render s <$> getOwnPropertyNames m').
  split_and!; [done|done| |by rewrite Hnames'].
  unfold getUniqueURLs.
  rewrite (forEach_record_scheme_fresh s names []); simpl;
    [|done|by apply own_names_plain].
  fold m'. rewrite fold_merge_slash_stable.
  - f_equal. apply Forall_fmap_ext_1, Forall_forall. intros k Hk.
    unfold canonical_url, render, m'. rewrite obj_get_fmap; [done|].
    by rewrite <- Hnames'.
  - intros k Hk. rewrite Hkeys', Hnames. apply Hpair.
    by rewrite <- Hnames, <- Hnames'.
Qed.

Lemma eqb_slash_l r : String.eqb (r +:+ "/") r = false.
Proof. apply String.eqb_neq, append_slash_ne. Qed.

Lemma eqb_slash_r r : String.eqb r (r +:+ "/") = false.
Proof. rewrite String.eqb_sym. apply eqb_slash_l. Qed.

Lemma eqb_slash2_l r : String.eqb ((r +:+ "/") +:+ "/") r = false.
Proof.
  apply String.eqb_neq. induction r as [|c r IH]; simpl; [done|].
  intros [= H]. by apply IH.
Qed.

Lemma getUniqueURLs_pair s1 s2 b1 b2 rest :
  dot_star rest = true →
  inherited (with_slash b1 rest) = false →
  inherited (with_slash b2 rest) = false →
  getUniqueURLs [scheme_str s1 +:+ "://" +:+ with_slash b1 rest;
                 scheme_str s2 +:+ "://" +:+ with_slash b2 rest]
  = Ok [scheme_str (preferred s1 s2) +:+ "://" +:+ with_slash (b1 || b2) rest].
Proof.
  intros Hrest Hi1 Hi2.
  assert (Hslash : dot_star (rest +:+ "/") = true) by by rewrite dot_star_slash.
  unfold getUniqueURLs, forEach_throwing.
  rewrite (record_scheme_eq _ _ s1 (with_slash b1 rest));
    [|apply url_match_canonical; by destruct b1|done].
  rewrite (record_scheme_eq _ _ s2 (with_slash b2 rest));
    [|apply url_match_canonical; by destruct b2|done].
  unfold getOwnPropertyNames, own_property_order.
  destruct (is_array_index rest) eqn:Hidx, b1, b2, s1, s2; simpl.
  all: repeat first
         [ progress rewrite ?String.eqb_refl, ?eqb_slash_l, ?eqb_slash_r,
             ?eqb_slash2_l, ?is_array_index_slash, ?Hidx
         | progress simpl
         | progress unfold merge_slash, canonical_url ].
  all: done.
Qed.

(** ** The order of strings and sorted arrays *)

Lemma string_leb_trans a b c :
  String.leb a b = true → String.leb b c = true → String.leb a c = true.
Proof.
  unfold String.leb. revert b c.
  induction a as [|x a IH]; intros [|y b] [|z c]; simpl; try done.
  unfold Ascii.compare.
  destruct (N.compare_spec (N_of_ascii x) (N_of_ascii y)),
    (N.compare_spec (N_of_ascii y) (N_of_ascii z)),
    (N.compare_spec (N_of_ascii x) (N_of_ascii z));
    try done; try lia.
  apply IH.
Qed.

Lemma string_cmp_le a b : (string_cmp a b <=? 0) = String.leb a b.
Proof.
  unfold string_cmp, String.ltb, String.leb.
  rewrite (String.compare_antisym b a). by destruct (String.compare a b).
Qed.

Lemma string_leb_false a b : String.leb a b = false → String.leb b a = true.
Proof. intros H. by destruct (String.leb_total a b) as [H'|H']; [congruence|]. Qed.

Section SortFacts.
Context {A : Type} (R : A → A → Prop) (cmp : A → A → Z).
Hypothesis cmp_le : ∀ x y, (cmp x y <=? 0) = true → R x y.
Hypothesis cmp_gt : ∀ x y, (cmp x y <=? 0) = false → R y x.
Hypothesis R_trans : ∀ x y z, R x y → R y z → R x z.

Lemma sort_insert_sorted x l :
  StronglySorted R l → StronglySorted R (sort_insert cmp x l).
Proof.
  induction 1 as [|y l Hs IH Hy]; simpl.
  - repeat constructor.
  - destruct (cmp x y <=? 0) eqn:Hc.
    + constructor; [by constructor|].
      constructor; [by apply cmp_le|].
      eapply Forall_impl; [apply Hy|]. intros z. apply R_trans. by apply cmp_le.
    + constructor; [done|].
      rewrite sort_insert_perm. constructor; [by apply cmp_gt|done].
Qed.

Lemma js_sort_sorted l : StronglySorted R (js_sort cmp l).
Proof.
  induction l as [|x l IH]; simpl; [constructor|].
  by apply sort_insert_sorted.
Qed.
End SortFacts.

(** ** Facts about [parse] and the batches *)

Lemma uniq_acc_NoDup seen l :
  NoDup seen → NoDup (uniq_acc String.eqb seen l).
Proof.
  revert seen. induction l as [|x l IH]; intros seen Hnd; simpl; [done|].
  destruct (existsb (String.eqb x) seen) eqn:Hex; [by apply IH|].
  apply IH, NoDup_app. split_and!; [done| |apply NoDup_singleton].
  intros y Hy. rewrite list_elem_of_singleton. intros ->.
  assert (existsb (String.eqb x) seen = true); [|congruence].
  apply existsb_exists. exists x. split; [by apply list_elem_of_In|].
  apply String.eqb_refl.
Qed.

Lemma uniq_acc_elem_of {A} (eqb : A → A → bool) seen l x :
  x ∈ uniq_acc eqb seen l → x ∈ seen ∨ x ∈ l.
Proof.
  revert seen. induction l as [|y l IH]; intros seen; simpl; [by left|].
  destruct (existsb (eqb y) seen).
  - intros H. destruct (IH _ H); [by left|right; by right].
  - intros H. destruct (IH _ H) as [H'|H']; [|right; by right].
    apply elem_of_app in H' as [H'|H']; [by left|].
    apply list_elem_of_singleton in H' as ->. right. left.
Qed.

Lemma sorted_uniq_spec urls :
  let sorted := js_sort string_cmp (uniq String.eqb urls) in
  NoDup sorted ∧
  StronglySorted (fun a b => String.leb a b = true) sorted ∧
  ∀ u, u ∈ sorted → u ∈ urls.
Proof.
  intros sorted. split_and!.
  - unfold sorted. rewrite js_sort_perm. apply uniq_acc_NoDup. constructor.
  - apply js_sort_sorted.
    + intros x y. by rewrite string_cmp_le.
    + intros x y. rewrite string_cmp_le. apply string_leb_false.
    + intros x y z. apply string_leb_trans.
  - intros u. unfold sorted. rewrite js_sort_perm. intros Hu.
    apply uniq_acc_elem_of in Hu as [Hu|Hu]; [|done].
    by apply elem_of_nil in Hu.
Qed.

Lemma uniq_acc_keeps seen l x :
  x ∈ seen ∨ x ∈ l → x ∈ uniq_acc String.eqb seen l.
Proof.
  revert seen. induction l as [|y l IH]; intros seen; simpl.
  - intros [?|H]; [done|by apply elem_of_nil in H].
  - intros H. destruct (existsb (String.eqb y) seen) eqn:Hex.
    + apply IH. destruct H as [?|H]; [by left|].
      apply elem_of_cons in H as [->|H]; [|by right].
      left. apply existsb_exists in Hex as (z & Hz & Heq).
      apply String.eqb_eq in Heq as ->. by apply list_elem_of_In.
    + apply IH. destruct H as [?|H]; [left; apply elem_of_app; by left|].
      apply elem_of_cons in H as [->|H]; [|by right].
      left. apply elem_of_app. right. left.
Qed.

Lemma sorted_uniq_elem_of urls u :
  u ∈ js_sort string_cmp (uniq String.eqb urls) ↔ u ∈ urls.
Proof.
  rewrite js_sort_perm. split.
  - intros Hu. apply uniq_acc_elem_of in Hu as [Hu|Hu]; [|done].
    by apply elem_of_nil in Hu.
  - intros Hu. apply uniq_acc_keeps. by right.
Qed.

Section ImporterFacts.
Context {Fragment : Type}.
Variable parseString : string → option (list Fragment).

Abbreviation Datum := (ParseRecord Fragment).
Abbreviation P := (Promise (Disk Fragment)).

Lemma parse_candidates_app data (acc : list Fragment) :
  fold_left (parse_candidate parseString) data acc
  = acc ++ fold_left (parse_candidate parseString) data [].
Proof.
  revert acc. induction data as [|idl data IH]; intros acc; simpl.
  - by rewrite app_nil_r.
  - rewrite IH, (IH (parse_candidate _ [] idl)).
    unfold parse_candidate. destruct (parseString idl); simpl; [|done].
    by rewrite app_assoc.
Qed.

Lemma parse_candidates_some data :
  Exists (fun idl => ∃ f fs, parseString idl = Some (f :: fs)) data →
  fold_left (parse_candidate parseString) data [] ≠ [].
Proof.
  induction 1 as [idl data (f & fs & Hp)|idl data _ IH]; simpl;
    rewrite parse_candidates_app.
  - unfold parse_candidate. rewrite Hp. done.
  - intros H. apply app_eq_nil in H as [_ H]. by apply IH.
Qed.

Lemma parse_candidates_none data :
  Forall (fun idl => parseString idl = None ∨ parseString idl = Some []) data →
  fold_left (parse_candidate parseString) data [] = [].
Proof.
  induction 1 as [|idl data Hp _ IH]; simpl; [done|].
  rewrite parse_candidates_app, IH, app_nil_r.
  unfold parse_candidate. by destruct Hp as [-> | ->].
Qed.

(** [parse] when the parse-record cache has nothing readable for the
    URL. *)
Lemma parse_miss u data disk :
  read_json (idlcache disk) (getCacheFileName u) = None →
  parse parseString (u, data) disk
  = let parses := fold_left (parse_candidate parseString) (as_array data) [] in
    match parses with
    | [] => (Throw (NoDataError u), disk)
    | _ :: _ =>
        let record := {| url := u; parses := parses |} in
        (Ok record,
         {| urlcache := urlcache disk;
            idlcache := <[getCacheFileName u := Json record]> (idlcache disk);
            datasets := datasets disk |})
    end.
Proof.
  intros Hmiss. unfold parse. rewrite Hmiss. simpl.
  by destruct (fold_left _ _ _).
Qed.

(** [parse] when the cache holds a record for the URL: the record is
    returned as it is, and nothing is parsed or written. *)
Lemma parse_hit u data disk cached :
  read_json (idlcache disk) (getCacheFileName u) = Some cached →
  parse parseString (u, data) disk = (Ok cached, disk).
Proof. intros Hhit. unfold parse. by rewrite Hhit. Qed.

(** C4, amended.  When the parse-record cache holds no readable record
    for the URL: if some candidate yields fragments, [parse] returns the
    record of the URL with all the fragments, at least one, and stores it
    in the parse-record cache; if no candidate yields a fragment, it
    throws the no-data error for the URL and stores nothing. *)
Theorem parse_on_cache_miss u data disk :
  read_json (idlcache disk) (getCacheFileName u) = None →
  let parses := fold_left (parse_candidate parseString) (as_array data) [] in
  (Exists (fun idl => ∃ f fs, parseString idl = Some (f :: fs)) (as_array data) →
   (1 ≤ length parses)%nat ∧
   parse parseString (u, data) disk
   = (Ok {| url := u; parses := parses |},
      {| urlcache := urlcache disk;
         idlcache :=
           <[getCacheFileName u := Json {| url := u; parses := parses |}]>
             (idlcache disk);
         datasets := datasets disk |})) ∧
  (Forall (fun idl => parseString idl = None ∨ parseString idl = Some [])
     (as_array data) →
   parse parseString (u, data) disk = (Throw (NoDataError u), disk)).
Proof.
  intros Hmiss parses. rewrite (parse_miss _ _ _ Hmiss). fold parses. split.
  - intros Hsome. apply parse_candidates_some in Hsome. fold parses in Hsome.
    destruct parses; [done|]. split; [simpl; lia | done].
  - intros Hnone. apply parse_candidates_none in Hnone. fold parses in Hnone.
    by rewrite Hnone.
Qed.


Lemma job_eq fetch u disk :
  job parseString fetch u disk
  = match then_ (fetch u) (parse parseString) disk with
    | (Ok record, disk1) => (Ok record, disk1)
    | (Throw err, disk1) => (Ok {| url := u; parses := [] |}, disk1)
    end.
Proof. reflexivity. Qed.

Lemma Promise_all_cons {S A} (p : Promise S A) ps s :
  Promise_all (p :: ps) s
  = match p s with
    | (Ok v, s1) =>
        match Promise_all ps s1 with
        | (Ok vs, s2) => (Ok (v :: vs), s2)
        | (Throw e, s2) => (Throw e, s2)
        end
    | (Throw e, s1) => (Throw e, (Promise_all ps s1).2)
    end.
Proof.
  simpl. destruct (p s) as [[v|e] s1]; destruct (Promise_all ps s1) as [[vs|e'] s2];
    reflexivity.
Qed.

(** A batch of caught jobs always resolves. *)
Lemma batch_settles fetch urls disk :
  ∃ data disk',
    Promise_all (job parseString fetch <$> urls) disk = (Ok data, disk') ∧
    settles (fun u => then_ (fetch u) (parse parseString)) urls disk data disk'.
Proof.
  revert disk. induction urls as [|u urls IH]; intros disk.
  - exists [], disk. split; [done|constructor].
  - rewrite fmap_cons, Promise_all_cons, job_eq.
    destruct (then_ (fetch u) (parse parseString) disk)
      as [[record|err] disk1] eqn:Hstep;
      destruct (IH disk1) as (data & disk2 & -> & Hs).
    + exists (record :: data), disk2. split; [done|]. by eapply settles_kept.
    + eexists (_ :: data), disk2. split; [done|]. by eapply settles_caught.
Qed.

(** *** The jobs of [importIDL] *)

Lemma then_d_eq {A B} (p : Deferred (Disk Fragment) A) (f : A → P B) disk :
  then_d p f disk
  = match p disk with
    | Some (Ok v, disk1) => Some (f v disk1)
    | Some (Throw e, disk1) => Some (Throw e, disk1)
    | None => None
    end.
Proof. reflexivity. Qed.

Lemma load_job_eq request u disk :
  load_job parseString request u disk
  = match then_d (loadURL request u) (parse parseString) disk with
    | Some (Ok record, disk1) => Some (record, disk1)
    | Some (Throw err, disk1) => Some ({| url := u; parses := [] |}, disk1)
    | None => None
    end.
Proof. reflexivity. Qed.

Lemma all_d_cons {S A} (p : S → option (A * S)) ps s :
  all_d (p :: ps) s
  = match p s with
    | Some (v, s1) =>
        match all_d ps s1 with
        | Some (vs, s2) => Some (v :: vs, s2)
        | None => None
        end
    | None => None
    end.
Proof. reflexivity. Qed.

(** [loadURL] stays pending exactly when nothing is cached for the URL
    and the response has no body. *)
Lemma loadURL_pending request u (disk : Disk Fragment) :
  loadURL request u disk = None ↔
  urlcache disk !! getCacheFileName u = None ∧ request u = Ok EmptyString.
Proof.
  unfold loadURL.
  destruct (urlcache disk !! getCacheFileName u) as [body|].
  - split; [done|]. by intros [? _].
  - destruct (request u) as [[|c body]|err]; split; try done; by intros [_ ?].
Qed.

(** The step of a job stays pending exactly when the load does. *)
Lemma load_step_pending request u (disk : Disk Fragment) :
  then_d (loadURL request u) (parse parseString) disk = None ↔
  loadURL request u disk = None.
Proof.
  rewrite then_d_eq. by destruct (loadURL request u disk) as [[[page|err] d]|].
Qed.

Lemma load_job_pending request u (disk : Disk Fragment) :
  load_job parseString request u disk = None ↔
  loadURL request u disk = None.
Proof.
  rewrite load_job_eq, <- load_step_pending.
  by destruct (then_d _ _ disk) as [[[record|err] d]|].
Qed.

Lemma loadURL_Ok_inv request u (disk : Disk Fragment) page disk1 :
  loadURL request u disk = Some (Ok page, disk1) →
  ∃ body, page = (u, Single body) ∧
          urlcache disk1 !! getCacheFileName u = Some body ∧
          idlcache disk1 = idlcache disk ∧
          datasets disk1 = datasets disk ∧
          ∀ name, name ≠ getCacheFileName u →
                  urlcache disk1 !! name = urlcache disk !! name.
Proof.
  unfold loadURL.
  destruct (urlcache disk !! getCacheFileName u) as [body|] eqn:Hc.
  - intros [= <- <-]. by exists body.
  - destruct (request u) as [[|c body]|]; [done| |done]. intros [= <- <-].
    eexists. simpl. split_and!; try done.
    + apply lookup_insert_eq.
    + intros name Hne. by rewrite lookup_insert_ne.
Qed.

Lemma loadURL_Throw_inv request u (disk : Disk Fragment) err disk1 :
  loadURL request u disk = Some (Throw err, disk1) →
  disk1 = disk ∧ urlcache disk !! getCacheFileName u = None ∧
  request u = Throw err.
Proof.
  unfold loadURL.
  destruct (urlcache disk !! getCacheFileName u) as [body|] eqn:Hc; [done|].
  destruct (request u) as [[|c body]|]; [done|done|]. by intros [= <- <-].
Qed.

Lemma parse_Ok_inv u data (disk : Disk Fragment) record disk1 :
  parse parseString (u, data) disk = (Ok record, disk1) →
  read_json (idlcache disk1) (getCacheFileName u) = Some record ∧
  urlcache disk1 = urlcache disk ∧
  datasets disk1 = datasets disk ∧
  ∀ name, name ≠ getCacheFileName u →
          idlcache disk1 !! name = idlcache disk !! name.
Proof.
  destruct (read_json (idlcache disk) (getCacheFileName u)) as [cached|] eqn:Hc.
  - rewrite (parse_hit _ _ _ _ Hc). by intros [= <- <-].
  - rewrite (parse_miss _ _ _ Hc). simpl.
    destruct (fold_left _ _ _); [done|]. intros [= <- <-]. simpl.
    split_and!; try done.
    + unfold read_json. by rewrite lookup_insert_eq.
    + intros name Hne. by rewrite lookup_insert_ne.
Qed.

Lemma parse_Throw_inv u data (disk : Disk Fragment) err disk1 :
  parse parseString (u, data) disk = (Throw err, disk1) →
  disk1 = disk ∧
  read_json (idlcache disk) (getCacheFileName u) = None ∧
  fold_left (parse_candidate parseString) (as_array data) [] = [].
Proof.
  destruct (read_json (idlcache disk) (getCacheFileName u)) as [cached|] eqn:Hc.
  - by rewrite (parse_hit _ _ _ _ Hc).
  - rewrite (parse_miss _ _ _ Hc). simpl.
    destruct (fold_left _ _ _); [|done]. by intros [= <- <-].
Qed.




(** *** The second pass *)

(** The loop of the second pass only checks that every retry URL has a
    record in [allData]: it returns [allData] as it is, or throws. *)
Lemma resolve_retries_eq (prevData : list Datum) retryURLs allData :
  resolve_retries prevData retryURLs allData
  = if forallb (fun u => bool_decide (is_Some (filter0 (same_url u) allData)))
         retryURLs
    then Ok allData
    else Throw (ReferenceError "prevDatum").
Proof.
  induction retryURLs as [|u retryURLs IH]; simpl; [done|].
  destruct (filter0 (same_url u) allData) as [datum|]; simpl; [|done].
  by rewrite Nat.ltb_irrefl, Nat.eqb_refl.
Qed.

Lemma importHTTP_eq scrape1 scrape2 urls path disk urls' data1 disk1 :
  getUniqueURLs urls = Ok urls' →
  scrapeURLs parseString scrape1 urls' disk = (Ok data1, disk1) →
  let allData := js_sort urlSort data1 in
  let prevData := read_json (datasets disk1) path in
  let retryURLs := retry_urls prevData allData in
  let disk2 := fold_left (fun d u => clearCache u d) retryURLs disk1 in
  let disk3 := (scrapeURLs parseString scrape2 retryURLs disk2).2 in
  importHTTP parseString scrape1 scrape2 urls path disk
  = if forallb (fun u => bool_decide (is_Some (filter0 (same_url u) allData)))
         retryURLs
    then (Ok allData,
          {| urlcache := urlcache disk3;
             idlcache := idlcache disk3;
             datasets := <[path := Json allData]> (datasets disk3) |})
    else (Throw (ReferenceError "prevDatum"), disk3).
Proof.
  intros Hu H1 allData prevData retryURLs disk2 disk3.
  unfold importHTTP. rewrite Hu. unfold then_ at 1. rewrite H1.
  unfold then_ at 1, read_previous. fold allData prevData.
  unfold then_ at 1. fold retryURLs disk2.
  unfold then_ at 1.
  destruct (batch_settles scrape2 retryURLs disk2) as (data2 & d3 & H2 & _).
  fold (scrapeURLs parseString scrape2 retryURLs) in H2.
  assert (d3 = disk3) as -> by (unfold disk3; by rewrite H2).
  rewrite H2, resolve_retries_eq.
  by destruct (forallb _ retryURLs).
Qed.
End ImporterFacts.

(** *** Retry URLs *)

Lemma check_previous_present {Fragment} (allData : list (ParseRecord Fragment))
  prevData retryURLs :
  (∀ p, p ∈ prevData → parses p ≠ [] →
        is_Some (filter0 (same_url (url p)) allData)) →
  Forall (fun u => is_Some (filter0 (same_url u) allData)) retryURLs →
  Forall (fun u => is_Some (filter0 (same_url u) allData))
    (fold_left (check_previous allData) prevData retryURLs).
Proof.
  revert retryURLs.
  induction prevData as [|p prevData IH]; intros retryURLs Hprev Hacc; simpl;
    [done|].
  apply IH; [intros q Hq; apply Hprev; by right|].
  unfold check_previous.
  destruct (filter0 (same_url (url p)) allData) as [datum|] eqn:Hd.
  - destruct (_ <? _)%nat; [|done].
    apply Forall_app. split; [done|]. constructor; [|done]. by rewrite Hd.
  - destruct (parses p) as [|f fs] eqn:Hp; simpl; [done|].
    destruct (Hprev p) as [? Hsome]; [by left|by rewrite Hp|]. congruence.
Qed.

Lemma forallb_present {Fragment} (allData : list (ParseRecord Fragment))
  retryURLs :
  Forall (fun u => is_Some (filter0 (same_url u) allData)) retryURLs →
  forallb (fun u => bool_decide (is_Some (filter0 (same_url u) allData)))
    retryURLs = true.
Proof.
  intros H. apply forallb_forall. intros u Hu.
  rewrite Forall_forall in H. apply bool_decide_eq_true, H.
  by apply list_elem_of_In.
Qed.

Lemma filter0_elem_of {A} (p : A → bool) l x : filter0 p l = Some x → x ∈ l.
Proof. intros H. apply find_some in H as [H _]. by apply list_elem_of_In. Qed.

(** ** Reconciliation *)

(** C1, amended.  No record of a prior Dataset is copied into the
    result: every record of the Dataset that [importHTTP] writes was
    produced by one of the two passes.  So when, for the URL of a prior
    entry, neither the first pass nor the second pass produced a record
    with as many fragments as the prior entry has, the Dataset written
    holds no record of that URL with as many fragments, and not the
    prior entry; the records that the first pass produced for the URL
    stay in it.  The run completes when the first pass produced a record
    for every URL of the prior Dataset that has fragments. *)
Theorem importHTTP_keeps_first_pass {Fragment}
  (parseString : string → option (list Fragment))
  scrape1 scrape2 urls path disk urls' data1 disk1 prevData data2 disk3
  (prior first : ParseRecord Fragment) :
  getUniqueURLs urls = Ok urls' →
  scrapeURLs parseString scrape1 urls' disk = (Ok data1, disk1) →
  read_json (datasets disk1) path = Some prevData →
  let allData := js_sort urlSort data1 in
  let retryURLs := retry_urls (Some prevData) allData in
  let disk2 := fold_left (fun d u => clearCache u d) retryURLs disk1 in
  scrapeURLs parseString scrape2 retryURLs disk2 = (Ok data2, disk3) →
  (∀ p, p ∈ prevData → parses p ≠ [] →
        is_Some (filter0 (same_url (url p)) allData)) →
  prior ∈ prevData →
  first ∈ data1 → url first = url prior →
  (∀ d, d ∈ data1 → url d = url prior →
        (length (parses d) < length (parses prior))%nat) →
  (∀ d, d ∈ data2 → url d = url prior →
        (length (parses d) < length (parses prior))%nat) →
  ∃ final disk',
    importHTTP parseString scrape1 scrape2 urls path disk = (Ok final, disk') ∧
    datasets disk' !! path = Some (Json final) ∧
    (∀ d, d ∈ final → d ∈ data1 ∨ d ∈ data2) ∧
    first ∈ final ∧
    (∀ d, d ∈ final → url d = url prior →
          (length (parses d) < length (parses prior))%nat) ∧
    prior ∉ final.
Proof.
  intros Hu H1 Hprev allData retryURLs disk2 H2 Hall Hprior Hfirst Hurl
    Hless1 Hless2.
  rewrite (importHTTP_eq parseString scrape1 scrape2 _ _ _ _ _ _ Hu H1).
  rewrite Hprev. fold allData retryURLs disk2.
  rewrite forallb_present by by apply check_previous_present.
  assert (Hfrom : ∀ d, d ∈ allData → d ∈ data1 ∨ d ∈ data2).
  { intros d Hd. left. unfold allData in Hd. by rewrite js_sort_perm in Hd. }
  assert (Hfew : ∀ d, d ∈ allData → url d = url prior →
                      (length (parses d) < length (parses prior))%nat).
  { intros d Hd Hdu. destruct (Hfrom d Hd); [by apply Hless1|by apply Hless2]. }
  eexists _, _. split_and!; [done| |done| |done|].
  - simpl. apply lookup_insert_eq.
  - unfold allData. by rewrite js_sort_perm.
  - intros Hin. specialize (Hfew prior Hin eq_refl). lia.
Qed.

(** C1 as stated fails: prior entry of 3 fragments, first pass 2, second
    pass 1; the Dataset written holds the first-pass record of 2
    fragments and no longer the prior entry. *)
Lemma importHTTP_prior_entry_dropped :
  let u := "https://a.com/" in
  let prior := {| url := u; parses := [1%nat; 2%nat; 3%nat] |} in
  let disk := disk_with_prior [prior] in
  let disk1 := (scrapeURLs letters_parser (scrape_body "AB") [u] disk).2 in
  let run :=
    importHTTP letters_parser (scrape_body "AB") (scrape_body "A")
      [u] "idl.json" disk in
  read_json (datasets disk) "idl.json" = Some [prior] ∧
  (scrapeURLs letters_parser (scrape_body "AB") [u] disk).1
  = Ok [{| url := u; parses := [1%nat; 2%nat] |}] ∧
  (scrapeURLs letters_parser (scrape_body "A") [u] (clearCache u disk1)).1
  = Ok [{| url := u; parses := [1%nat] |}] ∧
  run.1 = Ok [{| url := u; parses := [1%nat; 2%nat] |}] ∧
  read_json (datasets run.2) "idl.json"
  = Some [{| url := u; parses := [1%nat; 2%nat] |}] ∧
  prior ∉ [{| url := u; parses := [1%nat; 2%nat] |}].
Proof.
  split_and!; try (vm_compute; reflexivity).
  intros H. apply list_elem_of_singleton in H. discriminate H.
Qed.

(** C2 fails on the code.  Prior entry of 3 fragments, first pass 2,
    second pass 4: the Dataset written holds the first-pass record of 2
    fragments, since the second-pass datum is read from the first-pass
    data. *)
Theorem importHTTP_second_pass_not_read :
  let u := "https://a.com/" in
  let prior := {| url := u; parses := [1%nat; 2%nat; 3%nat] |} in
  let disk := disk_with_prior [prior] in
  let disk1 := (scrapeURLs letters_parser (scrape_body "AB") [u] disk).2 in
  let run :=
    importHTTP letters_parser (scrape_body "AB") (scrape_body "ABCD")
      [u] "idl.json" disk in
  (scrapeURLs letters_parser (scrape_body "AB") [u] disk).1
  = Ok [{| url := u; parses := [1%nat; 2%nat] |}] ∧
  (scrapeURLs letters_parser (scrape_body "ABCD") [u] (clearCache u disk1)).1
  = Ok [{| url := u; parses := [1%nat; 2%nat; 3%nat; 4%nat] |}] ∧
  run.1 = Ok [{| url := u; parses := [1%nat; 2%nat] |}] ∧
  read_json (datasets run.2) "idl.json"
  = Some [{| url := u; parses := [1%nat; 2%nat] |}].
Proof. split_and!; vm_compute; reflexivity. Qed.

(** C3 fails on the code.  The prior Dataset has an entry with fragments
    for a URL that the first pass did not scrape; whatever the second
    pass does, the branch for a missing datum raises the ReferenceError
    and the run is rejected. *)
Theorem importHTTP_missing_datum_throws scrape2 :
  let prior := {| url := "https://b.com/"; parses := [1%nat] |} in
  (importHTTP letters_parser (scrape_body "AB") scrape2
     ["https://a.com/"] "idl.json" (disk_with_prior [prior])).1
  = Throw (ReferenceError "prevDatum").
Proof.
  intros prior.
  assert (Hu : getUniqueURLs ["https://a.com/"] = Ok ["https://a.com/"])
    by reflexivity.
  destruct (scrapeURLs letters_parser (scrape_body "AB") ["https://a.com/"]
              (disk_with_prior [prior])) as [r1 disk1] eqn:H1.
  vm_compute in H1. injection H1 as <- <-.
  erewrite (importHTTP_eq letters_parser _ scrape2 _ _ _ _ _ _ Hu);
    [|vm_compute; reflexivity].
  reflexivity.
Qed.

Section DatasetFacts.
Context {Fragment : Type}.
Variable parseString : string → option (list Fragment).

Abbreviation Datum := (ParseRecord Fragment).
Abbreviation P := (Promise (Disk Fragment)).

Lemma urlSort_sorted (data : list Datum) :
  StronglySorted url_le (js_sort urlSort data).
Proof.
  apply js_sort_sorted; unfold urlSort, url_le.
  - intros x y. by rewrite string_cmp_le.
  - intros x y. rewrite string_cmp_le. apply string_leb_false.
  - intros x y z. apply string_leb_trans.
Qed.

(** One job under a coherent cache: its record carries the URL, and the
    cache stays coherent. *)
Lemma job_coherent (fetch : string → P (string * Content)) urls u disk :
  faithful fetch → names_distinct urls → cache_coherent disk urls → u ∈ urls →
  ∃ record disk',
    job parseString fetch u disk = (Ok record, disk') ∧
    url record = u ∧ cache_coherent disk' urls.
Proof.
  intros Hf Hinj Hcoh Hu. rewrite job_eq. unfold then_.
  destruct (Hf u disk) as [Hcache Hurl].
  destruct (fetch u disk) as [[[u' data]|err] disk1] eqn:Hfetch;
    simpl in Hcache, Hurl.
  2: { eexists _, _. split_and!; [done|done|].
       intros v cached Hv. rewrite Hcache. by apply Hcoh. }
  rewrite (Hurl u' data eq_refl).
  assert (Hcoh1 : cache_coherent disk1 urls).
  { intros v cached Hv. rewrite Hcache. by apply Hcoh. }
  destruct (read_json (idlcache disk1) (getCacheFileName u)) as [cached|] eqn:Hc.
  - rewrite (parse_hit _ _ _ _ _ Hc).
    eexists _, _. split_and!; [done| |done]. by apply (Hcoh1 u).
  - rewrite (parse_miss _ _ _ _ Hc). simpl.
    destruct (fold_left _ _ _) as [|f fs] eqn:Hp.
    + eexists _, _. by split_and!.
    + eexists _, _. split_and!; [done|done|].
      intros v cached Hv. unfold read_json. simpl.
      destruct (decide (getCacheFileName u = getCacheFileName v)) as [Heq|Hne].
      * rewrite Heq, lookup_insert_eq. intros [= <-]. simpl. by apply Hinj.
      * rewrite lookup_insert_ne by done. by apply Hcoh1.
Qed.

Lemma batch_coherent (fetch : string → P (string * Content)) urls batch disk :
  faithful fetch → names_distinct urls → cache_coherent disk urls →
  (∀ u, u ∈ batch → u ∈ urls) →
  ∃ data disk',
    Promise_all (job parseString fetch <$> batch) disk = (Ok data, disk') ∧
    url <$> data = batch.
Proof.
  intros Hf Hinj. revert disk.
  induction batch as [|u batch IH]; intros disk Hcoh Hsub.
  - by exists [], disk.
  - rewrite fmap_cons, Promise_all_cons.
    destruct (job_coherent fetch urls u disk) as (record & disk1 & -> & Hr & Hc1);
      [done|done|done|apply Hsub; left|].
    destruct (IH disk1) as (data & disk2 & -> & Hd);
      [done|intros v Hv; apply Hsub; by right|].
    exists (record :: data), disk2. split; [done|].
    rewrite fmap_cons. by rewrite Hr, Hd.
Qed.

(** The same for the jobs of [importIDL], where they resolve. *)
Lemma load_job_coherent request urls u disk record disk' :
  names_distinct urls → cache_coherent disk urls → u ∈ urls →
  load_job parseString request u disk = Some (record, disk') →
  url record = u ∧ cache_coherent disk' urls.
Proof.
  intros Hinj Hcoh Hu. rewrite load_job_eq, then_d_eq.
  destruct (loadURL request u disk) as [[[page|err] disk1]|] eqn:Hload;
    [| |done].
  2: { apply loadURL_Throw_inv in Hload as (-> & _). by intros [= <- <-]. }
  apply loadURL_Ok_inv in Hload as (body & -> & _ & Hidl & _).
  assert (Hcoh1 : cache_coherent disk1 urls).
  { intros v cached Hv. rewrite Hidl. by apply Hcoh. }
  destruct (read_json (idlcache disk1) (getCacheFileName u)) as [cached|] eqn:Hc.
  - rewrite (parse_hit _ _ _ _ _ Hc). intros [= <- <-].
    split; [by apply (Hcoh1 u)|done].
  - rewrite (parse_miss _ _ _ _ Hc). cbv zeta.
    destruct (fold_left _ _ _) as [|f fs] eqn:Hp; intros [= <- <-]; [done|].
    split; [done|].
    intros v cached Hv. unfold read_json. simpl.
    destruct (decide (getCacheFileName u = getCacheFileName v)) as [Heq|Hne].
    + rewrite Heq, lookup_insert_eq. intros [= <-]. simpl. by apply Hinj.
    + rewrite lookup_insert_ne by done. by apply Hcoh1.
Qed.

Lemma batch_coherent_d request urls batch disk data disk' :
  names_distinct urls → cache_coherent disk urls →
  (∀ u, u ∈ batch → u ∈ urls) →
  all_d (load_job parseString request <$> batch) disk = Some (data, disk') →
  url <$> data = batch.
Proof.
  intros Hinj. revert disk data.
  induction batch as [|u batch IH]; intros disk data Hcoh Hsub.
  - by intros [= <- _].
  - rewrite fmap_cons, all_d_cons.
    destruct (load_job parseString request u disk) as [[record disk1]|] eqn:Hjob;
      [|done].
    destruct (load_job_coherent _ _ _ _ _ _ Hinj Hcoh (Hsub u ltac:(left)) Hjob)
      as [Hr Hc1].
    destruct (all_d _ disk1) as [[rest disk2]|] eqn:Hrest; [|done].
    intros [= <- <-]. rewrite fmap_cons, Hr. f_equal.
    eapply (IH disk1); [done| |done]. intros v Hv. apply Hsub. by right.
Qed.
End DatasetFacts.

Lemma url_le_of_urls {Fragment} (data : list (ParseRecord Fragment)) :
  StronglySorted (fun a b => String.leb a b = true) (url <$> data) →
  StronglySorted url_le data.
Proof.
  induction data as [|d data IH]; [constructor|].
  rewrite fmap_cons. intros H. apply StronglySorted_inv in H as [Hs Hd].
  constructor; [by apply IH|].
  rewrite Forall_fmap in Hd. done.
Qed.

(** C8, amended.  The Dataset that [importHTTP] writes is sorted
    ascending by URL; it has at most one record per URL when no two of
    the canonical URLs share a cache file name, every parse record
    cached under the file name of one of them carries its URL, and the
    scraper resolves to the URL it was asked for and leaves the
    parse-record cache alone.  Under the first two conditions the Dataset
    that [importIDL] writes, when its batch resolves, is sorted ascending
    by URL with at most one record per URL. *)
Theorem datasets_sorted_unique {Fragment}
  (parseString : string → option (list Fragment)) :
  (∀ scrape1 scrape2 urls path disk final disk',
     importHTTP parseString scrape1 scrape2 urls path disk = (Ok final, disk') →
     datasets disk' !! path = Some (Json final) ∧
     StronglySorted url_le final ∧
     (∀ urls', getUniqueURLs urls = Ok urls' →
        faithful scrape1 → names_distinct urls' → cache_coherent disk urls' →
        NoDup (url <$> final))) ∧
  (∀ request urls path disk data disk',
     importIDL parseString request urls path disk = Some (Ok data, disk') →
     datasets disk' !! path = Some (Json data) ∧
     (names_distinct urls → cache_coherent disk urls →
      StronglySorted url_le data ∧ NoDup (url <$> data))).
Proof.
  split.
  - intros scrape1 scrape2 urls path disk final disk' Hrun.
    destruct (getUniqueURLs urls) as [urls'|err] eqn:Hu.
    2: { unfold importHTTP in Hrun. by rewrite Hu in Hrun. }
    destruct (batch_settles parseString scrape1 urls' disk)
      as (data1 & disk1 & H1 & _).
    fold (scrapeURLs parseString scrape1 urls') in H1.
    rewrite (importHTTP_eq parseString scrape1 scrape2 _ _ _ _ _ _ Hu H1) in Hrun.
    destruct (forallb _ _); [|done]. injection Hrun as <- <-.
    split_and!.
    + simpl. apply lookup_insert_eq.
    + apply urlSort_sorted.
    + intros ? [= <-] Hf Hinj Hcoh.
      destruct (batch_coherent parseString scrape1 urls' urls' disk)
        as (data & disk2 & H2 & Hurls); [done..|].
      unfold scrapeURLs in H1. rewrite H1 in H2. injection H2 as <- <-.
      rewrite js_sort_perm, Hurls. by eapply getUniqueURLs_NoDup.
  - intros request urls path disk data disk'. unfold importIDL.
    destruct (sorted_uniq_spec urls) as (Hnd & Hsorted & Hsub).
    set (sorted := js_sort string_cmp (uniq String.eqb urls)) in *.
    destruct (all_d _ disk) as [[data1 disk1]|] eqn:H1; [|done].
    intros [= <- <-]. split.
    + simpl. apply lookup_insert_eq.
    + intros Hinj Hcoh.
      pose proof (batch_coherent_d parseString request urls sorted disk
                    data1 disk1 Hinj Hcoh Hsub H1) as Hurls.
      split; [apply url_le_of_urls|]; by rewrite Hurls.
Qed.

(** C8 as stated fails: two URLs with the same cache file name.  The
    second one finds the record cached for the first, so the Dataset that
    [importIDL] writes names one URL twice and is out of order. *)
Lemma importIDL_shared_cache_name :
  let run :=
    importIDL letters_parser (fun _ => Ok "A")
      ["http://a.b/x"; "http://a.c"; "http://a/b/x"] "idl.json" empty_disk in
  let data :=
    [{| url := "http://a.b/x"; parses := [1%nat] |};
     {| url := "http://a.c"; parses := [1%nat] |};
     {| url := "http://a.b/x"; parses := [1%nat] |}] in
  getCacheFileName "http://a.b/x" = getCacheFileName "http://a/b/x" ∧
  (∃ disk', run = Some (Ok data, disk') ∧
            read_json (datasets disk') "idl.json" = Some data) ∧
  ¬ NoDup (url <$> data) ∧
  ¬ StronglySorted url_le data.
Proof.
  split_and!; try (vm_compute; reflexivity).
  - eexists. split; vm_compute; reflexivity.
  - intros H. apply NoDup_cons in H as [H _]. apply H.
    right. left.
  - intros H. apply StronglySorted_inv in H as [H _].
    apply StronglySorted_inv in H as [_ H].
    apply Forall_inv in H. vm_compute in H. discriminate H.
Qed.

(** C4 as stated fails: the cache holds a record for the URL and no
    candidate is IDL; [parse] returns the cached record and throws
    nothing. *)
Lemma parse_cached_no_throw :
  let u := "https://a.com/" in
  let cached := {| url := u; parses := [1%nat] |} in
  let disk :=
    {| urlcache := ∅;
       idlcache := {[getCacheFileName u := Json cached]};
       datasets := ∅ |} in
  Forall (fun idl => letters_parser idl = None) ["not idl"] ∧
  parse letters_parser (u, Several ["not idl"]) disk = (Ok cached, disk) ∧
  parse letters_parser (u, Several ["not idl"]) disk
  ≠ (Throw (NoDataError u), disk).
Proof.
  split_and!.
  - by repeat constructor.
  - vm_compute. reflexivity.
  - vm_compute. discriminate.
Qed.

(** ** Facts about the runner *)

Section RunnerFacts.
Context {Fragment Chain : Type}.
Implicit Types (r : Runner Fragment Chain) (e : Event Fragment Chain).

Lemma align_misaligned n (v : Value Fragment) :
  misaligned n v → align n v = Throw MalformedMemoOutput.
Proof.
  induction 1 as [items Hn H1|p|item Hn _ IH]; simpl; [|done|].
  - apply Nat.eqb_neq in Hn. rewrite Hn.
    by destruct items as [|a [|b items]].
  - destruct n as [|[|n]]; done.
Qed.

(** Induction on values, with the items of an array as premises. *)
Lemma Value_induction (Q : Value Fragment → Prop) :
  (∀ items, Forall Q items → Q (Arr items)) →
  (∀ p, Q (Obj p)) →
  ∀ v, Q v.
Proof.
  intros HArr HObj. fix IH 1. intros [items|p]; [|apply HObj].
  apply HArr. induction items as [|item items IHitems]; constructor.
  - apply IH.
  - apply IHitems.
Qed.

(** The loop throws nothing else, and only on such values. *)
Lemma align_throws n (v : Value Fragment) err :
  align n v = Throw err → err = MalformedMemoOutput ∧ misaligned n v.
Proof.
  induction v as [items IH|p] using Value_induction; simpl.
  - destruct (length items =? n)%nat eqn:Hn; [done|].
    apply Nat.eqb_neq in Hn.
    destruct items as [|first [|second items]].
    + intros [= <-]. split; [done|]. by apply misaligned_here.
    + intros Hthrow. apply Forall_inv in IH.
      destruct (IH Hthrow) as [-> Hmis]. split; [done|].
      apply misaligned_inside; [|done]. simpl in Hn. congruence.
    + intros [= <-]. split; [done|]. apply misaligned_here; [done|].
      simpl. lia.
  - intros [= <-]. split; [done|]. apply misaligned_parse.
Qed.

(** C9. When [delegates] cannot be aligned with the URLs, the function
    of the [gather] memo throws the error Malformed memo output. *)
Theorem gather_malformed r file urls delegates :
  misaligned (length urls) delegates →
  gather r file (Output urls delegates) = Throw MalformedMemoOutput.
Proof. intros H. unfold gather. by rewrite (align_misaligned _ _ H). Qed.

Lemma gather_running r file output r' :
  gather r file output = Ok r' → running r' = running r.
Proof.
  unfold gather. destruct output as [| |urls delegates]; try by intros [= <-].
  destruct (align _ _); [|done]. destruct (map_throwing _ _); [|done].
  by intros [= <-].
Qed.

Lemma handle_running r e :
  running r = true → e ≠ GlobError → running (handle r e) = true.
Proof.
  intros Hr He. destruct e as [chain|file|file output| |]; simpl; try done.
  - unfold run. by rewrite Hr.
  - destruct (gather r file output) as [r'|err] eqn:Hg; [|done].
    by rewrite (gather_running _ _ _ _ Hg).
Qed.

Lemma handle_all_running r events :
  running r = true → GlobError ∉ events →
  running (handle_all r events) = true.
Proof.
  revert r. induction events as [|e events IH]; intros r Hr Hev; [done|].
  apply not_elem_of_cons in Hev as [He Hev].
  apply IH; [|done]. by apply handle_running.
Qed.

Lemma handle_all_stopped r events :
  running r = true → running (handle_all r events) = false →
  GlobError ∈ events.
Proof.
  revert r. induction events as [|e events IH]; intros r Hr Hstop.
  - simpl in Hstop. congruence.
  - assert (e = GlobError ∨ e ≠ GlobError) as [->|He]
      by (destruct e; (by left) || (by right)).
    + left.
    + right. apply (IH (handle r e)); [by apply handle_running|exact Hstop].
Qed.

(** C10. [run()] on a running runner throws the already-running error
    and leaves the runner as it was.  After an accepted [run()] the
    runner stays running through every event but an error of the file
    stream, so until then each further [run()] throws; and a further
    [run()] is accepted only after the stream of the prior run has
    failed. *)
Theorem run_while_running :
  (∀ (chain : Chain) r,
     running r = true → run chain r = (Throw AlreadyRunning, r)) ∧
  (∀ (chain chain' : Chain) r events,
     (run chain r).1 = Ok tt → GlobError ∉ events →
     run chain' (handle_all (run chain r).2 events)
     = (Throw AlreadyRunning, handle_all (run chain r).2 events)) ∧
  (∀ (chain' : Chain) r events,
     running r = true → (run chain' (handle_all r events)).1 = Ok tt →
     GlobError ∈ events).
Proof.
  split_and!.
  - intros chain r Hr. unfold run. by rewrite Hr.
  - intros chain chain' r events Hok Hev.
    assert (Hr : running (run chain r).2 = true).
    { unfold run in *. by destruct (running r). }
    pose proof (handle_all_running _ _ Hr Hev) as Hrun.
    unfold run at 1. by rewrite Hrun.
  - intros chain' r events Hr Hok.
    apply (handle_all_stopped r); [done|].
    unfold run in Hok. by destruct (running (handle_all r events)).
Qed.
End RunnerFacts.

(** ** Further properties of the cache file names and of [getUniqueURLs] *)

(** X1. A cache file name is as long as the URL and holds only
    alphanumeric characters and underscores; naming is idempotent, and
    it leaves a string of alphanumeric characters as it is. *)
Theorem getCacheFileName_safe u :
  String.length (getCacheFileName u) = String.length u ∧
  all_chars name_char (getCacheFileName u) = true ∧
  getCacheFileName (getCacheFileName u) = getCacheFileName u ∧
  (all_chars is_alnum u = true → getCacheFileName u = u).
Proof.
  induction u as [|c u (Hlen & Hsafe & Hidem & Hid)]; [done|].
  simpl. split_and!.
  - by rewrite Hlen.
  - rewrite Hsafe, andb_true_r. unfold name_char.
    destruct (is_alnum c) eqn:Hc; [by rewrite Hc|done].
  - rewrite Hidem. destruct (is_alnum c) eqn:Hc; [by rewrite Hc|done].
  - intros H. apply andb_true_iff in H as [Hc Hu]. by rewrite Hc, Hid.
Qed.

Lemma forEach_record_scheme_throw urls urlMap err :
  forEach_throwing record_scheme urls urlMap = Throw err →
  err = AssertionError ∨ err = TypeError.
Proof.
  revert urlMap. induction urls as [|url urls IH]; intros urlMap; simpl; [done|].
  destruct (record_scheme urlMap url) as [m1|e] eqn:H1; [by apply IH|].
  intros [= <-]. rewrite record_scheme_cases in H1.
  destruct (url_match url) as [[scheme key]|]; [|left; congruence].
  destruct (obj_get key urlMap); [done|].
  destruct (inherited key); [right; congruence|done].
Qed.

(** The first loop stops at the first URL that is not plain: with the
    assertion error where the pattern does not match, with the TypeError
    where the rest is an inherited name. *)
Lemma forEach_record_scheme_first front url back urlMap :
  map_ok urlMap → Forall plain front →
  (url_match url = None →
   forEach_throwing record_scheme (front ++ url :: back) urlMap
   = Throw AssertionError) ∧
  (∀ scheme key, url_match url = Some (scheme, key) → inherited key = true →
   forEach_throwing record_scheme (front ++ url :: back) urlMap
   = Throw TypeError).
Proof.
  intros Hok Hfront. revert urlMap Hok.
  induction Hfront as [|u front (s & k & Hm & Hi) _ IH]; intros urlMap Hok.
  - simpl. rewrite record_scheme_cases. split.
    + by intros ->.
    + intros scheme key -> Hi.
      destruct (obj_get key urlMap) as [seen|] eqn:Hget; [|by rewrite Hi].
      destruct Hok as [_ Hall]. rewrite Forall_forall in Hall.
      destruct (Hall _ (obj_get_Some _ _ _ Hget)) as (_ & _ & Hi').
      simpl in Hi'. congruence.
  - simpl. pose proof (record_scheme_eq urlMap _ _ _ Hm Hi) as Heq.
    rewrite Heq. apply IH. by eapply record_scheme_ok.
Qed.

Lemma getUniqueURLs_first front url back :
  Forall plain front →
  (url_match url = None →
   getUniqueURLs (front ++ url :: back) = Throw AssertionError) ∧
  (∀ scheme key, url_match url = Some (scheme, key) → inherited key = true →
   getUniqueURLs (front ++ url :: back) = Throw TypeError).
Proof.
  intros Hfront. unfold getUniqueURLs.
  destruct (forEach_record_scheme_first front url back [] map_ok_nil Hfront)
    as [Hnone Hsome].
  split.
  - intros Hm. by rewrite (Hnone Hm).
  - intros scheme key Hm Hi. by rewrite (Hsome _ _ Hm Hi).
Qed.

(** A list that is not all plain splits at its first URL that is not. *)
Lemma first_not_plain urls :
  ¬ Forall plain urls →
  ∃ front url back,
    urls = front ++ url :: back ∧ Forall plain front ∧ ¬ plain url.
Proof.
  induction urls as [|u urls IH]; intros Hnot.
  - destruct Hnot. constructor.
  - assert (Hdec : plain u ∨ ¬ plain u).
    { unfold plain. destruct (url_match u) as [[s k]|].
      - destruct (inherited k) eqn:Hi.
        + right. intros (s' & k' & [= <- <-] & Hi'). congruence.
        + left. by exists s, k.
      - right. by intros (s' & k' & [=] & _). }
    destruct Hdec as [Hu|Hu].
    + destruct IH as (front & url & back & -> & Hfront & Hurl).
      { intros Hall. apply Hnot. by constructor. }
      exists (u :: front), url, back. split_and!; [done| |done].
      by constructor.
    + exists [], u, urls. split_and!; [done|constructor|done].
Qed.

Lemma getUniqueURLs_malformed urls :
  ¬ Forall well_formed urls →
  ∃ err, getUniqueURLs urls = Throw err ∧
         (err = AssertionError ∨ err = TypeError) ∧
         (Forall (fun url => well_formed url → plain url) urls →
          err = AssertionError).
Proof.
  intros Hnot.
  assert (Hnp : ¬ Forall plain urls).
  { intros Hall. apply Hnot. eapply Forall_impl; [exact Hall|].
    apply plain_well_formed. }
  destruct (first_not_plain urls Hnp) as (front & url & back & -> & Hfront & Hurl).
  destruct (getUniqueURLs_first front url back Hfront) as [Hnone Hsome].
  destruct (url_match url) as [[scheme key]|] eqn:Hm.
  - assert (Hi : inherited key = true).
    { destruct (inherited key) eqn:Hi; [done|]. destruct Hurl. by exists scheme, key. }
    exists TypeError. split_and!; [by eapply Hsome|by right|].
    intros Hall. apply Forall_app in Hall as [_ Hall].
    apply Forall_cons in Hall as [Hall _]. destruct Hurl. apply Hall.
    unfold well_formed. by rewrite Hm.
  - exists AssertionError. split_and!; [by apply Hnone|by left|done].
Qed.

(** X2. [getUniqueURLs] returns a list exactly when every raw URL is
    plain: it matches the scheme pattern and its rest is no name that
    [urlMap] inherits.  Otherwise it throws at the first URL that is not
    plain: the assertion error where the pattern does not match, the
    TypeError where the rest is an inherited name. *)
Theorem getUniqueURLs_throws_iff urls :
  (Forall plain urls → ∃ out, getUniqueURLs urls = Ok out) ∧
  (¬ Forall plain urls →
   ∃ err, getUniqueURLs urls = Throw err ∧
          (err = AssertionError ∨ err = TypeError)) ∧
  (∀ front url back,
     urls = front ++ url :: back → Forall plain front →
     (¬ well_formed url → getUniqueURLs urls = Throw AssertionError) ∧
     (∀ scheme key,
        url_match url = Some (scheme, key) → inherited key = true →
        getUniqueURLs urls = Throw TypeError)).
Proof.
  split_and!.
  - intros Hwf. destruct (getUniqueURLs_inv urls Hwf) as (m & _ & _ & ->).
    by eexists.
  - intros Hnot.
    destruct (getUniqueURLs urls) as [out|err] eqn:H.
    + destruct Hnot. by eapply getUniqueURLs_plain.
    + exists err. split; [done|]. unfold getUniqueURLs in H.
      destruct (forEach_throwing record_scheme urls []) eqn:H1; [done|].
      injection H as <-. by eapply forEach_record_scheme_throw.
  - intros front url back -> Hfront.
    destruct (getUniqueURLs_first front url back Hfront) as [Hnone Hsome].
    split; [|done]. intros Hwf. apply Hnone.
    destruct (url_match url) eqn:Hm; [|done]. destruct Hwf.
    unfold well_formed. by rewrite Hm.
Qed.

Lemma scheme_url_inj s1 r1 s2 r2 :
  scheme_url s1 r1 = scheme_url s2 r2 → s1 = s2 ∧ r1 = r2.
Proof.
  unfold scheme_url.
  destruct s1, s2; cbv [scheme_str String.append]; intros [= ->]; done.
Qed.

Lemma getUniqueURLs_unfold urls out :
  getUniqueURLs urls = Ok out →
  ∃ m1,
    forEach_throwing record_scheme urls [] = Ok m1 ∧
    map_ok m1 ∧
    let m2 := fold_left merge_slash (getOwnPropertyNames m1) m1 in
    map_ok m2 ∧
    (∀ k, k ∈ m2.*1 → k +:+ "/" ∉ m2.*1) ∧
    out = render (fun k => default http (last (default [] (obj_get k m2))))
            <$> getOwnPropertyNames m2.
Proof.
  unfold getUniqueURLs.
  destruct (forEach_throwing record_scheme urls []) as [m1|] eqn:H1; [|done].
  intros [= <-]. exists m1.
  assert (Hok1 : map_ok m1).
  { eapply forEach_record_scheme_ok; [|done]. split; [constructor|done]. }
  assert (Hok2 : map_ok (fold_left merge_slash (getOwnPropertyNames m1) m1))
    by by apply fold_merge_slash_ok.
  split_and!; [done|done|done| |by rewrite canonical_urls_render].
  intros k Hk. apply fold_merge_slash_no_pair; [done| |done].
  rewrite getOwnPropertyNames_perm. by eapply fold_merge_slash_keys.
Qed.

Lemma obj_set_length {V} k (v : V) o : (length (obj_set k v o) ≤ S (length o))%nat.
Proof.
  induction o as [|[k' v'] o IH]; simpl; [lia|].
  destruct (String.eqb k k'); simpl; lia.
Qed.

Lemma obj_delete_length {V} k (o : list (string * V)) :
  (length (obj_delete k o) ≤ length o)%nat.
Proof.
  induction o as [|[k' v'] o IH]; simpl; [lia|].
  destruct (String.eqb k k'); simpl; lia.
Qed.

Lemma forEach_record_scheme_keys urls urlMap urlMap' :
  forEach_throwing record_scheme urls urlMap = Ok urlMap' →
  (length urlMap' ≤ length urlMap + length urls)%nat ∧
  ∀ k, k ∈ urlMap'.*1 →
       k ∈ urlMap.*1 ∨ ∃ u s, u ∈ urls ∧ url_match u = Some (s, k).
Proof.
  revert urlMap. induction urls as [|url urls IH]; intros urlMap; simpl.
  - intros [= <-]. split; [lia|]. by left.
  - destruct (record_scheme urlMap url) as [m1|e] eqn:H1; [|done].
    destruct (url_match url) as [[scheme key]|] eqn:Hm.
    2: { rewrite record_scheme_cases, Hm in H1. done. }
    apply (record_scheme_Ok_eq _ _ _ _ _ Hm) in H1 as ->. intros H.
    destruct (IH _ H) as [Hlen Hkeys]. split.
    + etransitivity; [exact Hlen|].
      destruct (obj_get key urlMap) as [seen|]; [destruct (filter0 _ seen)|];
        match goal with
        | |- context [obj_set key ?v urlMap] =>
            pose proof (obj_set_length key v urlMap)
        end; lia.
    + intros k Hk. destruct (Hkeys k Hk) as [Hin|(u & s & Hu & Hs)].
      * assert (k = key ∨ k ∈ urlMap.*1) as [->|?]; [|right|by left].
        { destruct (obj_get key urlMap) as [seen|];
            [destruct (filter0 _ seen)|]; by apply obj_set_keys_elem_of in Hin. }
        exists url, scheme. split; [left|done].
      * right. exists u, s. split; [by right|done].
Qed.

Lemma merge_slash_length urlMap url :
  (length (merge_slash urlMap url) ≤ length urlMap)%nat.
Proof.
  unfold merge_slash.
  destruct (obj_get (url +:+ "/") urlMap) as [withSlash|] eqn:Hget; [|done].
  etransitivity; [apply obj_delete_length|].
  rewrite <- (length_fmap fst), obj_set_keys, length_fmap; [done|].
  by eapply obj_get_Some_key.
Qed.

Lemma fold_merge_slash_length names urlMap :
  (length (fold_left merge_slash names urlMap) ≤ length urlMap)%nat.
Proof.
  revert urlMap. induction names as [|n names IH]; intros urlMap; simpl; [done|].
  etransitivity; [apply IH|apply merge_slash_length].
Qed.

(** X3. [getUniqueURLs] returns at most as many URLs as it was given,
    and each of them matches the scheme pattern with a rest that is the
    rest of one of the raw URLs. *)
Theorem getUniqueURLs_from_input urls out :
  getUniqueURLs urls = Ok out →
  (length out ≤ length urls)%nat ∧
  ∀ u, u ∈ out →
    ∃ s k, u = scheme_url s k ∧ url_match u = Some (s, k) ∧
           ∃ u0 s0, u0 ∈ urls ∧ url_match u0 = Some (s0, k).
Proof.
  intros H. destruct (getUniqueURLs_unfold _ _ H) as (m1 & H1 & Hok1 & Hrest).
  cbv zeta in Hrest. destruct Hrest as (Hok2 & _ & ->).
  destruct (forEach_record_scheme_keys _ _ _ H1) as [Hlen Hkeys]. split.
  - rewrite length_fmap, getOwnPropertyNames_perm, length_fmap.
    etransitivity; [apply fold_merge_slash_length|]. simpl in Hlen. lia.
  - intros u Hu. apply list_elem_of_fmap in Hu as (k & -> & Hk).
    pose proof (own_names_dot_star _ Hok2) as Hdot.
    rewrite Forall_forall in Hdot.
    eexists _, k. split_and!; [done|by apply url_match_canonical, Hdot|].
    rewrite getOwnPropertyNames_perm in Hk.
    apply fold_merge_slash_keys in Hk.
    destruct (Hkeys k Hk) as [Hnil|Hsrc]; [by apply elem_of_nil in Hnil|done].
Qed.

(** X4. Among the URLs that [getUniqueURLs] returns no two have the same
    rest, so no two differ only by scheme, and none is another one with
    a slash appended. *)
Theorem getUniqueURLs_canonical urls out s1 s2 rest :
  getUniqueURLs urls = Ok out →
  scheme_url s1 rest ∈ out →
  (scheme_url s2 rest ∈ out → s1 = s2) ∧
  scheme_url s2 (rest +:+ "/") ∉ out.
Proof.
  intros H Hin. destruct (getUniqueURLs_unfold _ _ H) as (m1 & _ & _ & Hrest).
  cbv zeta in Hrest. destruct Hrest as (Hok2 & Hpair & ->).
  set (m2 := fold_left merge_slash (getOwnPropertyNames m1) m1) in *.
  set (s := fun k => default http (last (default [] (obj_get k m2)))) in *.
  assert (Hmem : ∀ s' r, scheme_url s' r ∈ render s <$> getOwnPropertyNames m2 →
                         r ∈ m2.*1 ∧ s' = s r).
  { intros s' r Hr. apply list_elem_of_fmap in Hr as (k & Heq & Hk).
    apply scheme_url_inj in Heq as [-> ->].
    split; [by rewrite <- getOwnPropertyNames_perm|done]. }
  destruct (Hmem _ _ Hin) as [Hkey ->]. split.
  - intros H2. by destruct (Hmem _ _ H2) as [_ ->].
  - intros H2. destruct (Hmem _ _ H2) as [Hkey2 _]. by apply (Hpair rest).
Qed.

(** *** The preferred scheme *)

Lemma sort_insert_https_last x v :
  https_last v → https_last (sort_insert scheme_cmp x v).
Proof.
  unfold https_last. induction v as [|y v IH]; intros Hv Hin.
  - simpl in *. apply list_elem_of_singleton in Hin as <-. done.
  - simpl in *. destruct (scheme_cmp x y <=? 0) eqn:Hc.
    + rewrite last_cons_cons.
      destruct x.
      * apply Hv. apply elem_of_cons in Hin as [?|?]; done.
      * destruct y; [done|]. apply Hv. left.
    + destruct x, y; try done.
      assert (Hv' : https ∈ v → last v = Some https).
      { intros Hh. rewrite <- Hv by by right.
        destruct v; [by apply elem_of_nil in Hh|done]. }
      assert (Hl : last (sort_insert scheme_cmp https v) = Some https).
      { apply IH; [done|]. rewrite sort_insert_perm. left. }
      destruct (sort_insert scheme_cmp https v) eqn:Hs; [done|].
      by rewrite last_cons_cons.
Qed.

Lemma js_sort_https_last v : https_last (js_sort scheme_cmp v).
Proof.
  induction v as [|x v IH]; simpl.
  - intros H. by apply elem_of_nil in H.
  - by apply sort_insert_https_last.
Qed.

Lemma uniq_acc_elem_of_2 seen l x :
  x ∈ seen ∨ x ∈ l → x ∈ uniq_acc scheme_eqb seen l.
Proof.
  revert seen. induction l as [|y l IH]; intros seen; simpl.
  - intros [?|H]; [done|by apply elem_of_nil in H].
  - intros H. destruct (existsb (scheme_eqb y) seen) eqn:Hex.
    + apply IH. destruct H as [?|H]; [by left|].
      apply elem_of_cons in H as [->|?]; [|by right].
      left. apply existsb_exists in Hex as (z & Hz & Heq).
      apply list_elem_of_In in Hz. by destruct y, z.
    + apply IH. destruct H as [?|H]; [left; apply elem_of_app; by left|].
      apply elem_of_cons in H as [->|?]; [|by right].
      left. apply elem_of_app. right. left.
Qed.

Lemma obj_get_set_ne {V} k k' (v : V) o :
  k ≠ k' → obj_get k (obj_set k' v o) = obj_get k o.
Proof.
  intros Hne. induction o as [|[k0 v0] o IH]; simpl.
  - by destruct (String.eqb_spec k k').
  - destruct (String.eqb_spec k' k0) as [->|Hne0]; simpl.
    + by destruct (String.eqb_spec k k0).
    + by rewrite IH.
Qed.

Lemma obj_get_delete_ne {V} k k' (o : list (string * V)) :
  k ≠ k' → obj_get k (obj_delete k' o) = obj_get k o.
Proof.
  intros Hne. induction o as [|[k0 v0] o IH]; simpl; [done|].
  destruct (String.eqb_spec k' k0) as [->|Hne0]; simpl.
  - by destruct (String.eqb_spec k k0).
  - by rewrite IH.
Qed.

Lemma obj_set_sorted_values k v urlMap :
  sorted_values urlMap → https_last v → sorted_values (obj_set k v urlMap).
Proof.
  unfold sorted_values. rewrite !Forall_forall. intros Hall Hv e He.
  apply obj_set_elem_of in He as [->|He]; auto.
Qed.

Lemma record_scheme_https k urlMap url urlMap' :
  record_scheme urlMap url = Ok urlMap' →
  sorted_values urlMap →
  sorted_values urlMap' ∧
  (is_Some (obj_get k urlMap) → holds_https k urlMap →
   is_Some (obj_get k urlMap') ∧ holds_https k urlMap') ∧
  (url = scheme_url https k →
   is_Some (obj_get k urlMap') ∧ holds_https k urlMap').
Proof.
  destruct (url_match url) as [[scheme key]|] eqn:Hm.
  2: { rewrite record_scheme_cases, Hm. done. }
  intros H1 Hsorted. apply (record_scheme_Ok_eq _ _ _ _ _ Hm) in H1 as ->.
  assert (Hseen : ∀ seen, obj_get key urlMap = Some seen → https_last seen).
  { intros seen Hg. unfold sorted_values in Hsorted.
    rewrite Forall_forall in Hsorted. by apply (Hsorted _ (obj_get_Some _ _ _ Hg)). }
  split_and!.
  - destruct (obj_get key urlMap) as [seen|] eqn:Hg;
      [destruct (filter0 _ seen)|]; apply obj_set_sorted_values; auto.
    + apply js_sort_https_last.
    + intros H. by apply list_elem_of_singleton in H as <-.
  - intros [v Hv] Hh. destruct (decide (k = key)) as [->|Hne].
    + rewrite Hv. split; [destruct (filter0 _ v); rewrite obj_get_set; by eexists|].
      intros w Hw. destruct (filter0 _ v); rewrite obj_get_set in Hw;
        injection Hw as <-; [by apply Hh|].
      rewrite js_sort_perm. apply elem_of_app. left. by apply Hh.
    + assert (∀ w, obj_get k (obj_set key w urlMap) = obj_get k urlMap) as Hk
        by (intros; by apply obj_get_set_ne).
      split.
      * destruct (obj_get key urlMap) as [seen|]; [destruct (filter0 _ seen)|];
          rewrite Hk, Hv; by eexists.
      * intros w Hw. apply Hh. rewrite <- Hw.
        destruct (obj_get key urlMap) as [seen|]; [destruct (filter0 _ seen)|];
          by rewrite Hk.
  - intros ->. apply url_match_Some in Hm as [_ Heq].
    apply scheme_url_inj in Heq as [<- <-].
    destruct (obj_get k urlMap) as [seen|] eqn:Hg.
    + destruct (filter0 _ seen) as [x|] eqn:Hf.
      * split; [rewrite obj_get_set; by eexists|].
        intros w Hw. rewrite obj_get_set in Hw. injection Hw as <-.
        apply find_some in Hf as [Hx Heq]. apply list_elem_of_In in Hx.
        by destruct x.
      * split; [rewrite obj_get_set; by eexists|].
        intros w Hw. rewrite obj_get_set in Hw. injection Hw as <-.
        rewrite js_sort_perm. apply elem_of_app. right. left.
    + split; [rewrite obj_get_set; by eexists|].
      intros w Hw. rewrite obj_get_set in Hw. injection Hw as <-. left.
Qed.

Lemma forEach_record_scheme_https k urls urlMap urlMap' :
  forEach_throwing record_scheme urls urlMap = Ok urlMap' →
  sorted_values urlMap →
  sorted_values urlMap' ∧
  ((is_Some (obj_get k urlMap) ∧ holds_https k urlMap) ∨
   scheme_url https k ∈ urls →
   is_Some (obj_get k urlMap') ∧ holds_https k urlMap').
Proof.
  revert urlMap. induction urls as [|url urls IH]; intros urlMap; simpl.
  - intros [= <-] Hs. split; [done|]. intros [?|H]; [done|].
    by apply elem_of_nil in H.
  - destruct (record_scheme urlMap url) as [m1|] eqn:H1; [|done].
    intros H Hs.
    destruct (record_scheme_https k _ _ _ H1 Hs) as (Hs1 & Hkeep & Hnew).
    destruct (IH _ H Hs1) as [Hs' Hk]. split; [done|].
    intros [[Hsome Hh]|Hin]; apply Hk.
    + left. by apply Hkeep.
    + apply elem_of_cons in Hin as [<-|Hin]; [left; by apply Hnew|by right].
Qed.

Lemma obj_get_delete_eq {V} k (o : list (string * V)) :
  NoDup o.*1 → obj_get k (obj_delete k o) = None.
Proof. intros Hnd. by apply obj_get_None, obj_delete_gone. Qed.

Lemma merge_slash_https k urlMap n :
  map_ok urlMap → sorted_values urlMap → holds_https k urlMap →
  sorted_values (merge_slash urlMap n) ∧ holds_https k (merge_slash urlMap n).
Proof.
  intros Hok Hs Hh. unfold merge_slash.
  destruct (obj_get (n +:+ "/") urlMap) as [withSlash|] eqn:Hget; [|done].
  set (merged := js_sort scheme_cmp _).
  assert (Hs1 : sorted_values (obj_set (n +:+ "/") merged urlMap)).
  { apply obj_set_sorted_values; [done|apply js_sort_https_last]. }
  split.
  - unfold sorted_values in *. rewrite Forall_forall in Hs1.
    apply Forall_forall. intros e He. apply Hs1. by eapply obj_delete_elem_of.
  - intros v Hv. destruct (decide (k = n)) as [->|Hne].
    + rewrite obj_get_delete_eq in Hv; [done|].
      apply obj_set_NoDup, Hok.
    + rewrite obj_get_delete_ne in Hv by done.
      destruct (decide (k = n +:+ "/")) as [->|Hne'].
      * rewrite obj_get_set in Hv. injection Hv as <-.
        unfold merged. rewrite js_sort_perm. apply uniq_acc_elem_of_2.
        right. apply elem_of_app. left. by apply Hh.
      * rewrite obj_get_set_ne in Hv by done. by apply Hh.
Qed.

Lemma fold_merge_slash_https k names urlMap :
  map_ok urlMap → sorted_values urlMap → holds_https k urlMap →
  sorted_values (fold_left merge_slash names urlMap) ∧
  holds_https k (fold_left merge_slash names urlMap).
Proof.
  revert urlMap. induction names as [|n names IH]; intros urlMap Hok Hs Hh;
    simpl; [done|].
  destruct (merge_slash_https k urlMap n) as [Hs1 Hh1]; [done..|].
  apply IH; [by apply merge_slash_ok|done|done].
Qed.

(** X5. When a raw URL has the scheme [https], [getUniqueURLs] does not
    return the URL with the same rest and the scheme [http], whatever
    else the list holds. *)
Theorem getUniqueURLs_prefers_https urls out rest :
  getUniqueURLs urls = Ok out →
  scheme_url https rest ∈ urls →
  scheme_url http rest ∉ out.
Proof.
  intros H Hin Hout.
  destruct (getUniqueURLs_unfold _ _ H) as (m1 & H1 & Hok1 & Hrest).
  cbv zeta in Hrest. destruct Hrest as (Hok2 & _ & ->).
  set (m2 := fold_left merge_slash (getOwnPropertyNames m1) m1) in *.
  destruct (forEach_record_scheme_https rest _ _ _ H1) as [Hs1 Hh1];
    [by constructor|].
  destruct Hh1 as [_ Hh1]; [by right|].
  destruct (fold_merge_slash_https rest (getOwnPropertyNames m1) m1)
    as [Hs2 Hh2]; [done..|]. fold m2 in Hs2, Hh2.
  apply list_elem_of_fmap in Hout as (k & Heq & Hk).
  apply scheme_url_inj in Heq as [Hscheme <-].
  rewrite getOwnPropertyNames_perm in Hk.
  destruct (obj_get_elem_of _ _ Hk) as [v Hv]. rewrite Hv in Hscheme.
  simpl in Hscheme.
  assert (Hlast : last v = Some https).
  { unfold sorted_values in Hs2. rewrite Forall_forall in Hs2.
    apply (Hs2 _ (obj_get_Some _ _ _ Hv)). by apply Hh2. }
  by rewrite Hlast in Hscheme.
Qed.

(** *** Two raw URLs in a longer list *)

(** The schemes stored under a key are kept by the turns of the first
    loop. *)
Lemma record_scheme_observed k s urlMap url urlMap' :
  record_scheme urlMap url = Ok urlMap' →
  ((∃ v, obj_get k urlMap = Some v ∧ s ∈ v) ∨ url_match url = Some (s, k)) →
  ∃ v, obj_get k urlMap' = Some v ∧ s ∈ v.
Proof.
  intros H1 Hor.
  destruct (url_match url) as [[scheme key]|] eqn:Hm.
  2: { rewrite record_scheme_cases, Hm in H1. done. }
  apply (record_scheme_Ok_eq _ _ _ _ _ Hm) in H1 as ->.
  destruct (decide (k = key)) as [->|Hne].
  - destruct (obj_get key urlMap) as [seen|] eqn:Hg.
    + destruct (filter0 _ seen) as [x|] eqn:Hf; rewrite obj_get_set;
        eexists; (split; [done|]).
      * destruct Hor as [(v & [= <-] & Hs)|[= <-]]; [done|].
        apply find_some in Hf as [Hx Heq]. apply list_elem_of_In in Hx.
        by destruct x, scheme.
      * rewrite js_sort_perm, elem_of_app, list_elem_of_singleton.
        destruct Hor as [(v & [= <-] & Hs)|[= <-]]; [by left|by right].
    + rewrite obj_get_set. eexists. split; [done|].
      destruct Hor as [(v & [=] & _)|[= <-]]. left.
  - destruct Hor as [(v & Hv & Hs)|[= _ Heq]]; [|congruence].
    exists v. split; [|done].
    destruct (obj_get key urlMap) as [seen|]; [destruct (filter0 _ seen)|];
      by rewrite obj_get_set_ne.
Qed.

Lemma forEach_record_scheme_observed k s urls urlMap urlMap' :
  forEach_throwing record_scheme urls urlMap = Ok urlMap' →
  ((∃ v, obj_get k urlMap = Some v ∧ s ∈ v) ∨ scheme_url s k ∈ urls) →
  ∃ v, obj_get k urlMap' = Some v ∧ s ∈ v.
Proof.
  revert urlMap. induction urls as [|url urls IH]; intros urlMap; simpl.
  - intros [= <-] [?|H]; [done|by apply elem_of_nil in H].
  - destruct (record_scheme urlMap url) as [m1|e] eqn:H1; [|done].
    intros H Hor. apply (IH _ H).
    destruct Hor as [Hkept|Hin].
    + left. eapply record_scheme_observed; [done|by left].
    + apply elem_of_cons in Hin as [<-|Hin]; [|by right].
      left. eapply record_scheme_observed; [done|]. right.
      destruct (url_match (scheme_url s k)) as [[s' k']|] eqn:Hm.
      * apply url_match_Some in Hm as [_ Heq].
        by apply scheme_url_inj in Heq as [<- <-].
      * rewrite record_scheme_cases, Hm in H1. done.
Qed.

(** A turn of the merging loop keeps the schemes of every key other than
    its own, and those of its own key when the key has no slash form. *)
Lemma merge_slash_mono k urlMap n v :
  obj_get k urlMap = Some v →
  n ≠ k ∨ obj_get (k +:+ "/") urlMap = None →
  ∃ v', obj_get k (merge_slash urlMap n) = Some v' ∧ ∀ s, s ∈ v → s ∈ v'.
Proof.
  intros Hv Hor. unfold merge_slash.
  destruct (obj_get (n +:+ "/") urlMap) as [withSlash|] eqn:Hget;
    [|by exists v].
  assert (Hne : n ≠ k) by (destruct Hor; congruence).
  rewrite obj_get_delete_ne by done.
  destruct (decide (k = n +:+ "/")) as [->|Hne'].
  - rewrite obj_get_set. eexists. split; [done|]. intros s Hs.
    rewrite js_sort_perm. apply uniq_acc_elem_of_2. right.
    apply elem_of_app. left. congruence.
  - rewrite obj_get_set_ne by done. by exists v.
Qed.

Lemma fold_merge_slash_mono k names urlMap v :
  obj_get k urlMap = Some v → k +:+ "/" ∉ urlMap.*1 →
  ∃ v', obj_get k (fold_left merge_slash names urlMap) = Some v' ∧
        ∀ s, s ∈ v → s ∈ v'.
Proof.
  revert urlMap v. induction names as [|n names IH]; intros urlMap v Hv Hs;
    simpl; [by exists v|].
  destruct (merge_slash_mono k urlMap n v Hv) as (v1 & Hv1 & Hsub1).
  { right. by apply obj_get_None. }
  destruct (IH _ _ Hv1) as (v2 & Hv2 & Hsub2).
  { intros Hin. by apply Hs, (merge_slash_keys urlMap n). }
  exists v2. split; [done|]. auto.
Qed.

(** A name that has its turn while its slash form is there, and stays
    there, hands its schemes over to the slash form. *)
Lemma fold_merge_slash_hands_over r names urlMap v :
  map_ok urlMap → r ∈ names →
  obj_get r urlMap = Some v →
  r +:+ "/" ∈ urlMap.*1 → (r +:+ "/") +:+ "/" ∉ urlMap.*1 →
  ∃ v', obj_get (r +:+ "/") (fold_left merge_slash names urlMap) = Some v' ∧
        ∀ s, s ∈ v → s ∈ v'.
Proof.
  revert urlMap v. induction names as [|n names IH];
    intros urlMap v Hok Hin Hv Hs Hss.
  - by apply elem_of_nil in Hin.
  - simpl. destruct (decide (n = r)) as [->|Hne].
    + destruct (obj_get_elem_of _ _ Hs) as [withSlash Hw].
      assert (Hstep : ∃ v1, obj_get (r +:+ "/") (merge_slash urlMap r) = Some v1 ∧
                            ∀ s, s ∈ v → s ∈ v1).
      { unfold merge_slash. rewrite Hw.
        rewrite obj_get_delete_ne by apply append_slash_ne.
        rewrite obj_get_set. eexists. split; [done|]. intros s Hin'.
        rewrite js_sort_perm. apply uniq_acc_elem_of_2. right.
        apply elem_of_app. right. by rewrite Hv. }
      destruct Hstep as (v1 & Hv1 & Hsub1).
      destruct (fold_merge_slash_mono (r +:+ "/") names _ v1 Hv1)
        as (v2 & Hv2 & Hsub2).
      { intros Hin'. by apply Hss, (merge_slash_keys urlMap r). }
      exists v2. split; [done|]. auto.
    + apply elem_of_cons in Hin as [->|Hin]; [done|].
      destruct (merge_slash_mono r urlMap n v Hv) as (v1 & Hv1 & Hsub1);
        [by left|].
      destruct (obj_get_elem_of _ _ Hs) as [withSlash Hw].
      destruct (merge_slash_mono (r +:+ "/") urlMap n withSlash Hw)
        as (w1 & Hw1 & _).
      { right. by apply obj_get_None. }
      destruct (IH (merge_slash urlMap n) v1) as (v2 & Hv2 & Hsub2);
        [by apply merge_slash_ok|done|done|by eapply obj_get_Some_key| |].
      { intros Hin'. by apply Hss, (merge_slash_keys urlMap n). }
      exists v2. split; [done|]. auto.
Qed.

Lemma fold_merge_slash_sorted names urlMap :
  map_ok urlMap → sorted_values urlMap →
  sorted_values (fold_left merge_slash names urlMap).
Proof.
  revert urlMap. induction names as [|n names IH]; intros urlMap Hok Hs;
    simpl; [done|].
  apply IH; [by apply merge_slash_ok|].
  unfold merge_slash.
  destruct (obj_get (n +:+ "/") urlMap) as [withSlash|] eqn:Hget; [|done].
  assert (Hs1 : sorted_values
                  (obj_set (n +:+ "/")
                     (js_sort scheme_cmp
                        (uniq scheme_eqb
                           (withSlash ++ default [] (obj_get n urlMap))))
                     urlMap)).
  { apply obj_set_sorted_values; [done|apply js_sort_https_last]. }
  unfold sorted_values in *. rewrite Forall_forall in Hs1.
  apply Forall_forall. intros e He. apply Hs1. by eapply obj_delete_elem_of.
Qed.

Lemma plain_scheme_url s k :
  plain (scheme_url s k) ↔ dot_star k = true ∧ inherited k = false.
Proof.
  split.
  - intros (s' & k' & Hm & Hi). apply url_match_Some in Hm as [Hd Heq].
    by apply scheme_url_inj in Heq as [<- <-].
  - intros [Hd Hi]. exists s, k. split; [by apply url_match_canonical|done].
Qed.

(** The rests that the first loop stores are the rests of the raw URLs. *)
Lemma forEach_record_scheme_rests urls m1 k :
  forEach_throwing record_scheme urls [] = Ok m1 →
  k ∈ m1.*1 → ∃ s, scheme_url s k ∈ urls.
Proof.
  intros H1 Hk. destruct (forEach_record_scheme_keys _ _ _ H1) as [_ Hkeys].
  destruct (Hkeys k Hk) as [Hnil|(u & s & Hu & Hm)];
    [by apply elem_of_nil in Hnil|].
  exists s. apply url_match_Some in Hm as [_ ->]. done.
Qed.

(** C6, amended.  The two raw URLs [http://a.com] and [https://a.com/]
    give exactly [https://a.com/].  Two plain raw URLs that differ only
    by scheme or by a trailing slash, on their own, give exactly one
    canonical URL, with the slash when one of them has it and with
    [https] when one of them has it.  In a list of plain raw URLs that
    does not hold their canonical rest with one more slash, two such
    URLs give exactly one canonical URL: it has the slash when one of
    them has it, and [https] when one of them has it. *)
Theorem getUniqueURLs_scheme_slash :
  getUniqueURLs ["http://a.com"; "https://a.com/"] = Ok ["https://a.com/"] ∧
  (∀ s1 s2 b1 b2 rest,
     plain (scheme_url s1 (with_slash b1 rest)) →
     plain (scheme_url s2 (with_slash b2 rest)) →
     getUniqueURLs [scheme_url s1 (with_slash b1 rest);
                    scheme_url s2 (with_slash b2 rest)]
     = Ok [scheme_url (preferred s1 s2) (with_slash (b1 || b2) rest)]) ∧
  (∀ urls s1 s2 b1 b2 rest,
     Forall plain urls →
     scheme_url s1 (with_slash b1 rest) ∈ urls →
     scheme_url s2 (with_slash b2 rest) ∈ urls →
     (∀ s, scheme_url s (with_slash (b1 || b2) rest +:+ "/") ∉ urls) →
     ∃ out s,
       getUniqueURLs urls = Ok out ∧ NoDup out ∧
       scheme_url s (with_slash (b1 || b2) rest) ∈ out ∧
       (∀ s' b, scheme_url s' (with_slash b rest) ∈ out →
                s' = s ∧ b = (b1 || b2)) ∧
       (s1 = https ∨ s2 = https → s = https)).
Proof.
  split_and!; [reflexivity| |].
  - intros s1 s2 b1 b2 rest [Hd1 Hi1]%plain_scheme_url [Hd2 Hi2]%plain_scheme_url.
    apply getUniqueURLs_pair; [|done|done].
    destruct b1; [by rewrite <- dot_star_slash|done].
  - intros urls s1 s2 b1 b2 rest Hplain Hin1 Hin2 Hfree.
    set (K := with_slash (b1 || b2) rest) in *.
    destruct (getUniqueURLs_inv urls Hplain) as (m & _ & _ & Hrun).
    destruct (getUniqueURLs_unfold _ _ Hrun) as (m1 & H1 & Hok1 & Hrest).
    cbv zeta in Hrest. destruct Hrest as (Hok2 & Hpair & Hout).
    set (m2 := fold_left merge_slash (getOwnPropertyNames m1) m1) in *.
    set (sf := fun k => default http (last (default [] (obj_get k m2)))) in *.
    (* The canonical rest is stored by the first loop, without its
       slash form. *)
    assert (HK : ∃ s0, scheme_url s0 K ∈ urls).
    { unfold K. destruct b1; [by exists s1|]. destruct b2; by eexists. }
    destruct HK as [s0 HK].
    destruct (forEach_record_scheme_observed K s0 _ _ _ H1) as (v1 & Hv1 & _);
      [by right|].
    assert (HKs : K +:+ "/" ∉ m1.*1).
    { intros Hk. destruct (forEach_record_scheme_rests _ _ _ H1 Hk) as [s Hs].
      by apply (Hfree s). }
    destruct (fold_merge_slash_mono K (getOwnPropertyNames m1) m1 v1 Hv1 HKs)
      as (v2 & Hv2 & Hsub). fold m2 in Hv2.
    assert (HKm2 : K ∈ m2.*1) by by eapply obj_get_Some_key.
    assert (Hmem : ∀ s' r, scheme_url s' r ∈ render sf <$> getOwnPropertyNames m2 →
                           r ∈ m2.*1 ∧ s' = sf r).
    { intros s' r Hr. apply list_elem_of_fmap in Hr as (k & Heq & Hk).
      apply scheme_url_inj in Heq as [-> ->].
      split; [by rewrite <- getOwnPropertyNames_perm|done]. }
    exists (render sf <$> getOwnPropertyNames m2), (sf K).
    split_and!.
    + by rewrite Hrun, Hout.
    + rewrite <- Hout. eapply getUniqueURLs_NoDup. by rewrite Hrun, Hout.
    + apply list_elem_of_fmap. exists K. split; [done|].
      by rewrite getOwnPropertyNames_perm.
    + intros s' b Hb. destruct (Hmem _ _ Hb) as [Hkey ->].
      assert (Hbb : b = (b1 || b2)).
      { destruct b, (b1 || b2) eqn:Hbb; try done; unfold K in *; simpl in *.
        - exfalso. apply HKs. by eapply fold_merge_slash_keys.
        - exfalso. by apply (Hpair rest). }
      by subst b.
    + intros Hhttps.
      (* [https] is stored under the rest of the raw URL that has it. *)
      assert (Hsrc : ∃ b, scheme_url https (with_slash b rest) ∈ urls ∧
                          (b = true → (b1 || b2) = true)).
      { destruct Hhttps as [-> | ->].
        - exists b1. split; [done|]. by intros ->.
        - exists b2. split; [done|]. intros ->. apply orb_true_r. }
      destruct Hsrc as (b & Hsrc & Hb).
      destruct (forEach_record_scheme_observed (with_slash b rest) https _ _ _ H1)
        as (w1 & Hw1 & Hhw1); [by right|].
      destruct (forEach_record_scheme_https (with_slash b rest) _ _ _ H1)
        as [Hs1 _]; [by constructor|].
      pose proof (fold_merge_slash_sorted (getOwnPropertyNames m1) m1 Hok1 Hs1)
        as Hs2. fold m2 in Hs2.
      assert (Hv2https : https ∈ v2).
      { destruct b, (b1 || b2) eqn:Hbb; unfold K in *; simpl in *.
        - apply Hsub. congruence.
        - by discriminate Hb.
        - destruct (fold_merge_slash_hands_over rest (getOwnPropertyNames m1)
                      m1 w1) as (v' & Hv' & Hsub'); [done| |done| |done|].
          + rewrite getOwnPropertyNames_perm. by eapply obj_get_Some_key.
          + by eapply obj_get_Some_key.
          + fold m2 in Hv'. rewrite Hv2 in Hv'. injection Hv' as <-. auto.
        - apply Hsub. congruence. }
      unfold sf. rewrite Hv2. simpl.
      unfold sorted_values in Hs2. rewrite Forall_forall in Hs2.
      pose proof (Hs2 _ (obj_get_Some _ _ _ Hv2) Hv2https) as Hlast.
      simpl in Hlast. by rewrite Hlast.
Qed.

(** C6 as stated fails in a longer list: [http://b] and [http://b/]
    differ only by the trailing slash, and with [http://b//] in the list
    the result holds [http://b], not [http://b/]: the slash form was
    folded into [b//] before the turn of [b]. *)
Lemma getUniqueURLs_two_slashes :
  let urls := ["http://b/"; "http://b"; "http://b//"] in
  "http://b" ∈ urls ∧ "http://b/" ∈ urls ∧
  getUniqueURLs urls = Ok ["http://b"; "http://b//"] ∧
  "http://b/" ∉ ["http://b"; "http://b//"].
Proof.
  split_and!; [right; left|left|reflexivity|].
  intros H. repeat (apply elem_of_cons in H as [H|H]; [discriminate H|]).
  by apply elem_of_nil in H.
Qed.

(** C7 fails on the code.  A raw URL that matches the scheme pattern
    with a rest that [urlMap] inherits, after plain ones, makes
    [getUniqueURLs] throw the TypeError: there is no output to apply it
    to again. *)
Theorem getUniqueURLs_inherited_rest front scheme key back :
  Forall plain front → inherited key = true →
  well_formed (scheme_url scheme key) ∧
  getUniqueURLs (front ++ scheme_url scheme key :: back) = Throw TypeError.
Proof.
  intros Hfront Hi. destruct (inherited_chars _ Hi) as [_ Hd].
  pose proof (url_match_canonical scheme key Hd) as Hm.
  split; [unfold well_formed, scheme_url; by rewrite Hm|].
  by apply (getUniqueURLs_first front _ back Hfront) with scheme key.
Qed.

(** ** Further properties of the caches, [loadURL] and [parse] *)

Section CacheFacts.
Context {Fragment : Type}.
Variable parseString : string → option (list Fragment).

Abbreviation Datum := (ParseRecord Fragment).
Abbreviation P := (Promise (Disk Fragment)).

(** X6. [clearCache] removes the two cache files of the URL and nothing
    else; after it [parse] parses the content anew, whatever had been
    cached. *)
Theorem clearCache_forces_refresh u data (disk : Disk Fragment) :
  let cleared := clearCache u disk in
  urlcache cleared !! getCacheFileName u = None ∧
  idlcache cleared !! getCacheFileName u = None ∧
  datasets cleared = datasets disk ∧
  (∀ name, name ≠ getCacheFileName u →
     urlcache cleared !! name = urlcache disk !! name ∧
     idlcache cleared !! name = idlcache disk !! name) ∧
  (parse parseString (u, data) cleared).1
  = match fold_left (parse_candidate parseString) (as_array data) [] with
    | [] => Throw (NoDataError u)
    | f :: fs => Ok {| url := u; parses := f :: fs |}
    end.
Proof.
  intros cleared. unfold cleared. split_and!.
  - apply lookup_delete_eq.
  - apply lookup_delete_eq.
  - done.
  - intros name Hne. simpl. by rewrite !lookup_delete_ne.
  - rewrite parse_miss.
    + simpl. by destruct (fold_left _ _ _).
    + unfold read_json, clearCache. simpl. by rewrite lookup_delete_eq.
Qed.

(** X7. [loadURL] caches what it loads: once it has resolved, every
    later [loadURL] of the URL resolves to the same page from the cache,
    whatever the network would deliver, and leaves the disk as it is.  A
    failed load is the failure of the request and leaves the disk as it
    was.  The load stays pending exactly when nothing is cached for the
    URL and the response has no body.  Where it settles, it has not
    touched the parse-record cache or a Dataset. *)
Theorem loadURL_caches request u (disk : Disk Fragment) :
  (∀ page disk',
     loadURL request u disk = Some (Ok page, disk') →
     ∀ request', loadURL request' u disk' = Some (Ok page, disk')) ∧
  (∀ err disk',
     loadURL request u disk = Some (Throw err, disk') →
     disk' = disk ∧ request u = Throw err) ∧
  (loadURL request u disk = None ↔
   urlcache disk !! getCacheFileName u = None ∧ request u = Ok EmptyString) ∧
  (∀ outcome disk',
     loadURL request u disk = Some (outcome, disk') →
     idlcache disk' = idlcache disk ∧ datasets disk' = datasets disk).
Proof.
  split_and!.
  - intros page disk' H request'.
    apply loadURL_Ok_inv in H as (body & -> & Hbody & _).
    unfold loadURL. by rewrite Hbody.
  - intros err disk' H. by apply loadURL_Throw_inv in H as (-> & _ & ->).
  - apply loadURL_pending.
  - intros [page|err] disk' H.
    + by apply loadURL_Ok_inv in H as (body & _ & _ & -> & -> & _).
    + by apply loadURL_Throw_inv in H as (-> & _).
Qed.

(** X8. [parse] caches what it returns: once it has returned a record
    for a URL, every later [parse] for that URL returns the same record,
    whatever the content and the parser, and leaves the disk as it is. *)
Theorem parse_caches u data (disk : Disk Fragment) record disk' :
  parse parseString (u, data) disk = (Ok record, disk') →
  ∀ parseString' data',
    parse parseString' (u, data') disk' = (Ok record, disk').
Proof.
  intros H parseString' data'. apply parse_hit.
  destruct (read_json (idlcache disk) (getCacheFileName u)) as [cached|] eqn:Hc.
  - rewrite (parse_hit _ _ _ _ _ Hc) in H. by injection H as <- <-.
  - rewrite (parse_miss _ _ _ _ Hc) in H. simpl in H.
    destruct (fold_left _ _ _); [done|]. injection H as <- <-.
    unfold read_json. simpl. by rewrite lookup_insert_eq.
Qed.

(** X9. [parse] throws nothing but the no-data error of its URL, and
    then the cache had no readable record for the URL and the disk is
    left as it was.  In every case it leaves the raw cache, the Dataset
    files and the cached records of other file names alone. *)
Theorem parse_frame u data (disk : Disk Fragment) :
  let result := parse parseString (u, data) disk in
  (∀ err, result.1 = Throw err →
     err = NoDataError u ∧ result.2 = disk ∧
     read_json (idlcache disk) (getCacheFileName u) = None) ∧
  urlcache result.2 = urlcache disk ∧
  datasets result.2 = datasets disk ∧
  ∀ name, name ≠ getCacheFileName u →
    idlcache result.2 !! name = idlcache disk !! name.
Proof.
  intros result. unfold result.
  destruct (read_json (idlcache disk) (getCacheFileName u)) as [cached|] eqn:Hc.
  - rewrite (parse_hit _ _ _ _ _ Hc). by split_and!.
  - rewrite (parse_miss _ _ _ _ Hc). simpl.
    destruct (fold_left _ _ _); simpl; split_and!; try done.
    + by intros err [= <-].
    + intros name Hne. by rewrite lookup_insert_ne.
Qed.

Lemma parse_candidates_concat data :
  fold_left (parse_candidate parseString) data []
  = mjoin ((fun idl => default [] (parseString idl)) <$> data).
Proof.
  induction data as [|idl data IH]; [done|].
  simpl. rewrite parse_candidates_app, IH.
  unfold parse_candidate. by destruct (parseString idl).
Qed.

(** X10. When the cache holds no readable record for the URL and [parse]
    returns, the record carries the URL and, in the order of the
    candidates, all the fragments of the candidates that are IDL; there
    is at least one. *)
Theorem parse_fresh_record u data (disk : Disk Fragment) record disk' :
  read_json (idlcache disk) (getCacheFileName u) = None →
  parse parseString (u, data) disk = (Ok record, disk') →
  url record = u ∧
  parses record
  = mjoin ((fun idl => default [] (parseString idl)) <$> as_array data) ∧
  parses record ≠ [].
Proof.
  intros Hc H. rewrite (parse_miss _ _ _ _ Hc) in H. simpl in H.
  rewrite parse_candidates_concat in H.
  destruct (mjoin _) eqn:Hp; [done|]. by injection H as <- <-.
Qed.
End CacheFacts.

(** ** Further properties of [urlSort] and of [importHTTP] *)

Lemma string_compare_refl a : String.compare a a = Eq.
Proof.
  induction a as [|c a IH]; simpl; [done|].
  unfold Ascii.compare. by rewrite N.compare_refl.
Qed.

Section ImportFacts.
Context {Fragment : Type}.
Variable parseString : string → option (list Fragment).

Abbreviation Datum := (ParseRecord Fragment).
Abbreviation P := (Promise (Disk Fragment)).

(** X11. [urlSort] is a consistent comparator: its value is -1, 0 or 1;
    swapping the records negates it; it is 0 exactly on records with the
    same URL; and not-after is transitive. *)
Theorem urlSort_consistent (a b c : Datum) :
  (urlSort a b = -1 ∨ urlSort a b = 0 ∨ urlSort a b = 1) ∧
  urlSort b a = - urlSort a b ∧
  (urlSort a b = 0 ↔ url a = url b) ∧
  (urlSort a b <= 0 → urlSort b c <= 0 → urlSort a c <= 0).
Proof.
  split_and!.
  - unfold urlSort, string_cmp. destruct (String.ltb _ _); [by left|].
    destruct (String.ltb _ _); auto.
  - unfold urlSort, string_cmp, String.ltb.
    rewrite (String.compare_antisym (url b) (url a)).
    by destruct (String.compare (url a) (url b)).
  - unfold urlSort, string_cmp, String.ltb.
    rewrite (String.compare_antisym (url b) (url a)). split.
    + destruct (String.compare (url a) (url b)) eqn:Hc; try done.
      intros _. by apply String.compare_eq_iff.
    + intros ->. by rewrite string_compare_refl.
  - unfold urlSort. rewrite <- !Z.leb_le, !string_cmp_le.
    apply string_leb_trans.
Qed.

Lemma check_previous_elem_of (allData : list Datum) prevData retryURLs u :
  u ∈ fold_left (check_previous allData) prevData retryURLs ↔
  u ∈ retryURLs ∨
  ∃ p, p ∈ prevData ∧ url p = u ∧
       match filter0 (same_url u) allData with
       | None => parses p ≠ []
       | Some datum => (length (parses datum) < length (parses p))%nat
       end.
Proof.
  revert retryURLs. induction prevData as [|q prevData IH]; intros retryURLs.
  - simpl. split; [by left|]. intros [?|(p & Hp & _)]; [done|].
    by apply elem_of_nil in Hp.
  - simpl. rewrite IH. clear IH.
    assert (Hstep : u ∈ check_previous allData retryURLs q ↔
              u ∈ retryURLs ∨
              (url q = u ∧
               match filter0 (same_url u) allData with
               | None => parses q ≠ []
               | Some datum => (length (parses datum) < length (parses q))%nat
               end)).
    { unfold check_previous.
      destruct (filter0 (same_url (url q)) allData) as [datum|] eqn:Hd.
      - destruct (length (parses datum) <? length (parses q))%nat eqn:Hlt.
        + apply Nat.ltb_lt in Hlt. rewrite elem_of_app, list_elem_of_singleton.
          split; [intros [?| ->]; [by left|right; by rewrite Hd]|].
          intros [?|[<- _]]; [by left|by right].
        + apply Nat.ltb_ge in Hlt. split; [by left|].
          intros [?|[<- H]]; [done|]. rewrite Hd in H. lia.
      - destruct (parses q) as [|f fs] eqn:Hq; simpl.
        + split; [by left|]. intros [?|[<- H]]; [done|]. by rewrite Hd in H.
        + rewrite elem_of_app, list_elem_of_singleton.
          split; [intros [?| ->]; [by left|right; by rewrite Hd]|].
          intros [?|[<- _]]; [by left|by right]. }
    rewrite Hstep. split.
    + intros [[?|[Hq Hm]]|(p & Hp & Hrest)]; [by left| |].
      * right. exists q. split; [left|done].
      * right. exists p. split; [by right|done].
    + intros [?|(p & Hp & Hu & Hm)]; [by left; left|].
      apply elem_of_cons in Hp as [-> |Hp]; [left; right; done|].
      right. by exists p.
Qed.

(** X12. A URL is retried exactly when the previous data hold a record
    for it that has parses while the first pass has no record for the
    URL, or that has more parses than the first record of the first pass
    for the URL.  Without previous data nothing is retried. *)
Theorem retry_urls_spec (prevData allData : list Datum) u :
  (u ∈ retry_urls (Some prevData) allData ↔
   ∃ p, p ∈ prevData ∧ url p = u ∧
        match filter0 (same_url u) allData with
        | None => parses p ≠ []
        | Some datum => (length (parses datum) < length (parses p))%nat
        end) ∧
  retry_urls None allData = [].
Proof.
  split; [|done]. unfold retry_urls. rewrite check_previous_elem_of.
  split; [intros [H|?]; [by apply elem_of_nil in H|done]|by right].
Qed.

(** X13. When nothing is to retry, as when no previous Dataset can be
    read, [importHTTP] scrapes once, clears no cache, and writes and
    returns the data of the first pass sorted by URL. *)
Theorem importHTTP_nothing_to_retry scrape1 scrape2 urls path disk
  urls' data1 disk1 :
  getUniqueURLs urls = Ok urls' →
  scrapeURLs parseString scrape1 urls' disk = (Ok data1, disk1) →
  retry_urls (read_json (datasets disk1) path) (js_sort urlSort data1) = [] →
  importHTTP parseString scrape1 scrape2 urls path disk
  = (Ok (js_sort urlSort data1),
     {| urlcache := urlcache disk1;
        idlcache := idlcache disk1;
        datasets := <[path := Json (js_sort urlSort data1)]> (datasets disk1) |}).
Proof.
  intros Hu H1 Hretry.
  rewrite (importHTTP_eq parseString scrape1 scrape2 _ _ _ _ _ _ Hu H1).
  by rewrite Hretry.
Qed.

(** X14. When a raw URL does not match the scheme pattern, [importHTTP]
    fails with the error of [getUniqueURLs] before anything is scraped:
    the disk is left as it was.  The error is the assertion error, unless
    the rest of a matching URL is an inherited name, where it may be the
    TypeError. *)
Theorem importHTTP_malformed_url scrape1 scrape2 urls path
  (disk : Disk Fragment) :
  ¬ Forall well_formed urls →
  (∃ err,
     importHTTP parseString scrape1 scrape2 urls path disk = (Throw err, disk) ∧
     (err = AssertionError ∨ err = TypeError)) ∧
  (Forall (fun url => well_formed url → plain url) urls →
   importHTTP parseString scrape1 scrape2 urls path disk
   = (Throw AssertionError, disk)).
Proof.
  intros Hnot. unfold importHTTP.
  destruct (getUniqueURLs_malformed _ Hnot) as (err & -> & Herr & Hassert).
  split; [by exists err|]. intros Hall. by rewrite (Hassert Hall).
Qed.
End ImportFacts.

(** ** Running [importIDL] again *)

Section RepeatFacts.
Context {Fragment : Type}.
Variable parseString : string → option (list Fragment).
Variable request : string → Result string.

Abbreviation Datum := (ParseRecord Fragment).
Abbreviation P := (Promise (Disk Fragment)).

(** What one job of [importIDL] leaves, and what it leaves alone. *)
Lemma load_job_runs u (disk : Disk Fragment) record disk1 :
  load_job parseString request u disk = Some (record, disk1) →
  job_at_rest parseString request u record disk1 ∧
  datasets disk1 = datasets disk ∧
  ∀ name, name ≠ getCacheFileName u → same_files name disk1 disk.
Proof.
  rewrite load_job_eq, then_d_eq.
  destruct (loadURL request u disk) as [[[page|err] disk0]|] eqn:Hl; [| |done].
  - apply loadURL_Ok_inv in Hl as (body & -> & Hbody & Hidl & Hds & Hother).
    destruct (parse parseString (u, Single body) disk0)
      as [[parsed|err] disk2] eqn:Hp; intros [= <- <-].
    + apply parse_Ok_inv in Hp as (Hrec & Hurl & Hds1 & Hother1).
      split_and!; [|congruence|].
      * left. exists body. by rewrite Hurl.
      * intros name Hne. split; [rewrite Hurl; by apply Hother|].
        rewrite Hother1 by done. by rewrite Hidl.
    + apply parse_Throw_inv in Hp as (-> & Hnone & Hfold).
      split_and!; [|done|].
      * right. left. by exists body.
      * intros name Hne. split; [by apply Hother|by rewrite Hidl].
  - apply loadURL_Throw_inv in Hl as (-> & Hnone & Hreq). intros [= <- <-].
    split_and!; [|done|done].
    right. right. split_and!; [done|by eexists|done].
Qed.

Lemma job_at_rest_runs u record (disk : Disk Fragment) :
  job_at_rest parseString request u record disk →
  load_job parseString request u disk = Some (record, disk).
Proof.
  rewrite load_job_eq, then_d_eq. unfold loadURL.
  intros [(body & Hb & Hr)|[(body & Hb & Hr & Hnot & ->)|(Hb & [err He] & ->)]];
    rewrite Hb.
  - by rewrite (parse_hit _ _ _ _ _ Hr).
  - rewrite (parse_miss _ _ _ _ Hr). simpl. by rewrite Hnot.
  - by rewrite He.
Qed.

Lemma job_at_rest_same_files u record (d1 d2 : Disk Fragment) :
  same_files (getCacheFileName u) d1 d2 →
  job_at_rest parseString request u record d1 →
  job_at_rest parseString request u record d2.
Proof.
  intros [Hu Hi]. unfold job_at_rest, read_json. cbv zeta.
  by rewrite Hu, Hi.
Qed.

Lemma batch_frame batch (disk : Disk Fragment) data disk1 name :
  all_d (load_job parseString request <$> batch) disk = Some (data, disk1) →
  (∀ u, u ∈ batch → name ≠ getCacheFileName u) →
  same_files name disk1 disk.
Proof.
  revert disk data. induction batch as [|u batch IH]; intros disk data.
  - by intros [= _ <-].
  - rewrite fmap_cons, all_d_cons.
    destruct (load_job parseString request u disk) as [[record disk0]|] eqn:Hjob;
      [|done].
    destruct (all_d _ disk0) as [[rest disk2]|] eqn:Hrest; [|done].
    intros [= <- <-] Hname.
    destruct (load_job_runs _ _ _ _ Hjob) as (_ & _ & Hother).
    destruct (IH _ _ Hrest) as [H1 H2]; [intros v Hv; apply Hname; by right|].
    destruct (Hother name) as [H3 H4]; [apply Hname; left|].
    split; congruence.
Qed.

(** A batch run again on a disk that has the cache files of its URLs as
    the first run left them returns the same data and writes nothing. *)
Lemma batch_repeats batch (disk : Disk Fragment) data disk1 again :
  NoDup batch → names_distinct batch →
  all_d (load_job parseString request <$> batch) disk = Some (data, disk1) →
  (∀ u, u ∈ batch → same_files (getCacheFileName u) disk1 again) →
  all_d (load_job parseString request <$> batch) again = Some (data, again).
Proof.
  revert disk data. induction batch as [|u batch IH];
    intros disk data Hnd Hinj Hrun Hsame.
  - simpl in *. by injection Hrun as <- _.
  - apply NoDup_cons in Hnd as [Hu Hnd].
    rewrite fmap_cons, all_d_cons in Hrun |- *.
    destruct (load_job parseString request u disk) as [[record disk0]|] eqn:Hjob;
      [|done].
    destruct (load_job_runs _ _ _ _ Hjob) as (Hrest & _ & _).
    destruct (all_d _ disk0) as [[rest disk2]|] eqn:Hbatch; [|done].
    injection Hrun as <- <-.
    assert (Hagain : job_at_rest parseString request u record again).
    { apply (job_at_rest_same_files u record disk0); [|done].
      destruct (Hsame u) as [H1 H2]; [left|].
      destruct (batch_frame batch disk0 rest disk2 (getCacheFileName u) Hbatch)
        as [H3 H4].
      - intros v Hv Heq. apply Hu.
        rewrite (Hinj u v); [done|left|by right|done].
      - split; congruence. }
    rewrite (job_at_rest_runs _ _ _ Hagain).
    rewrite (IH disk0 rest); [done|done| |done|].
    + intros a b Ha Hb. apply Hinj; by right.
    + intros v Hv. apply Hsame. by right.
Qed.

(** X15. When no two of the URLs share a cache file name, [importIDL]
    can be repeated: run again on the disk it left, with the network
    answering as before, it returns the same data and leaves the disk
    as it is. *)
Theorem importIDL_repeats urls path (disk : Disk Fragment) data disk' :
  names_distinct urls →
  importIDL parseString request urls path disk = Some (Ok data, disk') →
  importIDL parseString request urls path disk' = Some (Ok data, disk').
Proof.
  intros Hinj. unfold importIDL.
  destruct (sorted_uniq_spec urls) as (Hnd & _ & Hsub).
  set (sorted := js_sort string_cmp (uniq String.eqb urls)) in *.
  destruct (all_d _ disk) as [[data1 disk1]|] eqn:Hrun; [|done].
  intros [= <- <-].
  rewrite (batch_repeats sorted disk data1 disk1); [| | |done|]; try done.
  - unfold then_, write_dataset, resolve. simpl.
    by rewrite insert_insert_eq.
  - intros a b Ha Hb. apply Hinj; by apply Hsub.
Qed.

(** A batch with a URL that has nothing cached and gets a response
    without a body stays pending. *)
Lemma batch_pending batch (disk : Disk Fragment) u :
  names_distinct batch → u ∈ batch →
  urlcache disk !! getCacheFileName u = None →
  request u = Ok EmptyString →
  all_d (load_job parseString request <$> batch) disk = None.
Proof.
  revert disk. induction batch as [|v batch IH]; intros disk Hinj Hu Hmiss Hreq.
  - by apply elem_of_nil in Hu.
  - rewrite fmap_cons, all_d_cons.
    destruct (load_job parseString request v disk) as [[record disk0]|] eqn:Hjob;
      [|done].
    destruct (decide (v = u)) as [->|Hne].
    + assert (load_job parseString request u disk = None); [|congruence].
      by apply load_job_pending, loadURL_pending.
    + apply elem_of_cons in Hu as [->|Hu]; [done|].
      rewrite (IH disk0); [done| |done| |done].
      * intros a b Ha Hb. apply Hinj; by right.
      * destruct (load_job_runs _ _ _ _ Hjob) as (_ & _ & Hother).
        destruct (Hother (getCacheFileName u)) as [Hsame _]; [|congruence].
        intros Heq. apply Hne. symmetry. apply Hinj; [by right|left|done].
Qed.

(** C5 fails on the code.  A URL of the batch of [importIDL] that has
    nothing cached and gets a response without a body throws in the
    listener of [end]: the error is not caught at the call site, the URL
    contributes no record, and the batch never resolves. *)
Theorem importIDL_empty_response urls path (disk : Disk Fragment) u :
  names_distinct urls → u ∈ urls →
  urlcache disk !! getCacheFileName u = None →
  request u = Ok EmptyString →
  load_job parseString request u disk = None ∧
  importIDL parseString request urls path disk = None.
Proof.
  intros Hinj Hu Hmiss Hreq. split.
  - by apply load_job_pending, loadURL_pending.
  - unfold importIDL. rewrite (batch_pending _ disk u); try done.
    + intros a b Ha Hb. apply Hinj; by apply sorted_uniq_elem_of.
    + by apply sorted_uniq_elem_of.
Qed.
End RepeatFacts.

(** ** Further properties of the runner *)

Section RunnerMoreFacts.
Context {Fragment Chain : Type}.
Implicit Types (r : Runner Fragment Chain) (e : Event Fragment Chain).

Lemma align_length n (v : Value Fragment) items :
  align n v = Ok items → length items = n.
Proof.
  revert items. induction v as [elems IH|p] using Value_induction;
    intros items; simpl; [|done].
  destruct (length elems =? n)%nat eqn:Hn.
  - intros [= <-]. by apply Nat.eqb_eq.
  - destruct elems as [|first [|second elems]]; try done.
    apply Forall_inv in IH. apply IH.
Qed.

Lemma map_throwing_flatten_length (parses : list (Value Fragment)) flat :
  map_throwing flatten_tags parses = Ok flat → length flat = length parses.
Proof.
  revert flat. induction parses as [|v parses IH]; intros flat; simpl.
  - by intros [= <-].
  - destruct (flatten_tags v); [|done].
    destruct (map_throwing flatten_tags parses); [|done].
    intros [= <-]. simpl. by rewrite (IH _ eq_refl).
Qed.

Lemma map_throwing_flatten_throws (parses : list (Value Fragment)) err :
  map_throwing flatten_tags parses = Throw err →
  err = TypeError ∧ ∃ p, Obj p ∈ parses.
Proof.
  induction parses as [|v parses IH]; simpl; [done|].
  destruct v as [tags|p]; simpl.
  - destruct (map_throwing flatten_tags parses); [done|].
    intros [= <-]. destruct (IH eq_refl) as [-> [p Hp]].
    split; [done|]. exists p. by right.
  - intros [= <-]. split; [done|]. exists p. left.
Qed.

(** X16. [gather] throws nothing but the malformed-output error, and
    that only when [delegates] cannot be aligned with the URLs, and a
    type error, when the aligned list holds a parse where the array of a
    URL should be.  Without output it returns the runner as it is. *)
Theorem gather_throws r file :
  gather r file NoOutput = Ok r ∧
  gather r file EmptyArray = Ok r ∧
  ∀ urls delegates err,
    gather r file (Output urls delegates) = Throw err →
    (err = MalformedMemoOutput ∧ misaligned (length urls) delegates) ∨
    (err = TypeError ∧
     ∃ parses, align (length urls) delegates = Ok parses ∧
               length parses = length urls ∧ ∃ p, Obj p ∈ parses).
Proof.
  split_and!; [done|done|]. intros urls delegates err. unfold gather.
  destruct (align (length urls) delegates) as [parses|e] eqn:Ha.
  - destruct (map_throwing flatten_tags parses) as [flat|e] eqn:Hm; [done|].
    intros [= <-]. right.
    destruct (map_throwing_flatten_throws _ _ Hm) as [-> Hp].
    split; [done|]. exists parses. split_and!; [done| |done].
    by eapply align_length.
  - intros [= <-]. left. by apply align_throws.
Qed.

Lemma fold_gather_url file
  (entries : list (string * list (Value Fragment))) acc :
  let acc' := fold_left (gather_url file) entries acc in
  dom acc'.1 = dom acc.1 ∪ list_to_set entries.*1 ∧
  dom acc'.2 = dom acc.2 ∪ list_to_set entries.*1 ∧
  (∀ u, u ∉ entries.*1 →
        acc'.1 !! u = acc.1 !! u ∧ acc'.2 !! u = acc.2 !! u) ∧
  (∀ u, u ∈ entries.*1 →
        ∃ more, acc'.1 !! u = Some (default [] (acc.1 !! u) ++ more ++ [file])) ∧
  (∀ u files, acc.1 !! u = Some files →
        ∃ more, acc'.1 !! u = Some (files ++ more)).
Proof.
  revert acc. induction entries as [|[v parses] entries IH]; intros acc; simpl.
  - split_and!.
    + by rewrite union_empty_r_L.
    + by rewrite union_empty_r_L.
    + done.
    + intros u Hu. by apply elem_of_nil in Hu.
    + intros u files ->. exists []. by rewrite app_nil_r.
  - destruct (IH (gather_url file acc (v, parses)))
      as (Hd1 & Hd2 & Hout & Hin & Hkeep). simpl in *.
    split_and!.
    + rewrite Hd1, dom_insert_L.
      by rewrite (comm_L (∪) {[v]}), <- (assoc_L (∪)).
    + rewrite Hd2, dom_insert_L.
      by rewrite (comm_L (∪) {[v]}), <- (assoc_L (∪)).
    + intros u Hu. apply not_elem_of_cons in Hu as [Hne Hu].
      destruct (Hout u Hu) as [-> ->]. by rewrite !lookup_insert_ne.
    + intros u Hu. destruct (decide (u ∈ entries.*1)) as [Hrest|Hrest].
      * destruct (Hin u Hrest) as [more Hmore].
        destruct (decide (u = v)) as [->|Hne].
        -- rewrite lookup_insert_eq in Hmore. simpl in Hmore.
           exists ([file] ++ more). rewrite Hmore.
           by rewrite <- !app_assoc.
        -- rewrite lookup_insert_ne in Hmore by done. by exists more.
      * apply elem_of_cons in Hu as [->|?]; [|done].
        destruct (Hout v Hrest) as [-> _]. rewrite lookup_insert_eq.
        exists []. done.
    + intros u files Hfiles. destruct (decide (u = v)) as [->|Hne].
      * destruct (Hkeep v (files ++ [file])) as [more ->].
        { by rewrite lookup_insert_eq, Hfiles. }
        exists ([file] ++ more). by rewrite <- app_assoc.
      * apply Hkeep. by rewrite lookup_insert_ne.
Qed.

Lemma gather_Ok_inv r file urls delegates r' :
  gather r file (Output urls delegates) = Ok r' →
  ∃ entries,
    entries.*1 = urls ∧
    running r' = running r ∧
    eachFilePromises r' = eachFilePromises r ∧
    pipeline r' = pipeline r ∧ bound r' = bound r ∧
    (urlsToFiles r', urlsToParses r')
    = fold_left (gather_url file) entries (urlsToFiles r, urlsToParses r).
Proof.
  unfold gather.
  destruct (align (length urls) delegates) as [parses|] eqn:Ha; [|done].
  destruct (map_throwing flatten_tags parses) as [flat|] eqn:Hm; [|done].
  intros [= <-]. exists (zip urls flat). simpl. split_and!; try done.
  - apply fst_zip. rewrite (map_throwing_flatten_length _ _ Hm).
    by rewrite (align_length _ _ _ Ha).
  - by destruct (fold_left _ _ _).
Qed.

(** X17. When [gather] returns for the URLs of an output, the list of
    files of each of these URLs ends with the file; what was recorded for
    other URLs stays as it was; and no file recorded before is lost. *)
Theorem gather_records r file urls delegates r' :
  gather r file (Output urls delegates) = Ok r' →
  (∀ u, u ∈ urls →
        ∃ files, urlsToFiles r' !! u = Some (files ++ [file])) ∧
  (∀ u, u ∉ urls →
        urlsToFiles r' !! u = urlsToFiles r !! u ∧
        urlsToParses r' !! u = urlsToParses r !! u) ∧
  (∀ u files, urlsToFiles r !! u = Some files →
        ∃ more, urlsToFiles r' !! u = Some (files ++ more)).
Proof.
  intros H. apply gather_Ok_inv in H as (entries & <- & _ & _ & _ & _ & Hacc).
  pose proof (fold_gather_url file entries (urlsToFiles r, urlsToParses r))
    as (_ & _ & Hout & Hin & Hkeep).
  cbv zeta in *. rewrite <- Hacc in *. simpl in *. split_and!.
  - intros u Hu. destruct (Hin u Hu) as [more ->].
    eexists. by rewrite app_assoc.
  - done.
  - done.
Qed.

Lemma handle_dom r e :
  dom (urlsToFiles r) = dom (urlsToParses r) →
  dom (urlsToFiles (handle r e)) = dom (urlsToParses (handle r e)).
Proof.
  intros Hdom. destruct e as [chain|file|file output| |]; simpl; try done.
  - unfold run. by destruct (running r).
  - destruct (gather r file output) as [r'|] eqn:Hg; [|done].
    destruct output as [| |urls delegates]; try by injection Hg as <-.
    apply gather_Ok_inv in Hg as (entries & _ & _ & _ & _ & _ & Hacc).
    pose proof (fold_gather_url file entries (urlsToFiles r, urlsToParses r))
      as (Hd1 & Hd2 & _).
    cbv zeta in *. rewrite <- Hacc in *. simpl in *.
    by rewrite Hd1, Hd2, Hdom.
Qed.

(** X18. Through every run of events from [init] the URLs that have
    files are the URLs that have parses. *)
Theorem accumulators_same_urls (events : list (Event Fragment Chain)) :
  dom (urlsToFiles (handle_all init events))
  = dom (urlsToParses (handle_all init events)).
Proof.
  unfold handle_all.
  assert (H : dom (urlsToFiles (init (Fragment:=Fragment) (Chain:=Chain)))
              = dom (urlsToParses (init (Fragment:=Fragment) (Chain:=Chain))))
    by done.
  revert H. generalize (init (Fragment:=Fragment) (Chain:=Chain)).
  induction events as [|e events IH]; intros r Hr; [done|].
  simpl. by apply IH, handle_dom.
Qed.

Lemma handle_files r e :
  eachFilePromises (handle r e)
  = eachFilePromises r
    ++ match e with GlobData file => [file] | _ => [] end.
Proof.
  destruct e as [chain|file|file output| |]; simpl; rewrite ?app_nil_r; try done.
  - unfold run. by destruct (running r).
  - destruct (gather r file output) as [r'|] eqn:Hg; [|done].
    destruct output as [| |urls delegates]; try by injection Hg as <-.
    by apply gather_Ok_inv in Hg as (entries & _ & _ & -> & _).
Qed.

(** X19. The list of file promises is never reset: after any events it
    is the list from before followed by the files that the stream handed
    over since, also across a failed run and a new [run()]. *)
Theorem eachFilePromises_grows r (events : list (Event Fragment Chain)) :
  eachFilePromises (handle_all r events)
  = eachFilePromises r ++ files_of events.
Proof.
  revert r. induction events as [|e events IH]; intros r.
  - simpl. by rewrite app_nil_r.
  - unfold handle_all in *. simpl. rewrite IH, handle_files, <- app_assoc.
    by destruct e.
Qed.
End RunnerMoreFacts.

(** ** The file name of a logger binding *)

Lemma alnum_not_white c : is_alnum c = true → is_white c = false.
Proof. destruct c as [[] [] [] [] [] [] [] []]; by vm_compute. Qed.

Lemma alnum_not_space c : is_alnum c = true → Ascii.eqb c " "%char = false.
Proof. destruct c as [[] [] [] [] [] [] [] []]; by vm_compute. Qed.

Lemma replace_runs_spaced in_run json :
  spaced in_run (replace_runs in_run json) = true.
Proof.
  revert in_run. induction json as [|c json IH]; intros in_run; simpl; [done|].
  destruct (is_alnum c) eqn:Hc; simpl.
  - by rewrite Hc.
  - destruct in_run; [done|]. simpl. apply IH.
Qed.

Lemma trim_start_spaced after s :
  spaced after s = true → spaced true (trim_start s) = true.
Proof.
  destruct s as [|c s]; [done|]. simpl.
  destruct (is_alnum c) eqn:Hc.
  - rewrite (alnum_not_white _ Hc). simpl. by rewrite Hc.
  - intros H. apply andb_true_iff in H as [H Hs].
    apply andb_true_iff in H as [Hsp _]. apply Ascii.eqb_eq in Hsp as ->.
    simpl. destruct s as [|c' s]; [done|]. simpl in *.
    destruct (is_alnum c') eqn:Hc'; [|by rewrite andb_false_r in Hs].
    rewrite (alnum_not_white _ Hc'). simpl. by rewrite Hc'.
Qed.

Lemma trim_end_separated after s :
  spaced after s = true →
  trim_end s = EmptyString ∨ separated " " after (trim_end s) = true.
Proof.
  revert after. induction s as [|c s IH]; intros after; simpl; [by left|].
  destruct (is_alnum c) eqn:Hc.
  - intros Hs. right. destruct (IH _ Hs) as [->|Hsep].
    + rewrite (alnum_not_white _ Hc). simpl. by rewrite Hc.
    + destruct (trim_end s) eqn:He.
      * rewrite (alnum_not_white _ Hc). simpl. by rewrite Hc.
      * simpl. by rewrite Hc.
  - intros H. apply andb_true_iff in H as [H Hs].
    apply andb_true_iff in H as [Hsp Hafter].
    apply Ascii.eqb_eq in Hsp as ->.
    destruct (IH _ Hs) as [->|Hsep]; [by left|].
    destruct (trim_end s) eqn:He; [by left|].
    right. simpl. simpl in Hsep. by rewrite Hafter, Hsep.
Qed.

Lemma underscore_spaces_separated after s :
  separated " " after s = true →
  separated "_" after (underscore_spaces s) = true.
Proof.
  revert after. induction s as [|c s IH]; intros after; simpl; [done|].
  destruct (is_alnum c) eqn:Hc.
  - rewrite (alnum_not_space _ Hc), Hc. apply IH.
  - intros H. apply andb_true_iff in H as [H Hs].
    apply andb_true_iff in H as [Hsp Hafter].
    apply Ascii.eqb_eq in Hsp as ->. simpl. rewrite Hafter. by apply IH.
Qed.

Lemma separated_name_chars sep after s :
  separated sep after s = true → all_chars (fun c => is_alnum c || Ascii.eqb c sep) s = true.
Proof.
  revert after. induction s as [|c s IH]; intros after; simpl; [done|].
  destruct (is_alnum c); simpl; [apply IH|].
  intros H. apply andb_true_iff in H as [H Hs].
  apply andb_true_iff in H as [-> _]. simpl. by eapply IH.
Qed.

Lemma separated_not_last sep after s :
  is_alnum sep = false → separated sep after (s +:+ String sep EmptyString) = false.
Proof.
  intros Hsep. revert after. induction s as [|c s IH]; intros after.
  - cbv [String.append]. simpl. rewrite Hsep, Ascii.eqb_refl. simpl.
    by rewrite andb_false_r.
  - rewrite append_cons. simpl. destruct (is_alnum c); [apply IH|].
    by rewrite IH, andb_false_r.
Qed.

Lemma separated_not_twice sep after a b :
  is_alnum sep = false →
  separated sep after (a +:+ String sep (String sep b)) = false.
Proof.
  intros Hsep. revert after. induction a as [|c a IH]; intros after.
  - cbv [String.append]. simpl. rewrite Hsep, Ascii.eqb_refl. simpl.
    by rewrite andb_false_r.
  - rewrite append_cons. simpl. destruct (is_alnum c); [apply IH|].
    by rewrite IH, andb_false_r.
Qed.

Lemma alnum_fileName json :
  all_chars is_alnum json = true →
  replace_runs false json = json ∧ trim_end json = json ∧
  trim_start json = json ∧ underscore_spaces json = json.
Proof.
  induction json as [|c json IH]; [done|]. simpl.
  intros H. apply andb_true_iff in H as [Hc Hjson].
  destruct (IH Hjson) as (Hr & He & _ & Hu).
  rewrite Hc, Hr, He, Hu, (alnum_not_white _ Hc), (alnum_not_space _ Hc).
  split_and!; try done. by destruct json.
Qed.

(** X20. The file name that [onBinding] derives holds only alphanumeric
    characters and underscores; it neither begins nor ends with an
    underscore and has no two underscores in a row; and a text of
    alphanumeric characters is its own file name. *)
Theorem onBinding_fileName_safe json :
  all_chars name_char (onBinding_fileName json) = true ∧
  (∀ rest, onBinding_fileName json ≠ String "_" rest) ∧
  (∀ start, onBinding_fileName json ≠ start +:+ "_") ∧
  (∀ start rest, onBinding_fileName json ≠ start +:+ "__" +:+ rest) ∧
  (all_chars is_alnum json = true → onBinding_fileName json = json).
Proof.
  assert (Hsep : onBinding_fileName json = EmptyString ∨
                 separated "_" true (onBinding_fileName json) = true).
  { unfold onBinding_fileName, trim.
    pose proof (replace_runs_spaced false json) as H.
    apply trim_start_spaced, trim_end_separated in H as [->|H]; [by left|].
    right. by apply underscore_spaces_separated. }
  split_and!.
  - destruct Hsep as [->|H]; [done|].
    by apply separated_name_chars in H.
  - intros rest Heq. rewrite Heq in Hsep. by destruct Hsep.
  - intros start Heq. rewrite Heq in Hsep. destruct Hsep as [H|H].
    + by destruct start.
    + by rewrite separated_not_last in H.
  - intros start rest Heq. rewrite Heq in Hsep. destruct Hsep as [H|H].
    + by destruct start.
    + change (start +:+ "__" +:+ rest)
        with (start +:+ String "_" (String "_" rest)) in H.
      by rewrite separated_not_twice in H.
  - intros H. unfold onBinding_fileName, trim.
    destruct (alnum_fileName json H) as (-> & He & -> & Hu).
    by rewrite He, Hu.
Qed.

(** * Instances

    Each property that has a premise, applied to a concrete input. *)

Lemma getUniqueURLs_scheme_slash_witness :
  getUniqueURLs ["https://example.org/spec"; "http://example.org/spec/"]
  = Ok ["https://example.org/spec/"] ∧
  ∃ out s,
    getUniqueURLs ["http://b.org"; "http://a.com/x"; "https://a.com/x/";
                   "http://a.com"] = Ok out ∧
    scheme_url s "a.com/x/" ∈ out ∧
    (∀ s' b, scheme_url s' (with_slash b "a.com/x") ∈ out →
             s' = s ∧ b = true) ∧
    s = https.
Proof.
  destruct getUniqueURLs_scheme_slash as (_ & Hpair & Hlist). split.
  - apply (Hpair https http false true "example.org/spec");
      eexists _, _; split; reflexivity.
  - destruct (Hlist ["http://b.org"; "http://a.com/x"; "https://a.com/x/";
                     "http://a.com"] http https false true "a.com/x")
      as (out & s & Hrun & _ & Hin & Huniq & Hs).
    + repeat (constructor; [eexists _, _; split; reflexivity|]). constructor.
    + right; left.
    + right; right; left.
    + intros s H.
      destruct s;
        repeat (apply elem_of_cons in H as [H|H]; [discriminate H|]);
        by apply elem_of_nil in H.
    + exists out, s. split_and!; [done|done|done|]. apply Hs. by right.
Defined.

Lemma getUniqueURLs_idempotent_witness :
  ∃ out out',
    getUniqueURLs ["http://a.com/x"; "http://a.com/x"; "https://a.com/x/"]
    = Ok out ∧ NoDup out ∧
    getUniqueURLs out = Ok out' ∧ out' ≡ₚ out.
Proof.
  apply getUniqueURLs_idempotent.
  repeat (constructor; [by eexists _, _|]). constructor.
Defined.

Lemma parse_on_cache_miss_witness :
  let u := "https://a.com/" in
  let record := {| url := u; parses := [1%nat; 2%nat] |} in
  parse letters_parser (u, Several ["not idl"; "AB"]) empty_disk
  = (Ok record,
     {| urlcache := ∅;
        idlcache := <[getCacheFileName u := Json record]> ∅;
        datasets := ∅ |}) ∧
  parse letters_parser (u, Single "not idl") empty_disk
  = (Throw (NoDataError u), empty_disk).
Proof.
  intros u record.
  destruct (parse_on_cache_miss letters_parser u
              (Several ["not idl"; "AB"]) empty_disk eq_refl) as [Hsome _].
  destruct (parse_on_cache_miss letters_parser u
              (Single "not idl") empty_disk eq_refl) as [_ Hnone].
  split.
  - apply Hsome. apply Exists_cons_tl, Exists_cons_hd.
    by exists 1%nat, [2%nat].
  - apply Hnone. constructor; [by left|constructor].
Defined.

Lemma gather_malformed_witness :
  gather (init (Fragment:=nat) (Chain:=nat)) "a.idl"
    (Output ["https://a.org/"; "https://b.org/"]
       (Arr [Arr [Arr []; Arr []; Arr []]]))
  = Throw MalformedMemoOutput.
Proof.
  apply gather_malformed.
  apply misaligned_inside; [discriminate|].
  apply misaligned_here; discriminate.
Defined.

Lemma run_while_running_witness :
  let r := (run 1%nat (init (Fragment:=nat))).2 in
  run 2%nat r = (Throw AlreadyRunning, r) ∧
  run 2%nat (handle_all r [GlobData "a.idl"; GlobEnd])
  = (Throw AlreadyRunning, handle_all r [GlobData "a.idl"; GlobEnd]) ∧
  GlobError ∈ [GlobData (Fragment:=nat) (Chain:=nat) "a.idl"; GlobError].
Proof.
  intros r.
  destruct (run_while_running (Fragment:=nat) (Chain:=nat)) as (H1 & H2 & H3).
  split_and!.
  - apply H1. reflexivity.
  - apply (H2 1%nat 2%nat init); [reflexivity|].
    intros H. apply elem_of_cons in H as [H|H]; [discriminate H|].
    apply elem_of_cons in H as [H|H]; [discriminate H|].
    by apply elem_of_nil in H.
  - apply (H3 2%nat r); reflexivity.
Defined.

Lemma importHTTP_keeps_first_pass_witness :
  let u := "https://a.com/" in
  let prior := {| url := u; parses := [1%nat; 2%nat; 3%nat] |} in
  let first := {| url := u; parses := [1%nat; 2%nat] |} in
  ∃ final disk',
    importHTTP letters_parser (scrape_body "AB") (scrape_body "A")
      [u; "https://b.org/"] "idl.json" (disk_with_prior [prior])
    = (Ok final, disk') ∧
    datasets disk' !! "idl.json" = Some (Json final) ∧
    first ∈ final ∧
    prior ∉ final.
Proof.
  intros u prior first.
  set (urls := [u; "https://b.org/"]).
  set (other := {| url := "https://b.org/"; parses := [1%nat; 2%nat] |}).
  set (second := {| url := u; parses := [1%nat] |}).
  set (disk1 := (scrapeURLs letters_parser (scrape_body "AB") urls
                   (disk_with_prior [prior])).2).
  set (disk3 := (scrapeURLs letters_parser (scrape_body "A") [u]
                   (clearCache u disk1)).2).
  destruct (importHTTP_keeps_first_pass letters_parser
              (scrape_body "AB") (scrape_body "A") urls "idl.json"
              (disk_with_prior [prior]) urls [first; other] disk1
              [prior] [second] disk3 prior first)
    as (final & disk' & Hrun & Hds & _ & Hin & _ & Hnot).
  - reflexivity.
  - vm_compute. reflexivity.
  - vm_compute. reflexivity.
  - vm_compute. reflexivity.
  - intros p Hp _. apply list_elem_of_singleton in Hp as ->.
    by exists first.
  - left.
  - left.
  - reflexivity.
  - intros d Hd Hu.
    apply elem_of_cons in Hd as [->|Hd]; [simpl; lia|].
    apply list_elem_of_singleton in Hd as ->. discriminate Hu.
  - intros d Hd _. apply list_elem_of_singleton in Hd as ->. simpl. lia.
  - by exists final, disk'.
Defined.

Lemma datasets_sorted_unique_witness :
  let u := "https://a.com/" in
  let final := [{| url := u; parses := [1%nat; 2%nat] |}] in
  let data :=
    [{| url := "http://a.b/x"; parses := [1%nat] |};
     {| url := "http://a.c"; parses := [1%nat] |}] in
  (StronglySorted url_le final ∧ NoDup (url <$> final)) ∧
  ∃ disk',
    importIDL letters_parser (fun _ => Ok "A")
      ["http://a.c"; "http://a.b/x"; "http://a.c"] "idl.json" empty_disk
    = Some (Ok data, disk') ∧
    StronglySorted url_le data ∧ NoDup (url <$> data).
Proof.
  intros u final data.
  destruct (datasets_sorted_unique letters_parser) as [Hhttp Hidl].
  split.
  - destruct (Hhttp (scrape_body "AB") (scrape_body "ABCD") [u] "idl.json"
                (disk_with_prior [{| url := u; parses := [1%nat; 2%nat; 3%nat] |}])
                final
                (importHTTP letters_parser (scrape_body "AB") (scrape_body "ABCD")
                   [u] "idl.json"
                   (disk_with_prior
                      [{| url := u; parses := [1%nat; 2%nat; 3%nat] |}])).2)
      as (_ & Hsorted & Hnodup); [vm_compute; reflexivity|].
    split; [exact Hsorted|].
    apply (Hnodup [u]); [reflexivity| | |].
    + intros v disk. split; [reflexivity|]. by intros v' body [= <- _].
    + intros a b Ha Hb _.
      apply list_elem_of_singleton in Ha as ->.
      by apply list_elem_of_singleton in Hb as ->.
    + intros a cached _ H. vm_compute in H. discriminate H.
  - eexists. split; [vm_compute; reflexivity|].
    eapply (Hidl (fun _ => Ok "A") ["http://a.c"; "http://a.b/x"; "http://a.c"]
              "idl.json" empty_disk data); [vm_compute; reflexivity| |].
    + intros a b Ha Hb Hname.
      repeat (apply elem_of_cons in Ha as [->|Ha]);
        repeat (apply elem_of_cons in Hb as [->|Hb]);
        try reflexivity; try (by apply elem_of_nil in Ha);
        try (by apply elem_of_nil in Hb); vm_compute in Hname; discriminate Hname.
    + intros a cached _ H. vm_compute in H. discriminate H.
Defined.

(** ** Instances of the further properties *)

Lemma getCacheFileName_safe_witness :
  all_chars is_alnum "idl2017" = true ∧
  getCacheFileName "idl2017" = "idl2017".
Proof.
  split; [reflexivity|].
  exact (proj2 (proj2 (proj2 (getCacheFileName_safe "idl2017"))) eq_refl).
Defined.

Lemma getUniqueURLs_throws_iff_witness :
  (∃ out, getUniqueURLs ["http://a.com"; "https://b.org/x"] = Ok out) ∧
  getUniqueURLs ["http://a.com"; "ftp://b.org/x"; "http://toString"]
  = Throw AssertionError ∧
  getUniqueURLs ["http://a.com"; "http://toString"; "ftp://b.org/x"]
  = Throw TypeError.
Proof.
  assert (Hplain : plain "http://a.com") by by exists http, "a.com".
  split_and!.
  - apply (proj1 (getUniqueURLs_throws_iff ["http://a.com"; "https://b.org/x"])).
    repeat (constructor; [by eexists _, _|]). constructor.
  - destruct (proj2 (proj2 (getUniqueURLs_throws_iff
                              ["http://a.com"; "ftp://b.org/x"; "http://toString"]))
                ["http://a.com"] "ftp://b.org/x" ["http://toString"] eq_refl)
      as [Hassert _]; [by constructor|].
    apply Hassert. intros [m Hm]. discriminate Hm.
  - destruct (proj2 (proj2 (getUniqueURLs_throws_iff
                              ["http://a.com"; "http://toString"; "ftp://b.org/x"]))
                ["http://a.com"] "http://toString" ["ftp://b.org/x"] eq_refl)
      as [_ Htype]; [by constructor|].
    apply (Htype http "toString"); reflexivity.
Defined.

Lemma getUniqueURLs_from_input_witness :
  let urls := ["http://a.com/x"; "https://a.com/x/"; "http://b.org"] in
  let out := ["https://a.com/x/"; "http://b.org"] in
  getUniqueURLs urls = Ok out ∧
  (length out ≤ length urls)%nat ∧
  ∀ u, u ∈ out →
    ∃ s k, u = scheme_url s k ∧ url_match u = Some (s, k) ∧
           ∃ u0 s0, u0 ∈ urls ∧ url_match u0 = Some (s0, k).
Proof.
  intros urls out. split; [reflexivity|].
  exact (getUniqueURLs_from_input urls out eq_refl).
Defined.

Lemma getUniqueURLs_canonical_witness :
  let urls := ["http://a.com/x"; "https://a.com/x/"; "http://b.org"] in
  let out := ["https://a.com/x/"; "http://b.org"] in
  getUniqueURLs urls = Ok out ∧
  (scheme_url http "a.com/x/" ∈ out → https = http) ∧
  (scheme_url http "a.com/x//" ∉ out) ∧
  (scheme_url https "b.org/" ∉ out).
Proof.
  intros urls out. split; [reflexivity|].
  destruct (getUniqueURLs_canonical urls out https http "a.com/x/" eq_refl)
    as [Hscheme Hslash]; [left|].
  destruct (getUniqueURLs_canonical urls out http https "b.org" eq_refl)
    as [_ Hslash']; [right; left|].
  split_and!; [exact Hscheme|exact Hslash|exact Hslash'].
Defined.

Lemma getUniqueURLs_prefers_https_witness :
  let urls := ["http://a.com/x"; "http://b.org"; "https://a.com/x"] in
  getUniqueURLs urls = Ok ["https://a.com/x"; "http://b.org"] ∧
  ("http://a.com/x" ∉ ["https://a.com/x"; "http://b.org"]).
Proof.
  intros urls. split; [reflexivity|].
  apply (getUniqueURLs_prefers_https urls _ "a.com/x" eq_refl).
  right; right; left.
Defined.

Lemma clearCache_forces_refresh_witness :
  let u := "https://a.com/" in
  let stale := {| url := u; parses := [4%nat] |} in
  let disk :=
    {| urlcache := {[getCacheFileName u := "ABCD"; "other" := "A"]};
       idlcache := {[getCacheFileName u := Json stale]};
       datasets := ∅ |} in
  (parse letters_parser (u, Single "AB") disk).1 = Ok stale ∧
  urlcache (clearCache u disk) !! "other" = Some "A" ∧
  (parse letters_parser (u, Single "AB") (clearCache u disk)).1
  = Ok {| url := u; parses := [1%nat; 2%nat] |}.
Proof.
  intros u stale disk.
  destruct (clearCache_forces_refresh letters_parser u (Single "AB") disk)
    as (_ & _ & _ & Hother & Hparse).
  split_and!; [reflexivity| | exact Hparse].
  destruct (Hother "other") as [-> _]; [discriminate|reflexivity].
Defined.

Lemma loadURL_caches_witness :
  let u := "https://a.com/" in
  let loaded :=
    {| urlcache := {[getCacheFileName u := "AB"]};
       idlcache := ∅; datasets := ∅ |} in
  loadURL (Fragment:=nat) (fun _ => Ok "AB") u empty_disk
  = Some (Ok (u, Single "AB"), loaded) ∧
  loadURL (fun _ => Throw (ExternalError "offline")) u loaded
  = Some (Ok (u, Single "AB"), loaded) ∧
  (∀ disk',
     loadURL (Fragment:=nat) (fun _ => Throw (ExternalError "offline")) u
       empty_disk
     = Some (Throw (ExternalError "offline"), disk') →
     disk' = empty_disk) ∧
  loadURL (Fragment:=nat) (fun _ => Ok EmptyString) u empty_disk = None.
Proof.
  intros u loaded.
  assert (Hload : loadURL (Fragment:=nat) (fun _ => Ok "AB") u empty_disk
                  = Some (Ok (u, Single "AB"), loaded))
    by (vm_compute; reflexivity).
  destruct (loadURL_caches (Fragment:=nat) (fun _ => Ok "AB") u empty_disk)
    as (Hhit & _).
  destruct (loadURL_caches (Fragment:=nat)
              (fun _ => Throw (ExternalError "offline")) u empty_disk)
    as (_ & Hfail & _).
  destruct (loadURL_caches (Fragment:=nat) (fun _ => Ok EmptyString) u
              empty_disk) as (_ & _ & Hpending & _).
  split_and!.
  - exact Hload.
  - by apply (Hhit (u, Single "AB") loaded).
  - intros disk' H. by destruct (Hfail _ _ H).
  - apply Hpending. split; reflexivity.
Defined.

Lemma parse_caches_witness :
  let u := "https://a.com/" in
  let parsed := parse letters_parser (u, Single "AB") empty_disk in
  parsed.1 = Ok {| url := u; parses := [1%nat; 2%nat] |} ∧
  parse (fun _ => None) (u, Several ["ABCD"; "no idl"]) parsed.2
  = (Ok {| url := u; parses := [1%nat; 2%nat] |}, parsed.2).
Proof.
  intros u parsed. split; [reflexivity|].
  apply (parse_caches letters_parser u (Single "AB") empty_disk).
  reflexivity.
Defined.

Lemma parse_frame_witness :
  let u := "https://a.com/" in
  let result := parse letters_parser (u, Single "no idl") empty_disk in
  result.1 = Throw (NoDataError u) ∧
  result.2 = empty_disk ∧
  idlcache (parse letters_parser (u, Single "AB") empty_disk).2 !! "other"
  = None.
Proof.
  intros u result.
  destruct (parse_frame letters_parser u (Single "no idl") empty_disk)
    as (Hthrow & _).
  destruct (parse_frame letters_parser u (Single "AB") empty_disk)
    as (_ & _ & _ & Hother).
  split; [reflexivity|].
  destruct (Hthrow (NoDataError u) eq_refl) as (_ & Hdisk & _).
  split; [exact Hdisk|].
  rewrite (Hother "other"); [reflexivity|discriminate].
Defined.

Lemma parse_fresh_record_witness :
  let u := "https://a.com/" in
  let record := {| url := u; parses := [1%nat; 2%nat; 1%nat] |} in
  (parse letters_parser (u, Several ["AB"; "no idl"; "A"]) empty_disk).1
  = Ok record ∧
  url record = u ∧
  parses record
  = mjoin ((fun idl => default [] (letters_parser idl))
             <$> ["AB"; "no idl"; "A"]) ∧
  parses record ≠ [].
Proof.
  intros u record. split; [reflexivity|].
  apply (parse_fresh_record letters_parser u
           (Several ["AB"; "no idl"; "A"]) empty_disk record
           (parse letters_parser (u, Several ["AB"; "no idl"; "A"])
              empty_disk).2); reflexivity.
Defined.

Lemma urlSort_consistent_witness :
  let a := {| url := "http://a.com"; parses := [1%nat] |} in
  let b := {| url := "http://a.com/x"; parses := [] |} in
  let c := {| url := "https://a.com"; parses := [2%nat] |} in
  urlSort a b = -1 ∧ urlSort b c = -1 ∧ urlSort a c <= 0.
Proof.
  intros a b c. split; [reflexivity|]. split; [reflexivity|].
  apply (proj2 (proj2 (proj2 (urlSort_consistent a b c)))); discriminate.
Defined.

Lemma importHTTP_nothing_to_retry_witness :
  let first :=
    [{| url := "https://a.com/"; parses := [1%nat; 2%nat] |};
     {| url := "https://z.org"; parses := [1%nat; 2%nat] |}] in
  ∃ disk',
    importHTTP letters_parser (scrape_body "AB") (scrape_body "ABCD")
      ["https://z.org"; "http://a.com"; "https://a.com/"] "idl.json" empty_disk
    = (Ok first, disk') ∧
    datasets disk' !! "idl.json" = Some (Json first).
Proof.
  intros first. eexists. split.
  - apply (importHTTP_nothing_to_retry letters_parser (scrape_body "AB")
             (scrape_body "ABCD")
             ["https://z.org"; "http://a.com"; "https://a.com/"] "idl.json"
             empty_disk ["https://z.org"; "https://a.com/"]
             [{| url := "https://z.org"; parses := [1%nat; 2%nat] |};
              {| url := "https://a.com/"; parses := [1%nat; 2%nat] |}]
             (scrapeURLs letters_parser (scrape_body "AB")
                ["https://z.org"; "https://a.com/"] empty_disk).2).
    + reflexivity.
    + vm_compute. reflexivity.
    + vm_compute. reflexivity.
  - vm_compute. reflexivity.
Defined.

Lemma importHTTP_malformed_url_witness :
  importHTTP letters_parser (scrape_body "AB") (scrape_body "ABCD")
    ["https://a.com/"; "a.com/spec"] "idl.json" empty_disk
  = (Throw AssertionError, empty_disk).
Proof.
  apply importHTTP_malformed_url.
  - intros H. inversion H as [|? ? _ H']. inversion H' as [|? ? [m Hm] _].
    vm_compute in Hm. discriminate Hm.
  - constructor; [intros _; by exists https, "a.com/"|].
    constructor; [|constructor]. intros [m Hm]. discriminate Hm.
Defined.

Lemma importIDL_repeats_witness :
  let urls := ["http://a.c"; "http://a.b/x"; "http://a.c"] in
  let data := [{| url := "http://a.b/x"; parses := [1%nat] |};
               {| url := "http://a.c"; parses := [1%nat] |}] in
  ∃ disk',
    importIDL letters_parser (fun _ => Ok "A") urls "idl.json" empty_disk
    = Some (Ok data, disk') ∧
    importIDL letters_parser (fun _ => Ok "A") urls "idl.json" disk'
    = Some (Ok data, disk').
Proof.
  intros urls data. eexists. split; [vm_compute; reflexivity|].
  apply (importIDL_repeats letters_parser (fun _ => Ok "A") urls "idl.json"
           empty_disk).
  - intros a b Ha Hb Hname.
    repeat (apply elem_of_cons in Ha as [->|Ha]);
      repeat (apply elem_of_cons in Hb as [->|Hb]);
      try reflexivity; try (by apply elem_of_nil in Ha);
      try (by apply elem_of_nil in Hb); vm_compute in Hname; discriminate Hname.
  - vm_compute. reflexivity.
Defined.

Lemma gather_throws_witness :
  let delegates := Arr [Arr [Obj 1%nat]; Obj 2%nat] in
  gather (init (Chain:=nat)) "a.idl" (Output ["https://a.org/"; "https://b.org/"] delegates)
  = Throw TypeError ∧
  ∃ parses, align 2 delegates = Ok parses ∧ length parses = 2%nat ∧
            ∃ p, Obj p ∈ parses.
Proof.
  intros delegates. split; [reflexivity|].
  destruct (proj2 (proj2 (gather_throws (init (Fragment:=nat) (Chain:=nat))
                            "a.idl"))
              ["https://a.org/"; "https://b.org/"] delegates TypeError eq_refl)
    as [[Herr _]|[_ H]]; [discriminate Herr|exact H].
Defined.

Lemma gather_records_witness :
  let before :=
    (handle_all (init (Fragment:=nat) (Chain:=nat))
       [FileDone "a.idl" (Output ["https://a.org/"; "https://c.org/"]
                            (Arr [Arr [Obj 1%nat]; Arr [Obj 3%nat]]))]) in
  ∃ r',
    gather before "b.idl"
      (Output ["https://a.org/"; "https://b.org/"]
         (Arr [Arr [Arr [Obj 1%nat]; Arr [Obj 2%nat]]]))
    = Ok r' ∧
    (∃ files, urlsToFiles r' !! "https://b.org/" = Some (files ++ ["b.idl"])) ∧
    urlsToParses r' !! "https://c.org/" = Some [Obj 3%nat] ∧
    ∃ more, urlsToFiles r' !! "https://a.org/" = Some (["a.idl"] ++ more).
Proof.
  intros before. eexists. split; [vm_compute; reflexivity|].
  match goal with
  | |- context [urlsToFiles ?r] =>
      destruct (gather_records before "b.idl"
                  ["https://a.org/"; "https://b.org/"]
                  (Arr [Arr [Arr [Obj 1%nat]; Arr [Obj 2%nat]]]) r)
        as (Hurls & Hother & Hkept); [vm_compute; reflexivity|]
  end.
  split_and!.
  - apply Hurls. right; left.
  - destruct (Hother "https://c.org/") as [_ ->]; [|vm_compute; reflexivity].
    intros H. repeat (apply elem_of_cons in H as [H|H]; [discriminate H|]).
    by apply elem_of_nil in H.
  - apply Hkept. vm_compute. reflexivity.
Defined.

Lemma onBinding_fileName_safe_witness :
  all_chars is_alnum "blink" = true ∧ onBinding_fileName "blink" = "blink".
Proof.
  split; [reflexivity|].
  exact (proj2 (proj2 (proj2 (proj2 (onBinding_fileName_safe "blink")))) eq_refl).
Defined.

Lemma getUniqueURLs_inherited_rest_witness :
  well_formed "http://constructor" ∧
  getUniqueURLs ["https://a.com/"; "http://constructor"; "http://b.org"]
  = Throw TypeError.
Proof.
  apply (getUniqueURLs_inherited_rest ["https://a.com/"] http "constructor"
           ["http://b.org"]); [|reflexivity].
  constructor; [|constructor]. by exists https, "a.com/".
Defined.

Lemma importIDL_empty_response_witness :
  let request := fun u => if String.eqb u "http://b.org" then Ok EmptyString
                          else Ok "AB" in
  load_job letters_parser request "http://b.org" empty_disk = None ∧
  importIDL letters_parser request ["http://a.com"; "http://b.org"]
    "idl.json" empty_disk = None.
Proof.
  intros request.
  apply (importIDL_empty_response letters_parser request
           ["http://a.com"; "http://b.org"] "idl.json" empty_disk
           "http://b.org"); [|right; left|reflexivity|reflexivity].
  intros a b Ha Hb Hname.
  repeat (apply elem_of_cons in Ha as [->|Ha]);
    repeat (apply elem_of_cons in Hb as [->|Hb]);
    try reflexivity; try (by apply elem_of_nil in Ha);
    try (by apply elem_of_nil in Hb); vm_compute in Hname; discriminate Hname.
Defined.

